(** * LiveMusicHelper: the streaming playback engine of lutox

    A shallow embedding of [utils/LiveMusicHelper.ts]: the playback state
    machine, the chunk scheduler, the fallback mixer, the delay effect
    setters, the recorder and its WAV encoder.

    Conventions.
    - A JavaScript number that holds a time, a gain, a weight or a sample is
      a finite rational [Qc]; [NaN] and the infinities are outside the model.
      The sample conversion of the encoder loses nothing by it: on a 32-bit
      float sample the comparison, [Math.min], [Math.max], the product by
      32767 or 32768 and the truncation are exact in double precision, so
      the rational result is the one the program computes. The same holds
      of the comparisons and [Math.min] on weights and times. The sums and
      products on times and gains ([currentTime + 0.1], [amount * 0.7]) are
      taken in the rationals, without the rounding of doubles.
    - Frame counts, channel indices and byte offsets are [nat]; the bytes of
      an [ArrayBuffer] are [Z] in [0, 256).
    - A thrown exception is [None] in the option monad.
    - An [async] method is cut at each [await]: the code before it is one
      function, the code after it another, and the engine keeps the list of
      suspended continuations. *)

(** Besides the engine, the development embeds the page around it: the
    undo history ([utils/HistoryManager.ts]), [utils/debounce.ts], the level
    meter ([utils/AudioAnalyser.ts]), the presets ([utils/PresetManager.ts]),
    the knob and MIDI handlers of the components, and the listeners of
    [index.tsx] that tie them to the engine. The services of the browser
    they call are modelled by the state those services keep: the pending
    window timers and animation frame requests, each under its handle, and
    the item of [localStorage]. Times of window timers are integers, in
    milliseconds. *)

From Stdlib Require Import ZArith QArith Qcanon String Ascii Lia.
From stdpp Require Import base tactics option list numbers strings functions gmap.
From stdpp Require Import sorting.

Open Scope Z_scope.

(** ** Numbers *)

Definition qz (z : Z) : Qc := Qc_of_Z z.
Definition qfrac (n : Z) (d : positive) : Qc := Q2Qc (Qmake n d).

Definition Qcmin (a b : Qc) : Qc := if decide (a ≤ b)%Qc then a else b.
Definition Qcmax (a b : Qc) : Qc := if decide (a ≤ b)%Qc then b else a.

(** [x | 0] on a number inside the 32-bit range: truncation toward zero. *)
Definition toInt32 (x : Qc) : Z := Z.quot (Qnum (this x)) (Zpos (Qden (this x))).

(** ** Audio buffers (the Web Audio [AudioBuffer]) *)

Abbreviation Float32Array := (list Qc).

Record AudioBuffer := mkAudioBuffer {
  sampleRate : Z;
  frames : nat;                       (* [buffer.length] *)
  channelData : list Float32Array;
}.

Definition numberOfChannels (b : AudioBuffer) : nat := length (channelData b).

(** [buffer.duration] *)
Definition duration (b : AudioBuffer) : Qc :=
  (qz (Z.of_nat (frames b)) / qz (sampleRate b))%Qc.

(** What the platform guarantees of every [AudioBuffer]: at least one
    channel, at least one frame, and every channel holds [frames] samples. *)
Definition wf_buffer (b : AudioBuffer) : Prop :=
  (0 < numberOfChannels b)%nat ∧ (0 < frames b)%nat ∧ 0 < sampleRate b ∧
  Forall (λ ch : Float32Array, length ch = frames b) (channelData b).

(** [buffer.getChannelData(channel)]: IndexSizeError out of range. *)
Definition getChannelData (b : AudioBuffer) (channel : nat) : option Float32Array :=
  channelData b !! channel.

(** [context.createBuffer(channels, length, rate)]: silence. The arguments
    the engine passes come from an existing buffer, so the platform's range
    check on them cannot fail. *)
Definition createBuffer (channels len : nat) (rate : Z) : AudioBuffer :=
  mkAudioBuffer rate len (replicate channels (replicate len 0%Qc)).

(** The copy loop of [copyToChannel]: elements that would land past the end
    of the destination are not copied. *)
Fixpoint copy_into (dst : Float32Array) (src : Float32Array) (k : nat) : Float32Array :=
  match src with
  | [] => dst
  | x :: src' => copy_into (<[k := x]> dst) src' (S k)
  end.

(** [result.copyToChannel(source, channel, offset)]: IndexSizeError when the
    channel does not exist. *)
Definition copyToChannel (result : AudioBuffer) (source : Float32Array)
    (channel offset : nat) : option AudioBuffer :=
  dst ← channelData result !! channel;
  Some (mkAudioBuffer (sampleRate result) (frames result)
          (<[channel := copy_into dst source offset]> (channelData result))).

(** ** Recorder: concatenation *)

(** [for (const buffer of buffers) totalLength += buffer.length] *)
Definition totalLength (buffers : list AudioBuffer) : nat :=
  foldl (λ acc b, acc + frames b)%nat 0%nat buffers.

(** The inner loop of [concatenateAudioBuffers], over the channels still to
    copy. *)
Fixpoint copy_channels (result : AudioBuffer) (buffer : AudioBuffer)
    (channels : list nat) (offset : nat) : option AudioBuffer :=
  match channels with
  | [] => Some result
  | channel :: rest =>
      data ← getChannelData buffer channel;
      result' ← copyToChannel result data channel offset;
      copy_channels result' buffer rest offset
  end.

(** The outer loop, threading [offset]. *)
Fixpoint copy_buffers (result : AudioBuffer) (buffers : list AudioBuffer)
    (numChannels : nat) (offset : nat) : option AudioBuffer :=
  match buffers with
  | [] => Some result
  | buffer :: rest =>
      result' ← copy_channels result buffer (seq 0 numChannels) offset;
      copy_buffers result' rest numChannels (offset + frames buffer)
  end.

Definition concatenateAudioBuffers (buffers : list AudioBuffer) : option AudioBuffer :=
  match buffers with
  | [] => None                         (* throw new Error('Buffer list is empty') *)
  | first :: _ =>
      let numChannels := numberOfChannels first in
      let rate := sampleRate first in
      let result := createBuffer numChannels (totalLength buffers) rate in
      copy_buffers result buffers numChannels 0
  end.

(** ** Recorder: the WAV encoder *)

(** A [DataView] over an [ArrayBuffer]: the bytes, written in place.
    Every setter raises RangeError when the field does not fit. *)
Abbreviation DataView := (list Z).

Definition setUint8 (view : DataView) (offset : nat) (value : Z) : option DataView :=
  if decide (offset + 1 ≤ length view)%nat
  then Some (<[offset := value mod 256]> view)
  else None.

(** [view.setUint16(offset, value, true)] *)
Definition setUint16 (view : DataView) (offset : nat) (value : Z) : option DataView :=
  if decide (offset + 2 ≤ length view)%nat
  then let v := value mod 65536 in
       Some (<[S offset := (v / 256) mod 256]> (<[offset := v mod 256]> view))
  else None.

(** [view.setInt16(offset, value, true)]: the two's complement of [value],
    low byte first. *)
Definition setInt16 (view : DataView) (offset : nat) (value : Z) : option DataView :=
  setUint16 view offset value.

(** [view.setUint32(offset, value, true)] *)
Definition setUint32 (view : DataView) (offset : nat) (value : Z) : option DataView :=
  if decide (offset + 4 ≤ length view)%nat
  then let v := value mod 4294967296 in
       Some (<[S (S (S offset)) := (v / 16777216) mod 256]>
            (<[S (S offset) := (v / 65536) mod 256]>
            (<[S offset := (v / 256) mod 256]>
            (<[offset := v mod 256]> view))))
  else None.

Definition charCodeAt (c : ascii) : Z := Z.of_nat (nat_of_ascii c).

(** The local helper [setString] of [audioBufferToWav]; [i] is its loop
    counter and [chars] the characters from [i] on. *)
Fixpoint setString_loop (view : DataView) (offset i : nat) (chars : list ascii)
    : option DataView :=
  match chars with
  | [] => Some view
  | c :: rest =>
      view' ← setUint8 view (offset + i) (charCodeAt c);
      setString_loop view' offset (S i) rest
  end.

Definition setString (view : DataView) (offset : nat) (str : string) : option DataView :=
  setString_loop view offset 0 (list_ascii_of_string str).

(** [Math.max(-1, Math.min(1, x))] *)
Definition clampSample (x : Qc) : Qc := Qcmax (qz (-1)) (Qcmin (qz 1) x).

(** [(0.5 + sample < 0 ? sample * 32768 : sample * 32767) | 0]: the
    comparison binds weaker than the sum, so the test is
    [(0.5 + sample) < 0]. *)
Definition pcm16 (sample : Qc) : Z :=
  toInt32 (if decide (qfrac 1 2 + sample < 0)%Qc
           then (sample * qz 32768)%Qc
           else (sample * qz 32767)%Qc).

(** [channels[ch][i]]: a missing element reads as [undefined], which the
    arithmetic turns into [NaN] and [| 0] into 0. *)
Definition sampleAt (channels : list Float32Array) (ch i : nat) : Qc :=
  default 0%Qc (channels !! ch ≫= (.!! i)).

(** The inner loop of the data section, over the channels still to write. *)
Fixpoint write_frame (channels : list Float32Array) (i : nat) (chs : list nat)
    (view : DataView) (offset : nat) : option (DataView * nat) :=
  match chs with
  | [] => Some (view, offset)
  | ch :: rest =>
      let sample := clampSample (sampleAt channels ch i) in
      let sample := pcm16 sample in
      view' ← setInt16 view offset sample;
      write_frame channels i rest view' (offset + 2)
  end.

(** The outer loop, over the frames still to write. *)
Fixpoint write_frames (channels : list Float32Array) (numOfChan : nat)
    (rows : list nat) (view : DataView) (offset : nat) : option (DataView * nat) :=
  match rows with
  | [] => Some (view, offset)
  | i :: rest =>
      '(view', offset') ← write_frame channels i (seq 0 numOfChan) view offset;
      write_frames channels numOfChan rest view' offset'
  end.

Definition audioBufferToWav (buffer : AudioBuffer) : option (list Z) :=
  let numOfChan := numberOfChannels buffer in
  let len := (frames buffer * numOfChan * 2 + 44)%nat in
  let view : DataView := replicate len 0 in
  let channels := channelData buffer in
  let zlen := Z.of_nat len in
  let zchan := Z.of_nat numOfChan in
  view ← setString view 0 "RIFF";
  view ← setUint32 view 4 (zlen - 8);
  view ← setString view 8 "WAVE";
  view ← setString view 12 "fmt ";
  view ← setUint32 view 16 16;
  view ← setUint16 view 20 1;
  view ← setUint16 view 22 zchan;
  view ← setUint32 view 24 (sampleRate buffer);
  view ← setUint32 view 28 (sampleRate buffer * 2 * zchan);
  view ← setUint16 view 32 (zchan * 2);
  view ← setUint16 view 34 16;
  view ← setString view 36 "data";
  view ← setUint32 view 40 (zlen - 44);
  '(view, _) ← write_frames channels numOfChan (seq 0 (frames buffer)) view 44;
  Some view.

(** ** The layout of the encoder's output, as byte lists *)

Definition le16 (v : Z) : list Z :=
  let v := v mod 65536 in [v mod 256; (v / 256) mod 256].

Definition le32 (v : Z) : list Z :=
  let v := v mod 4294967296 in
  [v mod 256; (v / 256) mod 256; (v / 65536) mod 256; (v / 16777216) mod 256].

Definition asciiBytes (str : string) : list Z :=
  map (λ c, charCodeAt c mod 256) (list_ascii_of_string str).

(** The 44 bytes in front of the samples. *)
Definition wavHeader (numOfChan rate len : Z) : list Z :=
  asciiBytes "RIFF" ++ le32 (len - 8) ++ asciiBytes "WAVE" ++
  asciiBytes "fmt " ++ le32 16 ++ le16 1 ++ le16 numOfChan ++ le32 rate ++
  le32 (rate * 2 * numOfChan) ++ le16 (numOfChan * 2) ++ le16 16 ++
  asciiBytes "data" ++ le32 (len - 44).

(** One frame: the channels interleaved, two bytes a sample. *)
Definition pcmFrame (channels : list Float32Array) (i : nat) (chs : list nat) : list Z :=
  chs ≫= λ ch, le16 (pcm16 (clampSample (sampleAt channels ch i))).

Definition pcmData (b : AudioBuffer) : list Z :=
  seq 0 (frames b) ≫= λ i, pcmFrame (channelData b) i (seq 0 (numberOfChannels b)).

(** Little-endian readers, for stating what a field holds. *)
Definition u16At (bytes : list Z) (offset : nat) : Z :=
  match take 2 (drop offset bytes) with
  | [b0; b1] => b0 + 256 * b1
  | _ => -1
  end.

Definition u32At (bytes : list Z) (offset : nat) : Z :=
  match take 4 (drop offset bytes) with
  | [b0; b1; b2; b3] => b0 + 256 * b1 + 65536 * b2 + 16777216 * b3
  | _ => -1
  end.

(** A signed 16-bit reader. *)
Definition i16At (bytes : list Z) (offset : nat) : Z :=
  let u := u16At bytes offset in if decide (u < 32768) then u else u - 65536.

Definition tagAt (bytes : list Z) (offset : nat) : list Z := take 4 (drop offset bytes).

(** ** The engine's data *)

Inductive PlaybackState := stopped | loading | playing | paused.

Global Instance PlaybackState_eq_dec : EqDecision PlaybackState.
Proof. solve_decision. Defined.

(** The [Prompt] of [types.ts], with the fields [index.tsx] gives it. *)
Record Prompt := mkPrompt {
  promptId : string;
  text : string;
  weight : Qc;
  cc : Z;
  color : string;
}.

(** The payload the backend sends; the engine only hands it to the decoder. *)
Record AudioChunk := mkAudioChunk { data : string }.

(** What [connect] returns: a backend session, or the mock object of the
    fallback path, whose four methods do nothing. *)
Inductive LiveMusicSession := LiveSession (id : nat) | MockSession.

Inductive SessionCall :=
  | SessionPlay
  | SessionPause
  | SessionStop
  | SessionSetWeightedPrompts (weightedPrompts : list Prompt).

(** A local looping player of the fallback mode ([HTMLAudioElement]). *)
Record HTMLAudioElement := mkAudio {
  src : string;
  loop : bool;
  volume : Qc;
  audioPaused : bool;
  rewound : bool;                     (* [currentTime = 0] was the last seek *)
}.

(** The automation calls the engine makes on an [AudioParam].
    [HoldAtTime t] is [setValueAtTime(param.value, t)]: it pins whatever
    the parameter is worth when the call is made. *)
Inductive ParamEvent :=
  | HoldAtTime (time : Qc)
  | SetValueAtTime (value time : Qc)
  | LinearRampToValueAtTime (value endTime : Qc).

Record AudioParam := mkParam {
  value : Qc;                         (* assigned through [.value = ] *)
  automation : list ParamEvent;       (* in call order *)
}.

(** The parameters of the effect graph, by the field that owns them. *)
Inductive ParamName :=
  | OutputNodeGain | MasterVolumeGain | DryGain | DistortionWetGain
  | DelayTime | DelayFeedbackGain | DelayWetGain | ReverbWetGain.

Global Instance ParamName_eq_dec : EqDecision ParamName.
Proof. solve_decision. Defined.

(** The value a parameter rests at once its automation has run out: the
    target of the last event. The engine stamps every event with the
    current time plus a fixed delay, so call order is time order. *)
Definition settledValue (p : AudioParam) : option Qc :=
  match last (automation p) with
  | None => Some (value p)
  | Some (HoldAtTime _) => None
  | Some (SetValueAtTime v _) => Some v
  | Some (LinearRampToValueAtTime v _) => Some v
  end.

Inductive EngineEvent :=
  | PlaybackStateChanged (state : PlaybackState)
  | RecordingStateChanged (recording : bool)
  | FilteredPromptEvent (promptText : string)
  | ErrorEvent (detail : string).

(** Everything the engine does to the outside, in order. *)
Inductive Effect :=
  | Dispatched (ev : EngineEvent)
  | SourceStarted (buffer : AudioBuffer) (when : Qc)     (* [source.start(when)] *)
  | SessionCalled (id : nat) (call : SessionCall)
  | Downloaded (filename : string) (bytes : list Z).

(** What runs after a delivery of prompts completes. *)
Inductive AfterDelivery :=
  | NoCaller                          (* called by the host *)
  | PlayLiveTail                      (* [play()], live branch *)
  | PlayFallbackTail.                 (* [play()], fallback branch *)

(** The continuations of the engine's [async] methods, each at its [await]. *)
Inductive Suspended :=
  | PlayAwaitsSession (promise : nat)             (* [await this.getSession()] *)
  | PlayAwaitsPlayers                             (* [await Promise.all(playPromises)] *)
  | DeliveryAwaitsSession (k : AfterDelivery)     (* [await this.session.setWeightedPrompts] *)
  | ChunkAwaitsDecode (chunk : AudioChunk).       (* [await decodeAudioData(...)] *)

Record Engine := mkEngine {
  session : option LiveMusicSession;
  sessionPromise : option nat;
  isFallbackMode : bool;
  fallbackPlayers : list (string * HTMLAudioElement);
  filteredPrompts : gset string;
  nextStartTime : Qc;
  playbackState : PlaybackState;
  prompts : list (string * Prompt);
  isRecording : bool;
  recordedBuffers : list AudioBuffer;
  params : ParamName → AudioParam;
  isAudioGraphConnected : bool;
  (* the run-time around the object *)
  trace : list Effect;
  suspended : list Suspended;
  settled : gmap nat LiveMusicSession;            (* fulfilled connect promises *)
  nextPromise : nat;
  timers : nat;                                   (* armed pre-roll timers *)
}.

Definition with_session v (e : Engine) : Engine :=
  mkEngine v (sessionPromise e) (isFallbackMode e) (fallbackPlayers e)
    (filteredPrompts e) (nextStartTime e) (playbackState e) (prompts e)
    (isRecording e) (recordedBuffers e) (params e) (isAudioGraphConnected e)
    (trace e) (suspended e) (settled e) (nextPromise e) (timers e).
Definition with_sessionPromise v (e : Engine) : Engine :=
  mkEngine (session e) v (isFallbackMode e) (fallbackPlayers e)
    (filteredPrompts e) (nextStartTime e) (playbackState e) (prompts e)
    (isRecording e) (recordedBuffers e) (params e) (isAudioGraphConnected e)
    (trace e) (suspended e) (settled e) (nextPromise e) (timers e).
Definition with_isFallbackMode v (e : Engine) : Engine :=
  mkEngine (session e) (sessionPromise e) v (fallbackPlayers e)
    (filteredPrompts e) (nextStartTime e) (playbackState e) (prompts e)
    (isRecording e) (recordedBuffers e) (params e) (isAudioGraphConnected e)
    (trace e) (suspended e) (settled e) (nextPromise e) (timers e).
Definition with_fallbackPlayers v (e : Engine) : Engine :=
  mkEngine (session e) (sessionPromise e) (isFallbackMode e) v
    (filteredPrompts e) (nextStartTime e) (playbackState e) (prompts e)
    (isRecording e) (recordedBuffers e) (params e) (isAudioGraphConnected e)
    (trace e) (suspended e) (settled e) (nextPromise e) (timers e).
Definition with_filteredPrompts v (e : Engine) : Engine :=
  mkEngine (session e) (sessionPromise e) (isFallbackMode e) (fallbackPlayers e)
    v (nextStartTime e) (playbackState e) (prompts e)
    (isRecording e) (recordedBuffers e) (params e) (isAudioGraphConnected e)
    (trace e) (suspended e) (settled e) (nextPromise e) (timers e).
Definition with_nextStartTime v (e : Engine) : Engine :=
  mkEngine (session e) (sessionPromise e) (isFallbackMode e) (fallbackPlayers e)
    (filteredPrompts e) v (playbackState e) (prompts e)
    (isRecording e) (recordedBuffers e) (params e) (isAudioGraphConnected e)
    (trace e) (suspended e) (settled e) (nextPromise e) (timers e).
Definition with_playbackState v (e : Engine) : Engine :=
  mkEngine (session e) (sessionPromise e) (isFallbackMode e) (fallbackPlayers e)
    (filteredPrompts e) (nextStartTime e) v (prompts e)
    (isRecording e) (recordedBuffers e) (params e) (isAudioGraphConnected e)
    (trace e) (suspended e) (settled e) (nextPromise e) (timers e).
Definition with_prompts v (e : Engine) : Engine :=
  mkEngine (session e) (sessionPromise e) (isFallbackMode e) (fallbackPlayers e)
    (filteredPrompts e) (nextStartTime e) (playbackState e) v
    (isRecording e) (recordedBuffers e) (params e) (isAudioGraphConnected e)
    (trace e) (suspended e) (settled e) (nextPromise e) (timers e).
Definition with_isRecording v (e : Engine) : Engine :=
  mkEngine (session e) (sessionPromise e) (isFallbackMode e) (fallbackPlayers e)
    (filteredPrompts e) (nextStartTime e) (playbackState e) (prompts e)
    v (recordedBuffers e) (params e) (isAudioGraphConnected e)
    (trace e) (suspended e) (settled e) (nextPromise e) (timers e).
Definition with_recordedBuffers v (e : Engine) : Engine :=
  mkEngine (session e) (sessionPromise e) (isFallbackMode e) (fallbackPlayers e)
    (filteredPrompts e) (nextStartTime e) (playbackState e) (prompts e)
    (isRecording e) v (params e) (isAudioGraphConnected e)
    (trace e) (suspended e) (settled e) (nextPromise e) (timers e).
Definition with_params v (e : Engine) : Engine :=
  mkEngine (session e) (sessionPromise e) (isFallbackMode e) (fallbackPlayers e)
    (filteredPrompts e) (nextStartTime e) (playbackState e) (prompts e)
    (isRecording e) (recordedBuffers e) v (isAudioGraphConnected e)
    (trace e) (suspended e) (settled e) (nextPromise e) (timers e).
Definition with_isAudioGraphConnected v (e : Engine) : Engine :=
  mkEngine (session e) (sessionPromise e) (isFallbackMode e) (fallbackPlayers e)
    (filteredPrompts e) (nextStartTime e) (playbackState e) (prompts e)
    (isRecording e) (recordedBuffers e) (params e) v
    (trace e) (suspended e) (settled e) (nextPromise e) (timers e).
Definition with_trace v (e : Engine) : Engine :=
  mkEngine (session e) (sessionPromise e) (isFallbackMode e) (fallbackPlayers e)
    (filteredPrompts e) (nextStartTime e) (playbackState e) (prompts e)
    (isRecording e) (recordedBuffers e) (params e) (isAudioGraphConnected e)
    v (suspended e) (settled e) (nextPromise e) (timers e).
Definition with_suspended v (e : Engine) : Engine :=
  mkEngine (session e) (sessionPromise e) (isFallbackMode e) (fallbackPlayers e)
    (filteredPrompts e) (nextStartTime e) (playbackState e) (prompts e)
    (isRecording e) (recordedBuffers e) (params e) (isAudioGraphConnected e)
    (trace e) v (settled e) (nextPromise e) (timers e).
Definition with_settled v (e : Engine) : Engine :=
  mkEngine (session e) (sessionPromise e) (isFallbackMode e) (fallbackPlayers e)
    (filteredPrompts e) (nextStartTime e) (playbackState e) (prompts e)
    (isRecording e) (recordedBuffers e) (params e) (isAudioGraphConnected e)
    (trace e) (suspended e) v (nextPromise e) (timers e).
Definition with_nextPromise v (e : Engine) : Engine :=
  mkEngine (session e) (sessionPromise e) (isFallbackMode e) (fallbackPlayers e)
    (filteredPrompts e) (nextStartTime e) (playbackState e) (prompts e)
    (isRecording e) (recordedBuffers e) (params e) (isAudioGraphConnected e)
    (trace e) (suspended e) (settled e) v (timers e).
Definition with_timers v (e : Engine) : Engine :=
  mkEngine (session e) (sessionPromise e) (isFallbackMode e) (fallbackPlayers e)
    (filteredPrompts e) (nextStartTime e) (playbackState e) (prompts e)
    (isRecording e) (recordedBuffers e) (params e) (isAudioGraphConnected e)
    (trace e) (suspended e) (settled e) (nextPromise e) v.

(** ** The engine's methods *)

(** Map of prompt text to local audio file. *)
Definition FALLBACK_AUDIO_MAP : list (string * string) :=
  [ ("Bossa Nova", "assets/bossa_nova.wav");
    ("Chillwave", "assets/chillwave.wav");
    ("Drum and Bass", "assets/drum_and_bass.wav");
    ("Funk", "assets/funk.wav");
    ("Ambient", "assets/ambient.wav");
    ("Lo-fi", "assets/lo_fi.wav") ]%string.

Definition bufferTime : Qc := qz 2.

Definition emit (x : Effect) (e : Engine) : Engine :=
  with_trace (trace e ++ [x]) e.

Definition dispatchEvent (ev : EngineEvent) (e : Engine) : Engine :=
  emit (Dispatched ev) e.

Definition suspend (k : Suspended) (e : Engine) : Engine :=
  with_suspended (suspended e ++ [k]) e.

(** A method call on the session object; the mock's methods are empty. *)
Definition sessionCall (s : LiveMusicSession) (call : SessionCall) (e : Engine) : Engine :=
  match s with
  | LiveSession id => emit (SessionCalled id call) e
  | MockSession => e
  end.

(** [param.f(...)]: one more automation event on a parameter. *)
Definition schedule (name : ParamName) (ev : ParamEvent) (e : Engine) : Engine :=
  let p := params e name in
  with_params (<[name := mkParam (value p) (automation p ++ [ev])]> (params e)) e.

Definition initialParams (name : ParamName) : AudioParam :=
  match name with
  | MasterVolumeGain => mkParam (qz 1) []
  | DryGain => mkParam (qz 1) []
  | DistortionWetGain => mkParam 0%Qc []
  | DelayTime => mkParam (qfrac 4 10) []
  | DelayFeedbackGain => mkParam (qfrac 5 10) []
  | DelayWetGain => mkParam 0%Qc []
  | ReverbWetGain => mkParam 0%Qc []
  | OutputNodeGain => mkParam (qz 1) []          (* a fresh gain node *)
  end.

(** [new LiveMusicHelper(ai, model)] *)
Definition constructor : Engine :=
  {| session := None; sessionPromise := None; isFallbackMode := false;
     fallbackPlayers := []; filteredPrompts := ∅; nextStartTime := 0%Qc;
     playbackState := stopped; prompts := []; isRecording := false;
     recordedBuffers := []; params := initialParams;
     isAudioGraphConnected := false;
     trace := []; suspended := []; settled := ∅; nextPromise := 0%nat;
     timers := 0%nat |}.

(** The graph has one fixed wiring; what varies is whether it is wired. *)
Definition connectAudioGraph (e : Engine) : Engine :=
  with_isAudioGraphConnected true e.

(** [Map.prototype.set]: an existing key keeps its place. *)
Fixpoint mapSet {V} (k : string) (v : V) (m : list (string * V)) : list (string * V) :=
  match m with
  | [] => [(k, v)]
  | (k', v') :: rest =>
      if decide (k' = k) then (k, v) :: rest else (k', v') :: mapSet k v rest
  end.

Definition initializeFallbackPlayers (e : Engine) : Engine :=
  foldl (λ e '(promptText, audioUrl),
           let audio := mkAudio audioUrl true 0%Qc true false in
           with_fallbackPlayers (mapSet promptText audio (fallbackPlayers e)) e)
        e FALLBACK_AUDIO_MAP.

Definition setPlaybackState (state : PlaybackState) (e : Engine) : Engine :=
  dispatchEvent (PlaybackStateChanged state) (with_playbackState state e).

(** The getter [activePrompts]. *)
Definition activePrompts (e : Engine) : list Prompt :=
  filter (λ p, (text p ∉ filteredPrompts e) ∧ (weight p ≠ 0%Qc)) ((prompts e).*2).

(** [getSession()]: the promise in hand, or a new connect attempt. *)
Definition getSession (e : Engine) : nat * Engine :=
  match sessionPromise e with
  | Some p => (p, e)
  | None =>
      let p := nextPromise e in
      (p, with_nextPromise (S p) (with_sessionPromise (Some p) e))
  end.

(** [connect()] past its [await]: [outcome] is the backend's answer, a
    session or a failure. *)
Definition connect_settled (outcome : option nat) (e : Engine) : LiveMusicSession * Engine :=
  match outcome with
  | Some id => (LiveSession id, with_isFallbackMode false e)
  | None =>
      let e := with_isFallbackMode true e in
      let e := dispatchEvent (ErrorEvent
        "Real-time connection failed. Activating offline fallback mode with local audio samples.") e in
      (MockSession, initializeFallbackPlayers e)
  end.

Definition mapPlayers (f : HTMLAudioElement → HTMLAudioElement) (e : Engine) : Engine :=
  with_fallbackPlayers (prod_map id f <$> fallbackPlayers e) e.

Definition playerPlay (a : HTMLAudioElement) : HTMLAudioElement :=
  mkAudio (src a) (loop a) (volume a) false (rewound a).
Definition playerPause (a : HTMLAudioElement) : HTMLAudioElement :=
  mkAudio (src a) (loop a) (volume a) true (rewound a).
Definition playerRewind (a : HTMLAudioElement) : HTMLAudioElement :=
  mkAudio (src a) (loop a) (volume a) (audioPaused a) true.

(** [player.volume = v]: IndexSizeError outside [0, 1]. *)
Definition setVolume (a : HTMLAudioElement) (v : Qc) : option HTMLAudioElement :=
  if decide (0 ≤ v ∧ v ≤ qz 1)%Qc
  then Some (mkAudio (src a) (loop a) v (audioPaused a) (rewound a))
  else None.

Definition pause (now : Qc) (e : Engine) : Engine :=
  let e := if isFallbackMode e then mapPlayers playerPause e
           else match session e with
                | Some s => sessionCall s SessionPause e
                | None => e
                end in
  let e := setPlaybackState paused e in
  let e := schedule OutputNodeGain (HoldAtTime now) e in
  let e := schedule OutputNodeGain (LinearRampToValueAtTime 0 (now + qfrac 1 10)) e in
  with_nextStartTime 0%Qc e.

Definition stop (now : Qc) (e : Engine) : Engine :=
  let e := if isFallbackMode e then mapPlayers (playerRewind ∘ playerPause) e
           else match session e with
                | Some s => sessionCall s SessionStop e
                | None => e
                end in
  let e := setPlaybackState stopped e in
  let e := schedule OutputNodeGain (HoldAtTime now) e in
  let e := schedule OutputNodeGain (LinearRampToValueAtTime 0 (now + qfrac 1 10)) e in
  let e := with_nextStartTime 0%Qc e in
  let e := with_session None e in
  let e := with_sessionPromise None e in
  with_isFallbackMode false e.

(** The loop of the fallback branch of [setWeightedPrompts], over the
    players still to set; [false] when a volume assignment threw. *)
Fixpoint mixFallback (active : list Prompt) (entries : list (string * HTMLAudioElement))
    : list (string * HTMLAudioElement) * bool :=
  match entries with
  | [] => ([], true)
  | (key, player) :: rest =>
      let targetVolume :=
        match find (λ p, bool_decide (text p = key)) active with
        | Some prompt => Qcmin (weight prompt) (qz 1)
        | None => 0%Qc
        end in
      match setVolume player targetVolume with
      | None => ((key, player) :: rest, false)
      | Some player' =>
          let '(rest', ok) := mixFallback active rest in
          ((key, player') :: rest', ok)
      end
  end.

(** How a run of the body of [setWeightedPrompts] ends. *)
Inductive BodyOutcome := Returned | Threw | Awaiting.

(** The function wrapped by [throttle]: one delivery of prompts. *)
Definition deliverPrompts (now : Qc) (ps : list (string * Prompt)) (e : Engine)
    : Engine * BodyOutcome :=
  let e := with_prompts ps e in
  if isFallbackMode e then
    let '(players, ok) := mixFallback (activePrompts e) (fallbackPlayers e) in
    (with_fallbackPlayers players e, if ok then Returned else Threw)
  else if decide (length (activePrompts e) = 0%nat) then
    let e := dispatchEvent (ErrorEvent "There needs to be one active prompt to play.") e in
    (pause now e, Returned)
  else match session e with
       | None => (e, Returned)
       | Some MockSession => (e, Returned)
       | Some (LiveSession id) =>
           (emit (SessionCalled id (SessionSetWeightedPrompts (activePrompts e))) e,
            Awaiting)
       end.

(** The end of the live branch of [play()]: [this.session.play()] and the
    fade-in. With no session the call throws and [play()] rejects. *)
Definition play_liveTail (now : Qc) (e : Engine) : Engine :=
  match session e with
  | None => e
  | Some s =>
      let e := sessionCall s SessionPlay e in
      let e := schedule OutputNodeGain (SetValueAtTime 0 now) e in
      schedule OutputNodeGain (LinearRampToValueAtTime (qz 1) (now + qfrac 1 10)) e
  end.

Definition resume_afterDelivery (k : AfterDelivery) (now : Qc) (e : Engine) : Engine :=
  match k with
  | NoCaller => e
  | PlayLiveTail => play_liveTail now e
  | PlayFallbackTail => setPlaybackState playing e
  end.

(** Modelled from the spec: [throttle] of [utils/throttle.ts], which is not
    among the sources. It lets at most one call per interval through to the
    wrapped function; [gate] says whether this call is let through. A call
    that is held back returns without running the body. [k] is what the
    caller does once the returned promise settles. *)
Definition setWeightedPrompts (now : Qc) (gate : bool) (ps : list (string * Prompt))
    (k : AfterDelivery) (e : Engine) : Engine :=
  if gate then
    match deliverPrompts now ps e with
    | (e, Returned) => resume_afterDelivery k now e
    | (e, Threw) => e
    | (e, Awaiting) => suspend (DeliveryAwaitsSession k) e
    end
  else resume_afterDelivery k now e.

(** [play()] from [this.session = ...] on, [s] being what the awaited
    promise gave. *)
Definition play_afterSession (now : Qc) (gate : bool) (s : LiveMusicSession)
    (e : Engine) : Engine :=
  let e := with_session (Some s) e in
  if isFallbackMode e then
    let e := mapPlayers playerPlay e in
    suspend PlayAwaitsPlayers e
  else
    setWeightedPrompts now gate (prompts e) PlayLiveTail e.

(** [play()] after [await Promise.all(playPromises)]. *)
Definition play_afterPlayers (now : Qc) (gate : bool) (e : Engine) : Engine :=
  setWeightedPrompts now gate (prompts e) PlayFallbackTail e.

(** [play()] up to its first [await]; a promise that is already fulfilled
    lets it run on. *)
Definition play (now : Qc) (gate : bool) (e : Engine) : Engine :=
  let e := setPlaybackState loading e in
  let e := connectAudioGraph e in
  let '(p, e) := getSession e in
  match settled e !! p with
  | Some s => play_afterSession now gate s e
  | None => suspend (PlayAwaitsSession p) e
  end.

Definition playPause (now : Qc) (gate : bool) (e : Engine) : Engine :=
  match playbackState e with
  | playing => pause now e
  | paused | stopped => play now gate e
  | loading => stop now e
  end.

(** [processAudioChunks] up to its [await]. An empty array makes
    [audioChunks[0].data] throw, and the call rejects. *)
Definition processAudioChunks (audioChunks : list AudioChunk) (e : Engine) : Engine :=
  if decide (playbackState e = paused ∨ playbackState e = stopped) then e
  else match audioChunks !! 0%nat with
       | None => e
       | Some chunk => suspend (ChunkAwaitsDecode chunk) e
       end.

(** [processAudioChunks] once the decoder has produced [audioBuffer]. *)
Definition processAudioChunks_decoded (now : Qc) (audioBuffer : AudioBuffer)
    (e : Engine) : Engine :=
  let e := if isRecording e
           then with_recordedBuffers (recordedBuffers e ++ [audioBuffer]) e
           else e in
  let e := if decide (nextStartTime e = 0%Qc)
           then with_timers (S (timers e))
                  (with_nextStartTime (now + bufferTime)%Qc e)
           else e in
  if decide (nextStartTime e < now)%Qc then
    let e := setPlaybackState loading e in
    with_nextStartTime 0%Qc e
  else
    let e := emit (SourceStarted audioBuffer (nextStartTime e)) e in
    with_nextStartTime (nextStartTime e + duration audioBuffer)%Qc e.

Definition startRecording (e : Engine) : Engine :=
  if isFallbackMode e then
    dispatchEvent (ErrorEvent "Recording is not available in fallback mode.") e
  else if decide (playbackState e ≠ playing ∧ playbackState e ≠ loading) then
    dispatchEvent (ErrorEvent "Please start playback before recording.") e
  else
    let e := with_recordedBuffers [] e in
    let e := with_isRecording true e in
    dispatchEvent (RecordingStateChanged true) e.

Definition downloadBlob (bytes : list Z) (filename : string) (e : Engine) : Engine :=
  emit (Downloaded filename bytes) e.

Definition stopRecordingAndDownload (e : Engine) : Engine :=
  if negb (isRecording e) then e
  else
    let e := with_isRecording false e in
    let e := dispatchEvent (RecordingStateChanged false) e in
    if decide (length (recordedBuffers e) = 0%nat) then
      dispatchEvent (ErrorEvent "Nothing was recorded.") e
    else
      let e := match concatenateAudioBuffers (recordedBuffers e) ≫= audioBufferToWav with
               | Some wavBlob => downloadBlob wavBlob "lutox-oscillia-creation.wav" e
               | None => dispatchEvent (ErrorEvent "Could not process recorded audio.") e
               end in
      with_recordedBuffers [] e.

Definition rampTo (name : ParamName) (amount now : Qc) (e : Engine) : Engine :=
  schedule name (LinearRampToValueAtTime amount (now + qfrac 5 100)) e.

Definition setDistortion (amount now : Qc) (e : Engine) : Engine :=
  rampTo DistortionWetGain amount now e.

Definition setDelay (amount now : Qc) (e : Engine) : Engine :=
  let e := rampTo DelayWetGain amount now e in
  rampTo DelayFeedbackGain (amount * qfrac 7 10) now e.

Definition setReverb (amount now : Qc) (e : Engine) : Engine :=
  rampTo ReverbWetGain amount now e.

Definition setMasterVolume (amount now : Qc) (e : Engine) : Engine :=
  rampTo MasterVolumeGain amount now e.

(** ** The event loop *)

(** What can happen to the engine: a call from the host, a callback of a
    session, or the settling of something an [async] method awaits. *)
Inductive Input :=
  | CallPlay
  | CallPause
  | CallStop
  | CallPlayPause
  | CallSetWeightedPrompts (ps : list (string * Prompt))
  | CallStartRecording
  | CallStopRecordingAndDownload
  | CallSetDistortion (amount : Qc)
  | CallSetDelay (amount : Qc)
  | CallSetReverb (amount : Qc)
  | CallSetMasterVolume (amount : Qc)
  | ConnectSettled (promise : nat) (outcome : option nat)
  | PlayersStarted
  | DeliverySettled (failure : option string)
  | OnAudioChunk (from : nat) (chunks : list AudioChunk)
  | DecodeSettled
  | OnFilteredPrompt (promptText : string)
  | OnError (message : string)
  | TimerFired.

(** One turn of the loop: the input, the audio clock when it runs and the
    state of the throttle. *)
Record Turn := mkTurn { now : Qc; gate : bool; input : Input }.

(** The first suspended continuation that [pick] accepts, and the others. *)
Fixpoint takeFirst {A} (pick : Suspended → option A) (l : list Suspended)
    : option (A * list Suspended) :=
  match l with
  | [] => None
  | k :: rest =>
      match pick k with
      | Some a => Some (a, rest)
      | None => prod_map id (k ::.) <$> takeFirst pick rest
      end
  end.

Definition awaitsSession (p : nat) (k : Suspended) : bool :=
  match k with PlayAwaitsSession q => bool_decide (q = p) | _ => false end.

Section Engine.

(** [decodeAudioData(decode(chunk.data), context, 48000, 2)] of
    [utils/audio.ts], which the engine calls and does not define: the buffer
    a payload decodes to, or a failure. *)
Variable decodeAudioData : AudioChunk → option AudioBuffer.

Definition step (t : Turn) (e : Engine) : Engine :=
  match input t with
  | CallPlay => play (now t) (gate t) e
  | CallPause => pause (now t) e
  | CallStop => stop (now t) e
  | CallPlayPause => playPause (now t) (gate t) e
  | CallSetWeightedPrompts ps => setWeightedPrompts (now t) (gate t) ps NoCaller e
  | CallStartRecording => startRecording e
  | CallStopRecordingAndDownload => stopRecordingAndDownload e
  | CallSetDistortion amount => setDistortion amount (now t) e
  | CallSetDelay amount => setDelay amount (now t) e
  | CallSetReverb amount => setReverb amount (now t) e
  | CallSetMasterVolume amount => setMasterVolume amount (now t) e
  | ConnectSettled p outcome =>
      if decide (p < nextPromise e ∧ settled e !! p = None)%nat then
        let '(s, e) := connect_settled outcome e in
        let e := with_settled (<[p := s]> (settled e)) e in
        let waiting := filter (λ k, awaitsSession p k = true) (suspended e) in
        let e := with_suspended
                   (filter (λ k, awaitsSession p k ≠ true) (suspended e)) e in
        foldl (λ e _, play_afterSession (now t) (gate t) s e) e waiting
      else e
  | PlayersStarted =>
      match takeFirst (λ k, match k with PlayAwaitsPlayers => Some () | _ => None end)
                      (suspended e) with
      | Some (_, rest) => play_afterPlayers (now t) (gate t) (with_suspended rest e)
      | None => e
      end
  | DeliverySettled failure =>
      match takeFirst (λ k, match k with DeliveryAwaitsSession k => Some k | _ => None end)
                      (suspended e) with
      | Some (k, rest) =>
          let e := with_suspended rest e in
          let e := match failure with
                   | Some message => pause (now t) (dispatchEvent (ErrorEvent message) e)
                   | None => e
                   end in
          resume_afterDelivery k (now t) e
      | None => e
      end
  | OnAudioChunk _ chunks => processAudioChunks chunks e
  | DecodeSettled =>
      match takeFirst (λ k, match k with ChunkAwaitsDecode c => Some c | _ => None end)
                      (suspended e) with
      | Some (chunk, rest) =>
          let e := with_suspended rest e in
          match decodeAudioData chunk with
          | Some audioBuffer => processAudioChunks_decoded (now t) audioBuffer e
          | None => e
          end
      | None => e
      end
  | OnFilteredPrompt promptText =>
      let e := dispatchEvent (FilteredPromptEvent promptText) e in
      with_filteredPrompts (filteredPrompts e ∪ {[promptText]}) e
  | OnError message =>
      stop (now t) (dispatchEvent (ErrorEvent message) e)
  | TimerFired =>
      match timers e with
      | O => e
      | S n => setPlaybackState playing (with_timers n e)
      end
  end.

Definition run (turns : list Turn) (e : Engine) : Engine :=
  foldl (λ e t, step t e) e turns.

End Engine.

(** ** Readings of the trace *)

(** The buffers handed to [source.start], with their start times. *)
Definition scheduled (e : Engine) : list (AudioBuffer * Qc) :=
  omap (λ x, match x with SourceStarted b w => Some (b, w) | _ => None end) (trace e).

Definition errors (e : Engine) : list string :=
  omap (λ x, match x with Dispatched (ErrorEvent m) => Some m | _ => None end) (trace e).

Definition downloads (e : Engine) : list (list Z) :=
  omap (λ x, match x with Downloaded _ bytes => Some bytes | _ => None end) (trace e).

Definition sessionCalls (e : Engine) : list (nat * SessionCall) :=
  omap (λ x, match x with SessionCalled id c => Some (id, c) | _ => None end) (trace e).

(** * Auxiliary definitions

    Predicates of the statements below and the data of the concrete runs. *)

(** Channel [ch] of a list of buffers, end to end. *)
Definition channelOf (ch : nat) (bs : list AudioBuffer) : list Qc :=
  bs ≫= λ b, default [] (channelData b !! ch).

(** Buffers of [c] channels, every channel as long as the buffer. *)
Definition uniform (c : nat) (bs : list AudioBuffer) : Prop :=
  Forall (λ b, numberOfChannels b = c ∧
               Forall (λ chd : list Qc, length chd = frames b) (channelData b)) bs.

(** The values of the header fit their fields: the lengths and the two
    rates 32 bits, the block align 16 bits. *)
Definition fitsHeader (b : AudioBuffer) : Prop :=
  let c := Z.of_nat (numberOfChannels b) in
  let f := Z.of_nat (frames b) in
  let r := sampleRate b in
  f * c * 2 + 44 < 4294967296 ∧ 0 ≤ r < 4294967296 ∧
  r * 2 * c < 4294967296 ∧ c * 2 < 65536.

(** The RIFF/WAVE layout of [wav] for the buffer [b]: the 44 bytes of
    header, field by field, then the samples. *)
Definition riffLayout (b : AudioBuffer) (wav : list Z) : Prop :=
  let c := Z.of_nat (numberOfChannels b) in
  let f := Z.of_nat (frames b) in
  let r := sampleRate b in
  Z.of_nat (length wav) = f * c * 2 + 44 ∧
  Forall (λ x, 0 ≤ x < 256) wav ∧
  tagAt wav 0 = asciiBytes "RIFF" ∧
  u32At wav 4 = Z.of_nat (length wav) - 8 ∧
  tagAt wav 8 = asciiBytes "WAVE" ∧
  tagAt wav 12 = asciiBytes "fmt " ∧
  u32At wav 16 = 16 ∧
  u16At wav 20 = 1 ∧
  u16At wav 22 = c ∧
  u32At wav 24 = r ∧
  u32At wav 28 = r * 2 * c ∧
  u16At wav 32 = c * 2 ∧
  u16At wav 34 = 16 ∧
  tagAt wav 36 = asciiBytes "data" ∧
  u32At wav 40 = f * c * 2 ∧
  drop 44 wav = pcmData b ∧
  Z.of_nat (length (drop 44 wav)) = f * c * 2.

(** A buffer of one second of 48 kHz stereo. *)
Definition oneSecondStereo (b : AudioBuffer) : Prop :=
  sampleRate b = 48000 ∧ frames b = Z.to_nat 48000 ∧ numberOfChannels b = 2%nat.

(** The spec's ActivePrompt: weight above 0 and text not in the filtered
    set. *)
Definition ActivePrompt (filtered : gset string) (p : Prompt) : Prop :=
  (0 < weight p)%Qc ∧ text p ∉ filtered.

(** The weight domain of the data model. *)
Definition weightsInDomain (ps : list (string * Prompt)) : Prop :=
  ∀ p, p ∈ ps.*2 → (0 ≤ weight p)%Qc ∧ (weight p ≤ qz 2)%Qc.

(** The volume the fallback branch computes for the player of [key]. *)
Definition targetVolumeOf (active : list Prompt) (key : string) : Qc :=
  match find (λ p, bool_decide (text p = key)) active with
  | Some prompt => Qcmin (weight prompt) (qz 1)
  | None => 0%Qc
  end.



(** Two frames of stereo silence at 48 kHz. *)
Definition twoFrames : AudioBuffer :=
  mkAudioBuffer 48000 2 [[0%Qc; 0%Qc]; [0%Qc; 0%Qc]].

(** One second of stereo silence at 48 kHz. *)
Definition oneSecond : AudioBuffer :=
  mkAudioBuffer 48000 (Z.to_nat 48000)
    [replicate (Z.to_nat 48000) 0%Qc; replicate (Z.to_nat 48000) 0%Qc].

(** One frame, one channel, at [rate]. *)
Definition monoFrame (rate : Z) (x : Qc) : AudioBuffer :=
  mkAudioBuffer rate 1 [[x]].

(** A decoder that turns every payload into [twoFrames]. *)
Definition silentDecoder (c : AudioChunk) : option AudioBuffer := Some twoFrames.

Definition funk : Prompt := mkPrompt "prompt-5" "Funk" (qz 1) 5 "#2af6de".

Definition muted : Prompt := mkPrompt "prompt-5" "Funk" 0%Qc 5 "#2af6de".

(** A turn at [n] seconds of the audio clock, the throttle open. *)
Definition at_ (n : Z) (i : Input) : Turn := mkTurn (qz n) true i.

(** [play()] has been called on a new engine with [ps] as prompts, and its
    connect attempt is in flight. *)
Definition connecting (ps : list (string * Prompt)) : Engine :=
  run silentDecoder
    [at_ 0 (CallSetWeightedPrompts ps); at_ 1 CallPlay] constructor.

(** The engine in fallback mode: [play()] on a new engine, whose connect
    attempt has failed. *)
Definition fellBack : Engine :=
  run silentDecoder [at_ 1 CallPlay; at_ 2 (ConnectSettled 0 None)] constructor.

(** A playing engine that is recording [bufs] and whose scheduler horizon
    is at second 1. *)
Definition recording (bufs : list AudioBuffer) : Engine :=
  with_recordedBuffers bufs
    (with_isRecording true
       (with_nextStartTime (qz 1) (with_playbackState playing constructor))).

(** ** The undo history ([utils/HistoryManager.ts]) *)

Module HistoryManager.

Record t (T : Type) := mk {
  historyStack : list T;
  currentIndex : Z;
}.
Arguments mk {T}.
Arguments historyStack {T}.
Arguments currentIndex {T}.

Definition maxSize : Z := 100.

(** [new HistoryManager()] *)
Definition empty {T} : t T := mk [] (-1).

(** [array.slice(0, end)]: a negative [end] counts from the end. *)
Definition slice0 {T} (l : list T) (end_ : Z) : list T :=
  if decide (end_ < 0)
  then take (Z.to_nat (Z.max (Z.of_nat (length l) + end_) 0)) l
  else take (Z.to_nat end_) l.

Definition canUndo {T} (h : t T) : bool := bool_decide (currentIndex h > 0).

Definition canRedo {T} (h : t T) : bool :=
  bool_decide (currentIndex h < Z.of_nat (length (historyStack h)) - 1).

Definition addState {T} (state : T) (h : t T) : t T :=
  let stack :=
    if decide (currentIndex h < Z.of_nat (length (historyStack h)) - 1)
    then slice0 (historyStack h) (currentIndex h + 1)
    else historyStack h in
  let stack := stack ++ [state] in
  let stack := if decide (Z.of_nat (length stack) > maxSize)
               then drop 1 stack          (* [shift()] *)
               else stack in
  mk stack (Z.of_nat (length stack) - 1).

(** [historyStack[i]]: [undefined] outside the array, which the callers
    treat like [null]. *)
Definition at_index {T} (l : list T) (i : Z) : option T :=
  if decide (i < 0) then None else l !! Z.to_nat i.

Definition undo {T} (h : t T) : option T * t T :=
  if canUndo h then
    let h := mk (historyStack h) (currentIndex h - 1) in
    (at_index (historyStack h) (currentIndex h), h)
  else (None, h).

Definition redo {T} (h : t T) : option T * t T :=
  if canRedo h then
    let h := mk (historyStack h) (currentIndex h + 1) in
    (at_index (historyStack h) (currentIndex h), h)
  else (None, h).

(** The state the history points at. *)
Definition current {T} (h : t T) : option T :=
  at_index (historyStack h) (currentIndex h).

(** What the manager can be asked to do. *)
Inductive Op (T : Type) := Add (state : T) | Undo_ | Redo_.
Arguments Add {T}.
Arguments Undo_ {T}.
Arguments Redo_ {T}.

Definition apply {T} (h : t T) (op : Op T) : t T :=
  match op with
  | Add state => addState state h
  | Undo_ => (undo h).2
  | Redo_ => (redo h).2
  end.

(** The index is -1 on an empty history and inside the stack otherwise;
    the stack holds at most [maxSize] states. *)
Definition wf {T} (h : t T) : Prop :=
  (historyStack h = [] ∧ currentIndex h = -1) ∨
  (0 ≤ currentIndex h < Z.of_nat (length (historyStack h)) ∧
   Z.of_nat (length (historyStack h)) ≤ maxSize).

End HistoryManager.

(** ** [debounce] ([utils/debounce.ts]) *)

Module Debounce.

(** A debounced function and the window timers it has set. [timers] holds
    the pending ones: handle, due time, arguments of the call that set it.
    [invoked] lists the calls made to the wrapped function, with the time
    of each. *)
Record t (A : Type) := mk {
  timeoutId : option nat;             (* [undefined] before the first call *)
  timers : list (nat * (Z * A));
  nextHandle : nat;
  invoked : list (Z * A);
}.
Arguments mk {A}.
Arguments timeoutId {A}.
Arguments timers {A}.
Arguments nextHandle {A}.
Arguments invoked {A}.

(** [debounce(func, delay)] *)
Definition create {A} : t A := mk None [] 1 [].

(** [clearTimeout(id)]: nothing happens on [undefined] or on a handle that
    is not pending. *)
Definition clearTimeout {A} (id : option nat) (l : list (nat * (Z * A)))
    : list (nat * (Z * A)) :=
  match id with
  | None => l
  | Some i => filter (λ x, x.1 ≠ i) l
  end.

(** The returned function, called at time [now] with [args]. *)
Definition call {A} (delay now : Z) (args : A) (d : t A) : t A :=
  let pending := clearTimeout (timeoutId d) (timers d) in
  let id := nextHandle d in
  mk (Some id) (pending ++ [(id, (now + delay, args))]) (S id) (invoked d).

(** The arguments the callback of timer [id] runs with at time [now], if
    that timer is pending and its delay has passed. *)
Definition due {A} (now : Z) (id : nat) (d : t A) : option A :=
  match list_find (λ x, x.1 = id) (timers d) with
  | Some (_, (_, (time, args))) => if decide (time ≤ now) then Some args else None
  | None => None
  end.

(** The window runs the timer [id] at time [now]: the callback calls the
    wrapped function, and the timer is gone. *)
Definition fire {A} (now : Z) (id : nat) (d : t A) : t A :=
  match due now id d with
  | Some args =>
      mk (timeoutId d) (filter (λ x, x.1 ≠ id) (timers d)) (nextHandle d)
         (invoked d ++ [(now, args)])
  | None => d
  end.

Inductive Event (A : Type) := Call (now : Z) (args : A) | Fire (now : Z) (id : nat).
Arguments Call {A}.
Arguments Fire {A}.

Definition step {A} (delay : Z) (d : t A) (ev : Event A) : t A :=
  match ev with
  | Call now args => call delay now args d
  | Fire now id => fire now id d
  end.

Definition run {A} (delay : Z) (evs : list (Event A)) (d : t A) : t A :=
  foldl (step delay) d evs.

(** The calls among [evs], and the last of them. *)
Definition callsOf {A} (evs : list (Event A)) : list (Z * A) :=
  omap (λ ev, match ev with Call now args => Some (now, args) | Fire _ _ => None end) evs.

Definition lastCall {A} (evs : list (Event A)) : option (Z * A) := last (callsOf evs).

(** At most one timer is pending: the one of the last call, due [delay]
    after it and carrying its arguments. *)
Definition settled {A} (delay : Z) (evs : list (Event A)) (d : t A) : Prop :=
  (nextHandle d > 0)%nat ∧
  (timers d = [] ∨
   ∃ id now args,
     timers d = [(id, (now + delay, args))] ∧ timeoutId d = Some id ∧
     (id < nextHandle d)%nat ∧ lastCall evs = Some (now, args)) ∧
  (∀ id, timeoutId d = Some id → (id < nextHandle d)%nat).

End Debounce.

(** ** The undo history of the page ([index.tsx]) *)

Module Page.

(** [Map<string, Prompt>], as the engine has it. *)
Abbreviation Prompts := (list (string * Prompt)).

(** The two objects of [index.tsx] that make the undo history: the
    debounced [saveStateToHistory] and [historyManager]. *)
Record t := mk {
  saveStateToHistory : Debounce.t Prompts;
  historyManager : HistoryManager.t Prompts;
}.

(** [debounce(..., 500)] *)
Definition saveDelay : Z := 500.

(** [main()]: [historyManager.addState(new Map(initialPrompts))]. *)
Definition main (initialPrompts : Prompts) : t :=
  mk Debounce.create (HistoryManager.addState initialPrompts HistoryManager.empty).

(** What the page's history sees happen. The listeners also hand the
    prompts to the component and to the engine; that part is the engine's
    [setWeightedPrompts]. *)
Inductive Event :=
  | PromptsChanged (now : Z) (prompts : Prompts)   (* ['prompts-changed'] *)
  | SaveTimer (now : Z) (id : nat)                 (* a timer of the debounce runs *)
  | UndoRequested
  | RedoRequested
  | PresetLoaded (prompts : Prompts).              (* ['load-preset-requested'], found *)

Definition step (s : t) (ev : Event) : t :=
  match ev with
  | PromptsChanged now prompts =>
      mk (Debounce.call saveDelay now prompts (saveStateToHistory s)) (historyManager s)
  | SaveTimer now id =>
      match Debounce.due now id (saveStateToHistory s) with
      | Some prompts =>
          mk (Debounce.fire now id (saveStateToHistory s))
             (HistoryManager.addState prompts (historyManager s))
      | None => s
      end
  | UndoRequested => mk (saveStateToHistory s) (HistoryManager.undo (historyManager s)).2
  | RedoRequested => mk (saveStateToHistory s) (HistoryManager.redo (historyManager s)).2
  | PresetLoaded prompts =>
      mk (saveStateToHistory s) (HistoryManager.addState prompts (historyManager s))
  end.

Definition run (evs : list Event) (s : t) : t := foldl step s evs.

(** The listener that stands for an operation on the history. *)
Definition ofOp (op : HistoryManager.Op Prompts) : Event :=
  match op with
  | HistoryManager.Add prompts => PresetLoaded prompts
  | HistoryManager.Undo_ => UndoRequested
  | HistoryManager.Redo_ => RedoRequested
  end.

(** The part of an event that reaches the debounced function. *)
Definition toDebounce (ev : Event) : list (Debounce.Event Prompts) :=
  match ev with
  | PromptsChanged now prompts => [Debounce.Call now prompts]
  | SaveTimer now id => [Debounce.Fire now id]
  | _ => []
  end.

End Page.

(** ** The level meter ([utils/AudioAnalyser.ts]) *)

Module AudioAnalyser.

(** The analyser and the animation frames it has requested. [requests]
    holds the handles of the pending requests, whose callback is [loop];
    the window numbers its requests from 1. [updates] lists the levels of
    the ['data-updated'] events dispatched, [None] standing for [NaN]. *)
Record t := mk {
  rafId : option nat;                 (* [null] is [None] *)
  requests : list nat;
  nextHandle : nat;
  updates : list (option Qc);
}.

(** [new AudioAnalyser(context)] *)
Definition create : t := mk None [] 1 [].

(** [const avg = freqData.reduce((a, b) => a + b, 0) / freqData.length;
     const level = avg / 0xff]: 0/0 on an empty array. *)
Definition level (freqData : list Z) : option Qc :=
  let sum := foldl (λ a b, a + b) 0 freqData in
  if decide (length freqData = 0%nat) then None
  else Some (qz sum / qz (Z.of_nat (length freqData)) / qz 255)%Qc.

(** [this.rafId = requestAnimationFrame(this.loop)] *)
Definition request (a : t) : t :=
  mk (Some (nextHandle a)) (requests a ++ [nextHandle a]) (S (nextHandle a)) (updates a).

(** [loop], with what [getByteFrequencyData] has written to [freqData]. *)
Definition loop (freqData : list Z) (a : t) : t :=
  let a := mk (rafId a) (requests a) (nextHandle a) (updates a ++ [level freqData]) in
  request a.

Definition start (a : t) : t :=
  match rafId a with
  | None => request a
  | Some _ => a
  end.

(** [if (this.rafId)]: neither [null] nor 0. *)
Definition stop (a : t) : t :=
  match rafId a with
  | Some id =>
      if decide (id = 0%nat) then a
      else mk None (filter (λ h, h ≠ id) (requests a)) (nextHandle a) (updates a)
  | None => a
  end.

(** The window runs the pending request [id]. *)
Definition frame (id : nat) (freqData : list Z) (a : t) : t :=
  if decide (id ∈ requests a)
  then loop freqData
         (mk (rafId a) (filter (λ h, h ≠ id) (requests a)) (nextHandle a) (updates a))
  else a.

(** The listener of ['playback-state-changed'] in [index.tsx]:
    [playbackState === 'playing' ? audioAnalyser.start() : audioAnalyser.stop()]. *)
Definition onPlaybackStateChanged (state : PlaybackState) (a : t) : t :=
  if decide (state = playing) then start a else stop a.

Inductive Event :=
  | Start
  | Stop
  | Frame (id : nat) (freqData : list Z)
  | StateChanged (state : PlaybackState).

Definition step (a : t) (ev : Event) : t :=
  match ev with
  | Start => start a
  | Stop => stop a
  | Frame id freqData => frame id freqData a
  | StateChanged state => onPlaybackStateChanged state a
  end.

Definition run (evs : list Event) (a : t) : t := foldl step a evs.

(** The playback states announced among [evs], in order. *)
Definition statesOf (evs : list Event) : list PlaybackState :=
  omap (λ ev, match ev with StateChanged s => Some s | _ => None end) evs.

(** Idle, or one request pending, the one [rafId] names. *)
Definition single (a : t) : Prop :=
  (0 < nextHandle a)%nat ∧
  ((rafId a = None ∧ requests a = []) ∨
   ∃ id, rafId a = Some id ∧ requests a = [id] ∧ (0 < id < nextHandle a)%nat).

End AudioAnalyser.

(** ** What a method may do to the engine *)

(** The prompt lists handed to [session.setWeightedPrompts], in order. *)
Definition sentPrompts (e : Engine) : list (list Prompt) :=
  omap (λ x, match x with
             | SessionCalled _ (SessionSetWeightedPrompts ps) => Some ps
             | _ => None
             end) (trace e).

(** An effect the engine may have at time [now], [filtered] being the texts
    the backend has refused: the prompts it sends are active ones, at least
    one, and a source is never started in the past. *)
Definition okEffect (filtered : gset string) (now : Qc) (x : Effect) : Prop :=
  match x with
  | SessionCalled _ (SessionSetWeightedPrompts ps) =>
      ps ≠ [] ∧ Forall (λ p, weight p ≠ 0%Qc ∧ text p ∉ filtered) ps
  | SourceStarted _ when => (now ≤ when)%Qc
  | _ => True
  end.

(** [e'] comes from [e] by a piece of the engine's code run at time [now]
    that is neither an effect setter nor [onFilteredPrompt]: the filtered
    texts and the effect parameters are as before, and the trace has grown
    by effects that are in order. *)
Definition extends (now : Qc) (e e' : Engine) : Prop :=
  filteredPrompts e' = filteredPrompts e ∧
  (∀ name, name ≠ OutputNodeGain → params e' name = params e name) ∧
  ∃ new, trace e' = trace e ++ new ∧ Forall (okEffect (filteredPrompts e) now) new.

(** What a call of an effect setter aims each parameter at. *)
Definition knobTargets (i : Input) : list (ParamName * Qc) :=
  match i with
  | CallSetDistortion amount => [(DistortionWetGain, amount)]
  | CallSetDelay amount =>
      [(DelayWetGain, amount); (DelayFeedbackGain, (amount * qfrac 7 10)%Qc)]
  | CallSetReverb amount => [(ReverbWetGain, amount)]
  | CallSetMasterVolume amount => [(MasterVolumeGain, amount)]
  | _ => []
  end.

(** The input is a call of an effect setter. *)
Definition isKnob (i : Input) : Prop := knobTargets i ≠ [].

(** The values the setter calls among [turns] aim [name] at, in order. *)
Definition targetsOf (name : ParamName) (turns : list Turn) : list Qc :=
  omap (λ t, snd <$> find (λ nv, bool_decide (nv.1 = name)) (knobTargets (input t))) turns.

(** ** Streams of decoded buffers *)

(** Decoded buffers reach the scheduler one after the other, each at its
    time: [processAudioChunks] past its [await], once for each. *)
Definition feed (arrivals : list (Qc * AudioBuffer)) (e : Engine) : Engine :=
  foldl (λ e a, processAudioChunks_decoded a.1 a.2 e) e arrivals.



(** ** Connections *)

(** What the engine knows of its connect attempts: the promise in hand,
    the next one to make, and the attempts that have settled. *)
Definition connections (e : Engine) : option nat * nat * gmap nat LiveMusicSession :=
  (sessionPromise e, nextPromise e, settled e).

(** [e'] shows the same as [e] through [view]. *)
Definition keeps {A} (view : Engine → A) (e e' : Engine) : Prop := view e' = view e.

(** ** The players of the fallback mode *)

(** [p] is a player for the entry [(text, url)] of [FALLBACK_AUDIO_MAP]:
    filed under the text, looping over the file, at a volume an audio
    element accepts. *)
Definition playerFor (entry : string * string) (p : string * HTMLAudioElement) : Prop :=
  p.1 = entry.1 ∧ src p.2 = entry.2 ∧ loop p.2 = true ∧
  (0 ≤ volume p.2)%Qc ∧ (volume p.2 ≤ qz 1)%Qc.

(** No player yet, or one for each entry of the map, in its order. *)
Definition playersOk (e : Engine) : Prop :=
  fallbackPlayers e = [] ∨ Forall2 playerFor FALLBACK_AUDIO_MAP (fallbackPlayers e).

(** [e'] has its players in order if [e] has. *)
Definition okTo (e e' : Engine) : Prop := playersOk e → playersOk e'.

(** ** The effect knob ([components/FxKnob.ts]) *)

Module FxKnob.

Record t := mk {
  value : Qc;
  dragStartPos : Qc;
  dragStartValue : Qc;
}.

(** [Math.max(0, Math.min(1, v))] *)
Definition clamp (v : Qc) : Qc := Qcmax 0%Qc (Qcmin (qz 1) v).

Definition handlePointerDown (clientY : Qc) (k : t) : t :=
  mk (value k) clientY (value k).

(** The knob after the handler; it then dispatches ['input']. *)
Definition handlePointerMove (clientY : Qc) (k : t) : t :=
  let delta := (dragStartPos k - clientY)%Qc in
  let v := (dragStartValue k + delta * qfrac 5 1000)%Qc in
  mk (clamp v) (dragStartPos k) (dragStartValue k).

Definition handleWheel (deltaY : Qc) (k : t) : t :=
  let delta := deltaY in
  let v := (value k + delta * qfrac (-1) 1000)%Qc in
  mk (clamp v) (dragStartPos k) (dragStartValue k).

(** The gestures that make the knob dispatch ['input']. *)
Inductive Gesture := PointerMove (clientY : Qc) | Wheel (deltaY : Qc).

Definition handle (g : Gesture) (k : t) : t :=
  match g with
  | PointerMove clientY => handlePointerMove clientY k
  | Wheel deltaY => handleWheel deltaY k
  end.

End FxKnob.

(** ** A prompt's controller ([components/PromptController.ts]) *)

Module PromptController.

(** The properties of the component the handler reads and writes; the five
    of a [Prompt] are kept as the prompt [dispatchPromptChange] sends. *)
Record t := mk {
  prompt : Prompt;
  channel : Z;
  isInLearnMode : bool;
}.

Definition with_cc (v : Z) (p : Prompt) : Prompt :=
  mkPrompt (promptId p) (text p) (weight p) v (color p).

Definition with_weight (v : Qc) (p : Prompt) : Prompt :=
  mkPrompt (promptId p) (text p) v (cc p) (color p).

(** The listener of ['cc-message']: the controller after it, and the
    prompt of the ['prompt-changed'] event when one is dispatched. *)
Definition ccMessage (channel' cc' : Z) (value : Qc) (c : t) : t * option Prompt :=
  if isInLearnMode c then
    let c := mk (with_cc cc' (prompt c)) channel' (isInLearnMode c) in
    (c, Some (prompt c))
  else if decide (cc' = cc (prompt c)) then
    let c := mk (with_weight (value / qz 127 * qz 2)%Qc (prompt c)) (channel c)
                (isInLearnMode c) in
    (c, Some (prompt c))
  else (c, None).

(** [handlePromptChanged] of [PromptDjMidi]: the map of the
    ['prompts-changed'] event it dispatches. *)
Definition handlePromptChanged (newPrompt : Prompt) (prompts : list (string * Prompt))
    : list (string * Prompt) :=
  mapSet (promptId newPrompt) newPrompt prompts.

End PromptController.

(** ** Suggestions ([index.tsx]) *)

(** The loop of the ['suggestion-selected'] listener: the first prompt of
    the map with weight 0. *)
Definition emptyPrompt (prompts : list (string * Prompt)) : option Prompt :=
  find (λ p, bool_decide (weight p = 0%Qc)) prompts.*2.

Definition with_text (v : string) (p : Prompt) : Prompt :=
  mkPrompt (promptId p) v (weight p) (cc p) (color p).

(** The listener: the map of the ['prompts-changed'] event it dispatches,
    or the toast it shows. *)
Definition suggestionSelected (suggestion : string) (prompts : list (string * Prompt))
    : list (string * Prompt) + string :=
  match emptyPrompt prompts with
  | Some emptyPrompt =>
      let updatedPrompt := with_text suggestion emptyPrompt in
      inl (mapSet (promptId updatedPrompt) updatedPrompt prompts)
  | None => inr "No empty prompt slots. Please clear a prompt to add a new one."%string
  end.

(** The map files every prompt under its own id, once. *)
Definition keyedById (prompts : list (string * Prompt)) : Prop :=
  Forall (λ kp, kp.1 = promptId kp.2) prompts ∧ NoDup prompts.*1.

(** ** Presets ([utils/PresetManager.ts]) *)

(** [Map.prototype.get] and [Map.prototype.delete] on a map kept as the
    list of its entries, in insertion order. *)
Definition mapGet {V} (k : string) (m : list (string * V)) : option V :=
  snd <$> find (λ kv, bool_decide (kv.1 = k)) m.

Definition mapDelete {V} (k : string) (m : list (string * V)) : list (string * V) :=
  filter (λ kv, kv.1 ≠ k) m.

(** [new Map(entries)]: a key that comes again takes the later value and
    keeps its place. *)
Definition mapOf {V} (entries : list (string * V)) : list (string * V) :=
  foldl (λ m kv, mapSet kv.1 kv.2 m) [] entries.

Module PresetManager.

(** [Map<string, Prompt[]>] *)
Abbreviation Presets := (list (string * list Prompt)).

(** What [localStorage] holds under the manager's key: nothing; the JSON of
    an array of name and prompts pairs, which [JSON.parse] gives back as
    [JSON.stringify] was given it; or a text that [JSON.parse] or
    [new Map] refuses. *)
Inductive Stored :=
  | Absent
  | Entries (presetsArray : Presets)
  | Unreadable.

(** A call that returns [a], or throws an [Error] with a message. *)
Inductive Result (A : Type) := Ok (a : A) | Throws (message : string).
Arguments Ok {A}.
Arguments Throws {A}.

Definition getPresets (s : Stored) : Presets :=
  match s with
  | Entries presetsArray => mapOf presetsArray
  | Absent | Unreadable => []
  end.

(** [setPresets]: what the storage holds after it. [full] says that
    [localStorage.setItem] refuses the write. *)
Definition setPresets (full : bool) (presets : Presets) : Result Stored :=
  if full then Throws "Could not save to local storage. It might be full."
  else Ok (Entries presets).

(** JavaScript's default order on strings, by code unit. *)
Definition before (a b : string) : Prop := String.leb a b = true.

Global Instance before_dec (a b : string) : Decision (before a b).
Proof. unfold before. apply _. Defined.

Definition listPresets (s : Stored) : list string :=
  merge_sort before (getPresets s).*1.

Definition savePreset (full : bool) (name : string) (prompts : list (string * Prompt))
    (s : Stored) : Result Stored :=
  if decide (name = ""%string) then Throws "Preset name cannot be empty."
  else
    let presets := getPresets s in
    let promptsArray := prompts.*2 in
    setPresets full (mapSet name promptsArray presets).

(** [presets.get(name) || null]: an array is never falsy. *)
Definition loadPreset (name : string) (s : Stored) : option (list Prompt) :=
  mapGet name (getPresets s).

(** The message of the error is [Preset "name" not found.] *)
Definition deletePreset (full : bool) (name : string) (s : Stored) : Result Stored :=
  let presets := getPresets s in
  if bool_decide (name ∈ presets.*1)
  then setPresets full (mapDelete name presets)
  else Throws ("Preset " ++ String (ascii_of_nat 34) name
               ++ String (ascii_of_nat 34) " not found.").

(** The ['load-preset-requested'] listener of [index.tsx]:
    [new Map(presetPrompts.map(p => [p.promptId, p]))]. *)
Definition loadedPrompts (presetPrompts : list Prompt) : list (string * Prompt) :=
  mapOf ((λ p, (promptId p, p)) <$> presetPrompts).

End PresetManager.

(** * Properties *)

(** ** Sequential writes into a view *)

Lemma insert_at_end (pre rest : list Z) (off : nat) (x : Z) :
  off = length pre →
  <[off := x]> (pre ++ rest) = pre ++ <[0%nat := x]> rest.
Proof.
  intros ->. rewrite insert_app_r_alt by lia. by rewrite Nat.sub_diag.
Qed.

Lemma setUint8_seq (pre rest : list Z) (off : nat) (v : Z) :
  off = length pre → (1 ≤ length rest)%nat →
  setUint8 (pre ++ rest) off v = Some ((pre ++ [v mod 256]) ++ drop 1 rest).
Proof.
  intros -> Hlen. unfold setUint8.
  rewrite decide_True by (rewrite length_app; lia).
  rewrite insert_at_end by done.
  destruct rest as [|r0 rest]; [simpl in Hlen; lia|].
  by rewrite <- app_assoc.
Qed.

Lemma setUint16_seq (pre rest : list Z) (off : nat) (v : Z) :
  off = length pre → (2 ≤ length rest)%nat →
  setUint16 (pre ++ rest) off v = Some ((pre ++ le16 v) ++ drop 2 rest).
Proof.
  intros -> Hlen. unfold setUint16.
  rewrite decide_True by (rewrite length_app; lia).
  destruct rest as [|r0 [|r1 rest]]; [simpl in Hlen; lia..|].
  rewrite (insert_at_end pre) by done. simpl.
  replace (pre ++ _ :: r1 :: rest) with ((pre ++ [v mod 65536 mod 256]) ++ r1 :: rest)
    by by rewrite <- app_assoc.
  rewrite insert_at_end by (rewrite length_app; simpl; lia).
  unfold le16. simpl. by rewrite <- !app_assoc.
Qed.

Lemma setUint32_seq (pre rest : list Z) (off : nat) (v : Z) :
  off = length pre → (4 ≤ length rest)%nat →
  setUint32 (pre ++ rest) off v = Some ((pre ++ le32 v) ++ drop 4 rest).
Proof.
  intros -> Hlen. unfold setUint32.
  rewrite decide_True by (rewrite length_app; lia).
  destruct rest as [|r0 [|r1 [|r2 [|r3 rest]]]]; [simpl in Hlen; lia..|].
  set (w := v mod 4294967296).
  rewrite (insert_at_end pre) by done. cbn [insert list_insert].
  replace (pre ++ w mod 256 :: r1 :: r2 :: r3 :: rest)
    with ((pre ++ [w mod 256]) ++ r1 :: r2 :: r3 :: rest) by by rewrite <- app_assoc.
  rewrite insert_at_end by (rewrite length_app; simpl; lia). cbn [insert list_insert].
  replace ((pre ++ [w mod 256]) ++ (w / 256) mod 256 :: r2 :: r3 :: rest)
    with ((pre ++ [w mod 256; (w / 256) mod 256]) ++ r2 :: r3 :: rest)
    by by rewrite <- !app_assoc.
  rewrite insert_at_end by (rewrite length_app; simpl; lia). cbn [insert list_insert].
  replace ((pre ++ [w mod 256; (w / 256) mod 256]) ++ (w / 65536) mod 256 :: r3 :: rest)
    with ((pre ++ [w mod 256; (w / 256) mod 256; (w / 65536) mod 256]) ++ r3 :: rest)
    by by rewrite <- !app_assoc.
  rewrite insert_at_end by (rewrite length_app; simpl; lia). cbn [insert list_insert].
  unfold le32. fold w. simpl. by rewrite <- !app_assoc.
Qed.

Lemma setString_loop_seq (chars : list ascii) :
  ∀ (pre rest : list Z) (off i : nat),
    (off + i)%nat = length pre → (length chars ≤ length rest)%nat →
    setString_loop (pre ++ rest) off i chars
    = Some ((pre ++ map (λ c, charCodeAt c mod 256) chars) ++ drop (length chars) rest).
Proof.
  induction chars as [|c chars IH]; intros pre rest off i Hoff Hlen; simpl.
  - by rewrite app_nil_r.
  - simpl in Hlen. rewrite setUint8_seq by (done || lia). simpl.
    rewrite IH.
    + rewrite <- (app_assoc pre), drop_drop. done.
    + rewrite length_app. simpl. lia.
    + rewrite length_drop. lia.
Qed.

Lemma setString_seq (pre rest : list Z) (off : nat) (str : string) :
  off = length pre → (String.length str ≤ length rest)%nat →
  setString (pre ++ rest) off str
  = Some ((pre ++ asciiBytes str) ++ drop (String.length str) rest).
Proof.
  intros Hoff Hlen. unfold setString, asciiBytes.
  assert (Hl : length (list_ascii_of_string str) = String.length str).
  { clear. induction str; simpl; congruence. }
  rewrite setString_loop_seq by lia. by rewrite Hl.
Qed.

Lemma write_frame_seq (channels : list Float32Array) (i : nat) (chs : list nat) :
  ∀ (pre rest : list Z) (off : nat),
    off = length pre → (2 * length chs ≤ length rest)%nat →
    write_frame channels i chs (pre ++ rest) off
    = Some ((pre ++ pcmFrame channels i chs) ++ drop (2 * length chs) rest,
            (off + 2 * length chs)%nat).
Proof.
  induction chs as [|ch chs IH]; intros pre rest off Hoff Hlen.
  - simpl. rewrite app_nil_r, Nat.add_0_r. done.
  - cbn [write_frame]. unfold setInt16. simpl in Hlen.
    rewrite setUint16_seq by (done || lia). cbn [mbind option_bind].
    rewrite IH.
    + unfold pcmFrame. rewrite bind_cons, <- (app_assoc pre), drop_drop.
      replace (2 * length (ch :: chs))%nat with (2 + 2 * length chs)%nat by (simpl; lia).
      by rewrite Nat.add_assoc.
    + rewrite length_app. simpl. lia.
    + rewrite length_drop. lia.
Qed.

Lemma length_pcmFrame (channels : list Float32Array) (i : nat) (chs : list nat) :
  length (pcmFrame channels i chs) = (2 * length chs)%nat.
Proof.
  unfold pcmFrame. induction chs as [|ch chs IH]; [done|].
  rewrite bind_cons, length_app, IH. simpl. lia.
Qed.

Lemma write_frames_seq (channels : list Float32Array) (c : nat) (rows : list nat) :
  ∀ (pre rest : list Z) (off : nat),
    off = length pre → (2 * c * length rows ≤ length rest)%nat →
    write_frames channels c rows (pre ++ rest) off
    = Some ((pre ++ (rows ≫= λ i, pcmFrame channels i (seq 0 c)))
              ++ drop (2 * c * length rows) rest,
            (off + 2 * c * length rows)%nat).
Proof.
  induction rows as [|i rows IH]; intros pre rest off Hoff Hlen.
  - simpl. rewrite Nat.mul_0_r, app_nil_r, Nat.add_0_r. done.
  - cbn [write_frames]. simpl length in Hlen.
    rewrite write_frame_seq by (rewrite ?length_seq; (done || nia)).
    cbn [mbind option_bind]. rewrite length_seq.
    assert (Hpf : length (pcmFrame channels i (seq 0 c)) = (2 * c)%nat).
    { rewrite length_pcmFrame, length_seq. lia. }
    rewrite IH.
    + rewrite bind_cons, <- (app_assoc pre), drop_drop.
      replace (2 * c * length (i :: rows))%nat with (2 * c + 2 * c * length rows)%nat
        by (simpl; nia).
      by rewrite Nat.add_assoc.
    + rewrite length_app, Hpf. lia.
    + rewrite length_drop. nia.
Qed.

Lemma length_le16 (v : Z) : length (le16 v) = 2%nat.
Proof. done. Qed.

Lemma length_le32 (v : Z) : length (le32 v) = 4%nat.
Proof. done. Qed.

Lemma length_wavHeader (c r len : Z) : length (wavHeader c r len) = 44%nat.
Proof. done. Qed.

Lemma length_pcmData (b : AudioBuffer) :
  length (pcmData b) = (frames b * numberOfChannels b * 2)%nat.
Proof.
  unfold pcmData. rewrite <- (length_seq (frames b) 0) at 2.
  induction (seq 0 (frames b)) as [|i rows IH]; [reflexivity|].
  rewrite bind_cons, length_app, IH, length_pcmFrame, length_seq. simpl. lia.
Qed.

Ltac seq_write lem :=
  rewrite lem by
    (rewrite ?length_app, ?length_drop, ?length_replicate,
             ?length_le32, ?length_le16; simpl; lia);
  cbn [mbind option_bind].

(** The encoder never fails, and its output is the header followed by the
    interleaved samples. *)
Lemma audioBufferToWav_layout (b : AudioBuffer) :
  audioBufferToWav b
  = Some (wavHeader (Z.of_nat (numberOfChannels b)) (sampleRate b)
            (Z.of_nat (frames b * numberOfChannels b * 2 + 44))
          ++ pcmData b).
Proof.
  unfold audioBufferToWav.
  set (c := numberOfChannels b). set (n := (frames b * c * 2)%nat).
  change (replicate (n + 44) 0) with ([] ++ replicate (n + 44) 0).
  seq_write setString_seq.
  seq_write setUint32_seq.
  seq_write setString_seq.
  seq_write setString_seq.
  seq_write setUint32_seq.
  seq_write setUint16_seq.
  seq_write setUint16_seq.
  seq_write setUint32_seq.
  seq_write setUint32_seq.
  seq_write setUint16_seq.
  seq_write setUint16_seq.
  seq_write setString_seq.
  seq_write setUint32_seq.
  rewrite write_frames_seq; cycle 1.
  { rewrite ?length_app, ?length_le32, ?length_le16. done. }
  { rewrite ?length_drop, ?length_replicate, length_seq. unfold n. simpl. lia. }
  cbn [mbind option_bind]. f_equal.
  rewrite (nil_length_inv (drop _ _)); cycle 1.
  { rewrite ?length_drop, ?length_replicate, length_seq. unfold n. simpl. lia. }
  rewrite app_nil_r. unfold wavHeader, pcmData.
  rewrite <- !app_assoc. done.
Qed.

(** ** Concatenation *)

Lemma totalLength_from (bs : list AudioBuffer) (a : nat) :
  foldl (λ acc b, acc + frames b)%nat a bs = (a + totalLength bs)%nat.
Proof.
  unfold totalLength. revert a.
  induction bs as [|b bs IH]; intros a; simpl; [lia|].
  rewrite (IH (a + frames b)%nat), (IH (frames b)). lia.
Qed.

Lemma totalLength_cons (b : AudioBuffer) (bs : list AudioBuffer) :
  totalLength (b :: bs) = (frames b + totalLength bs)%nat.
Proof. unfold totalLength at 1. simpl. by rewrite totalLength_from. Qed.

Lemma totalLength_app (bs1 bs2 : list AudioBuffer) :
  totalLength (bs1 ++ bs2) = (totalLength bs1 + totalLength bs2)%nat.
Proof.
  unfold totalLength at 1. rewrite foldl_app. fold (totalLength bs1).
  by rewrite totalLength_from.
Qed.

Lemma length_copy_into (src : Float32Array) :
  ∀ (dst : Float32Array) (k : nat), length (copy_into dst src k) = length dst.
Proof.
  induction src as [|x src IH]; intros dst k; cbn [copy_into]; [done|].
  by rewrite IH, length_insert.
Qed.

Lemma copy_into_seq (src : Float32Array) :
  ∀ (pre rest : Float32Array) (k : nat),
    k = length pre → (length src ≤ length rest)%nat →
    copy_into (pre ++ rest) src k = (pre ++ src) ++ drop (length src) rest.
Proof.
  induction src as [|x src IH]; intros pre rest k -> Hlen; cbn [copy_into].
  - by rewrite app_nil_r.
  - destruct rest as [|r rest]; [simpl in Hlen; lia|].
    rewrite insert_app_r_alt, Nat.sub_diag by lia. cbn [insert list_insert].
    replace (pre ++ x :: rest) with ((pre ++ [x]) ++ rest) by by rewrite <- app_assoc.
    rewrite IH.
    + by rewrite <- (app_assoc pre).
    + rewrite length_app. simpl. lia.
    + simpl in Hlen. lia.
Qed.

(** What one pass of the inner loop does to each channel of the result. *)
Lemma copy_channels_spec (b : AudioBuffer) (offset : nat) (chs : list nat) :
  ∀ result : AudioBuffer,
    NoDup chs →
    (∀ ch, ch ∈ chs →
       (ch < length (channelData result))%nat ∧ (ch < numberOfChannels b)%nat) →
    ∃ result',
      copy_channels result b chs offset = Some result' ∧
      frames result' = frames result ∧
      sampleRate result' = sampleRate result ∧
      length (channelData result') = length (channelData result) ∧
      ∀ ch, channelData result' !! ch
            = if decide (ch ∈ chs)
              then dst ← channelData result !! ch;
                   data ← channelData b !! ch;
                   Some (copy_into dst data offset)
              else channelData result !! ch.
Proof.
  induction chs as [|ch0 chs IH]; intros result Hnd Hin.
  - exists result. repeat split; done.
  - apply NoDup_cons in Hnd as [Hch0 Hnd].
    destruct (Hin ch0 ltac:(left)) as [Hr Hb].
    apply lookup_lt_is_Some in Hr as [dst Hdst].
    unfold numberOfChannels in Hb. apply lookup_lt_is_Some in Hb as [src Hsrc].
    cbn [copy_channels]. unfold getChannelData, copyToChannel.
    rewrite Hsrc, Hdst. cbn [mbind option_bind].
    set (result1 := mkAudioBuffer _ _ _).
    destruct (IH result1 Hnd) as (result' & Hrun & Hf & Hr' & Hlen & Hch).
    { intros ch Hch. destruct (Hin ch ltac:(by right)) as [? ?].
      split; [|done]. unfold result1. simpl. by rewrite length_insert. }
    exists result'. rewrite Hrun, Hf, Hr', Hlen. unfold result1. simpl.
    rewrite length_insert. repeat split; try done.
    intros ch. rewrite Hch. unfold result1. simpl.
    destruct (decide (ch = ch0)) as [->|Hne].
    + rewrite decide_False by done. rewrite decide_True by left.
      rewrite list_lookup_insert_eq by by eapply lookup_lt_Some.
      by rewrite Hdst, Hsrc.
    + rewrite list_lookup_insert_ne by done.
      destruct (decide (ch ∈ chs)) as [Hc|Hc].
      * rewrite decide_True by by right. done.
      * rewrite decide_False; [done|]. by intros [?|?]%elem_of_cons.
Qed.

(** The inner loop throws as soon as it asks the source for a channel it
    does not have. *)
Lemma copy_channels_fails (b : AudioBuffer) (offset : nat) (chs : list nat) :
  ∀ result : AudioBuffer,
    (∀ ch, ch ∈ chs → (ch < length (channelData result))%nat) →
    (∃ ch, ch ∈ chs ∧ (numberOfChannels b ≤ ch)%nat) →
    copy_channels result b chs offset = None.
Proof.
  induction chs as [|ch0 chs IH]; intros result Hin (bad & Hbad & Hge).
  - by apply elem_of_nil in Hbad.
  - cbn [copy_channels]. unfold getChannelData.
    destruct (channelData b !! ch0) as [src|] eqn:Hsrc; [|done].
    cbn [mbind option_bind]. unfold copyToChannel.
    apply lookup_lt_Some in Hsrc as Hlt.
    assert (Hr : is_Some (channelData result !! ch0))
      by (apply lookup_lt_is_Some, Hin; left).
    destruct Hr as [dst Hdst]. rewrite Hdst. cbn [mbind option_bind].
    apply IH.
    + intros ch Hch. simpl. rewrite length_insert. apply Hin. by right.
    + exists bad. split; [|done].
      apply elem_of_cons in Hbad as [->|?]; [|done].
      unfold numberOfChannels in Hge. lia.
Qed.

Lemma copy_buffers_succeeds (c : nat) (bs : list AudioBuffer) :
  ∀ (result : AudioBuffer) (offset : nat),
    length (channelData result) = c →
    Forall (λ b, c ≤ numberOfChannels b)%nat bs →
    ∃ result',
      copy_buffers result bs c offset = Some result' ∧
      frames result' = frames result ∧
      sampleRate result' = sampleRate result ∧
      length (channelData result') = c.
Proof.
  induction bs as [|b bs IH]; intros result offset Hc Hall.
  - by exists result.
  - apply Forall_cons in Hall as [Hb Hall]. cbn [copy_buffers].
    destruct (copy_channels_spec b offset (seq 0 c) result)
      as (result1 & Hrun & Hf & Hr & Hlen & _).
    { apply NoDup_seq. }
    { intros ch Hch%elem_of_seq. lia. }
    rewrite Hrun. cbn [mbind option_bind].
    destruct (IH result1 (offset + frames b)%nat) as (result' & Hrun' & Hf' & Hr' & Hlen').
    { congruence. } { done. }
    exists result'. repeat split; congruence.
Qed.

Lemma copy_buffers_fails (c : nat) (bs : list AudioBuffer) :
  ∀ (result : AudioBuffer) (offset : nat),
    length (channelData result) = c →
    Exists (λ b, numberOfChannels b < c)%nat bs →
    copy_buffers result bs c offset = None.
Proof.
  induction bs as [|b bs IH]; intros result offset Hc Hex.
  - by apply Exists_nil in Hex.
  - cbn [copy_buffers].
    destruct (decide (numberOfChannels b < c)%nat) as [Hlt|Hge].
    + rewrite copy_channels_fails; [done| |].
      * intros ch Hch%elem_of_seq. lia.
      * exists (numberOfChannels b). split; [|done]. apply elem_of_seq. lia.
    + apply Exists_cons in Hex as [?|Hex]; [done|].
      destruct (copy_channels_spec b offset (seq 0 c) result)
        as (result1 & Hrun & _ & _ & Hlen & _).
      { apply NoDup_seq. }
      { intros ch Hch%elem_of_seq. lia. }
      rewrite Hrun. cbn [mbind option_bind]. apply IH; [congruence|done].
Qed.



Lemma copy_buffers_content (c : nat) (bs : list AudioBuffer) :
  ∀ (result : AudioBuffer) (offset m : nat) (P : nat → list Qc),
    length (channelData result) = c →
    (∀ ch, (ch < c)%nat →
       channelData result !! ch = Some (P ch ++ replicate m 0%Qc) ∧
       length (P ch) = offset) →
    uniform c bs →
    (totalLength bs ≤ m)%nat →
    ∃ result',
      copy_buffers result bs c offset = Some result' ∧
      frames result' = frames result ∧
      sampleRate result' = sampleRate result ∧
      length (channelData result') = c ∧
      ∀ ch, (ch < c)%nat →
        channelData result' !! ch
        = Some (P ch ++ channelOf ch bs ++ replicate (m - totalLength bs) 0%Qc).
Proof.
  induction bs as [|b bs IH]; intros result offset m P Hc HP Hall Hm.
  - exists result. repeat split; try done.
    intros ch Hch. destruct (HP ch Hch) as [-> _].
    unfold totalLength. simpl. by rewrite Nat.sub_0_r.
  - apply Forall_cons in Hall as [[Hb Hwf] Hall]. cbn [copy_buffers].
    rewrite totalLength_cons in Hm.
    destruct (copy_channels_spec b offset (seq 0 c) result)
      as (result1 & Hrun & Hf & Hr & Hlen & Hch1).
    { apply NoDup_seq. }
    { intros ch Hch%elem_of_seq. lia. }
    rewrite Hrun. cbn [mbind option_bind].
    destruct (IH result1 (offset + frames b)%nat (m - frames b)%nat
                (λ ch, P ch ++ default [] (channelData b !! ch)))
      as (result' & Hrun' & Hf' & Hr' & Hlen' & Hch').
    { congruence. }
    { intros ch Hch. rewrite Hch1, decide_True by (apply elem_of_seq; lia).
      destruct (HP ch Hch) as [-> HlenP].
      assert (Hsrc : is_Some (channelData b !! ch))
        by (apply lookup_lt_is_Some; unfold numberOfChannels in Hb; lia).
      destruct Hsrc as [src Hsrc]. rewrite Hsrc. cbn [mbind option_bind default].
      assert (length src = frames b) as Hls.
      { eapply Forall_lookup_1 in Hwf; [|exact Hsrc]. done. }
      rewrite copy_into_seq by (rewrite ?length_replicate; lia).
      rewrite drop_replicate, Hls, length_app. unfold id. split; [done|lia]. }
    { done. }
    { lia. }
    exists result'. rewrite Hrun'. repeat split; try congruence.
    intros ch Hch. rewrite (Hch' ch Hch), totalLength_cons.
    unfold channelOf. rewrite bind_cons, <- !app_assoc.
    by rewrite Nat.sub_add_distr.
Qed.

(** Concatenating buffers of one shape gives, channel by channel, their
    samples end to end. *)
Lemma concatenateAudioBuffers_content (first : AudioBuffer) (rest : list AudioBuffer) :
  uniform (numberOfChannels first) (first :: rest) →
  ∃ full,
    concatenateAudioBuffers (first :: rest) = Some full ∧
    frames full = totalLength (first :: rest) ∧
    sampleRate full = sampleRate first ∧
    numberOfChannels full = numberOfChannels first ∧
    ∀ ch, (ch < numberOfChannels first)%nat →
      channelData full !! ch = Some (channelOf ch (first :: rest)).
Proof.
  intros Hall. unfold concatenateAudioBuffers.
  set (c := numberOfChannels first). set (T := totalLength (first :: rest)).
  destruct (copy_buffers_content c (first :: rest) (createBuffer c T (sampleRate first))
              0 T (λ _, [])) as (full & Hrun & Hf & Hr & Hlen & Hch).
  - simpl. by rewrite length_replicate.
  - intros ch Hch. simpl. split; [|done]. by apply lookup_replicate_2.
  - done.
  - done.
  - exists full. rewrite Hrun. repeat split; try done.
    intros ch Hch'. rewrite (Hch ch Hch'). simpl.
    by rewrite Nat.sub_diag, app_nil_r.
Qed.

Lemma concatenateAudioBuffers_succeeds (first : AudioBuffer) (rest : list AudioBuffer) :
  Forall (λ b, numberOfChannels first ≤ numberOfChannels b)%nat rest →
  ∃ full,
    concatenateAudioBuffers (first :: rest) = Some full ∧
    frames full = totalLength (first :: rest) ∧
    sampleRate full = sampleRate first ∧
    numberOfChannels full = numberOfChannels first.
Proof.
  intros Hall. unfold concatenateAudioBuffers.
  destruct (copy_buffers_succeeds (numberOfChannels first) (first :: rest)
              (createBuffer (numberOfChannels first) (totalLength (first :: rest))
                 (sampleRate first)) 0)
    as (full & Hrun & Hf & Hr & Hlen).
  - simpl. by rewrite length_replicate.
  - by apply Forall_cons.
  - exists full. by rewrite Hrun.
Qed.

Lemma concatenateAudioBuffers_fails (first : AudioBuffer) (rest : list AudioBuffer) :
  Exists (λ b, numberOfChannels b < numberOfChannels first)%nat rest →
  concatenateAudioBuffers (first :: rest) = None.
Proof.
  intros Hex. unfold concatenateAudioBuffers.
  apply copy_buffers_fails.
  - simpl. by rewrite length_replicate.
  - by apply Exists_cons_tl.
Qed.

(** ** Reading the header back *)

Lemma le32_value (w : Z) :
  0 ≤ w < 4294967296 →
  let v := w mod 4294967296 in
  v mod 256 + 256 * ((v / 256) mod 256) + 65536 * ((v / 65536) mod 256)
  + 16777216 * ((v / 16777216) mod 256) = w.
Proof. intros Hw v. unfold v. rewrite (Z.mod_small w) by lia. Z.div_mod_to_equations. lia. Qed.

Lemma le16_value (w : Z) :
  0 ≤ w < 65536 →
  let v := w mod 65536 in v mod 256 + 256 * ((v / 256) mod 256) = w.
Proof. intros Hw v. unfold v. rewrite (Z.mod_small w) by lia. Z.div_mod_to_equations. lia. Qed.

Lemma u32At_le32 (pre rest : list Z) (offset : nat) (w : Z) :
  offset = length pre → 0 ≤ w < 4294967296 →
  u32At (pre ++ le32 w ++ rest) offset = w.
Proof.
  intros -> Hw. unfold u32At. rewrite drop_app_length. cbn [le32 app take].
  by apply le32_value.
Qed.

Lemma u16At_le16 (pre rest : list Z) (offset : nat) (w : Z) :
  offset = length pre → 0 ≤ w < 65536 →
  u16At (pre ++ le16 w ++ rest) offset = w.
Proof.
  intros -> Hw. unfold u16At. rewrite drop_app_length. cbn [le16 app take].
  by apply le16_value.
Qed.

Lemma tagAt_here (pre tag rest : list Z) (offset : nat) :
  offset = length pre → length tag = 4%nat →
  tagAt (pre ++ tag ++ rest) offset = tag.
Proof.
  intros -> Htag. unfold tagAt. rewrite drop_app_length.
  rewrite <- Htag. by rewrite take_app_length.
Qed.

Lemma le_bytes_range (v : Z) : 0 ≤ v mod 256 < 256.
Proof. apply Z.mod_pos_bound. lia. Qed.

Lemma Forall_byte_le16 (v : Z) : Forall (λ x, 0 ≤ x < 256) (le16 v).
Proof. unfold le16. repeat constructor; apply le_bytes_range. Qed.

Lemma Forall_byte_le32 (v : Z) : Forall (λ x, 0 ≤ x < 256) (le32 v).
Proof. unfold le32. repeat constructor; apply le_bytes_range. Qed.

Lemma Forall_byte_pcmData (b : AudioBuffer) : Forall (λ x, 0 ≤ x < 256) (pcmData b).
Proof.
  unfold pcmData, pcmFrame. apply Forall_bind, Forall_forall. intros i _.
  apply Forall_bind, Forall_forall. intros ch _. apply Forall_byte_le16.
Qed.

Lemma Forall_byte_asciiBytes (str : string) :
  Forall (λ x, 0 ≤ x < 256) (asciiBytes str).
Proof.
  unfold asciiBytes. apply Forall_fmap, Forall_forall. intros c _.
  apply le_bytes_range.
Qed.

Lemma Forall_byte_wavHeader (c r len : Z) :
  Forall (λ x, 0 ≤ x < 256) (wavHeader c r len).
Proof.
  unfold wavHeader.
  repeat (apply Forall_app; split);
    first [ apply Forall_byte_le32 | apply Forall_byte_le16 | apply Forall_byte_asciiBytes ].
Qed.


(** The encoder on a buffer whose values fit their fields. *)
Lemma audioBufferToWav_fields (b : AudioBuffer) :
  fitsHeader b → ∃ wav, audioBufferToWav b = Some wav ∧ riffLayout b wav.
Proof.
  unfold fitsHeader, riffLayout.
  set (c := Z.of_nat (numberOfChannels b)). set (f := Z.of_nat (frames b)).
  set (r := sampleRate b). intros (Hlen & Hr & Hrate & Halign).
  assert (0 ≤ c) by (unfold c; lia). assert (0 ≤ f) by (unfold f; lia).
  assert (0 ≤ f * c) by nia.
  set (len := Z.of_nat (frames b * numberOfChannels b * 2 + 44)).
  exists (wavHeader c r len ++ pcmData b).
  split; [exact (audioBufferToWav_layout b)|].
  assert (Hlen' : len = f * c * 2 + 44) by (unfold len, f, c; lia).
  assert (Htotal : Z.of_nat (length (wavHeader c r len ++ pcmData b)) = len).
  { rewrite length_app, length_wavHeader, length_pcmData. unfold len. lia. }
  rewrite Htotal.
  split; [done|].
  split; [apply Forall_app; split;
          [apply Forall_byte_wavHeader | apply Forall_byte_pcmData]|].
  assert (Hdata : drop 44 (wavHeader c r len ++ pcmData b) = pcmData b).
  { rewrite <- (length_wavHeader c r len). apply drop_app_length. }
  rewrite Hdata, length_pcmData.
  unfold wavHeader, tagAt, u32At, u16At.
  cbn [asciiBytes list_ascii_of_string map le32 le16 app drop take].
  repeat split;
    first [ reflexivity
          | apply le32_value; lia
          | apply le16_value; lia
          | unfold f, c; lia
          | idtac ].
  rewrite take_0, le32_value by lia. lia.
Qed.

(** C4. On a buffer of [f] frames, [c] channels and rate [r] the encoder's
    output is a RIFF header whose size field is the total length minus 8,
    a [fmt ] chunk with the channel count, the sample rate, the byte rate
    [r * 2 * c], the block align [c * 2] and 16 bits a sample, and a [data]
    chunk of [f * c * 2] bytes, every field little-endian; three one-second
    48 kHz stereo buffers give a data chunk of [3 * 48000 * 2 * 2] bytes.
    [fitsHeader] says that each value fits the width of its field. *)
Theorem audioBufferToWav_header :
  (∀ b : AudioBuffer,
     fitsHeader b → ∃ wav, audioBufferToWav b = Some wav ∧ riffLayout b wav) ∧
  (∀ b1 b2 b3 : AudioBuffer,
     oneSecondStereo b1 → oneSecondStereo b2 → oneSecondStereo b3 →
     ∃ full wav,
       concatenateAudioBuffers [b1; b2; b3] = Some full ∧
       audioBufferToWav full = Some wav ∧
       u32At wav 40 = 3 * 48000 * 2 * 2 ∧
       Z.of_nat (length (drop 44 wav)) = 3 * 48000 * 2 * 2).
Proof.
  split; [exact audioBufferToWav_fields|].
  intros b1 b2 b3 (Hr1 & Hf1 & Hc1) (Hr2 & Hf2 & Hc2) (Hr3 & Hf3 & Hc3).
  destruct (concatenateAudioBuffers_succeeds b1 [b2; b3])
    as (full & Hcat & Hframes & Hrate & Hchan).
  { repeat constructor; lia. }
  rewrite !totalLength_cons, Hf1, Hf2, Hf3 in Hframes.
  change (totalLength []) with 0%nat in Hframes.
  destruct (audioBufferToWav_fields full) as (wav & Hwav & Hrest).
  { unfold fitsHeader. rewrite Hframes, Hchan, Hrate, Hc1, Hr1. lia. }
  exists full, wav. split; [done|]. split; [done|].
  destruct Hrest as (_&_&_&_&_&_&_&_&_&_&_&_&_&_& H40 & _ & Hlen).
  rewrite H40, Hlen, Hframes, Hchan, Hc1. lia.
Qed.

(** ** The recorder's export *)

(** The recorder's export on a recording that is running and not empty. *)
Lemma stopRecordingAndDownload_nonempty (e : Engine) (first : AudioBuffer)
    (rest : list AudioBuffer) :
  isRecording e = true → recordedBuffers e = first :: rest →
  stopRecordingAndDownload e
  = with_recordedBuffers []
      (match concatenateAudioBuffers (first :: rest) ≫= audioBufferToWav with
       | Some wavBlob =>
           downloadBlob wavBlob "lutox-oscillia-creation.wav"
             (dispatchEvent (RecordingStateChanged false) (with_isRecording false e))
       | None =>
           dispatchEvent (ErrorEvent "Could not process recorded audio.")
             (dispatchEvent (RecordingStateChanged false) (with_isRecording false e))
       end).
Proof.
  intros Hrec Hbufs. unfold stopRecordingAndDownload. rewrite Hrec.
  cbn [negb]. cbv zeta.
  replace (recordedBuffers (dispatchEvent (RecordingStateChanged false)
             (with_isRecording false e))) with (first :: rest) by done.
  rewrite decide_False by done. done.
Qed.

(** What the two ways out of the export leave in the trace. *)
Lemma trace_export_failed (e : Engine) :
  trace (with_recordedBuffers []
           (dispatchEvent (ErrorEvent "Could not process recorded audio.")
              (dispatchEvent (RecordingStateChanged false) (with_isRecording false e))))
  = trace e ++ [Dispatched (RecordingStateChanged false);
                Dispatched (ErrorEvent "Could not process recorded audio.")].
Proof. cbn. by rewrite <- app_assoc. Qed.

Lemma trace_export_done (e : Engine) (wav : list Z) :
  trace (with_recordedBuffers []
           (downloadBlob wav "lutox-oscillia-creation.wav"
              (dispatchEvent (RecordingStateChanged false) (with_isRecording false e))))
  = trace e ++ [Dispatched (RecordingStateChanged false);
                Downloaded "lutox-oscillia-creation.wav" wav].
Proof. cbn. by rewrite <- app_assoc. Qed.

(** C2, as the code has it. A recording that is running and not empty is
    exported unless some buffer has fewer channels than the first, the one
    case in which reading a channel throws; then the error event is
    dispatched and no file is emitted. Sample rates are never compared:
    the file takes the first buffer's channel count and sample rate. In both
    cases the recording is cleared. *)
Theorem stopRecordingAndDownload_mismatch (e : Engine) (first : AudioBuffer)
    (rest : list AudioBuffer) :
  isRecording e = true → recordedBuffers e = first :: rest →
  let e' := stopRecordingAndDownload e in
  isRecording e' = false ∧ recordedBuffers e' = [] ∧
  (Exists (λ b, numberOfChannels b < numberOfChannels first)%nat rest →
     downloads e' = downloads e ∧
     errors e' = errors e ++ ["Could not process recorded audio."%string]) ∧
  (Forall (λ b, numberOfChannels first ≤ numberOfChannels b)%nat rest →
     ∃ full wav,
       concatenateAudioBuffers (first :: rest) = Some full ∧
       numberOfChannels full = numberOfChannels first ∧
       sampleRate full = sampleRate first ∧
       frames full = totalLength (first :: rest) ∧
       audioBufferToWav full = Some wav ∧
       downloads e' = downloads e ++ [wav] ∧
       errors e' = errors e).
Proof.
  intros Hrec Hbufs e'. unfold e'.
  rewrite (stopRecordingAndDownload_nonempty e first rest) by done.
  split; [by destruct (_ ≫= _)|]. split; [by destruct (_ ≫= _)|].
  split.
  - intros Hex. rewrite concatenateAudioBuffers_fails by done.
    cbn [mbind option_bind]. unfold downloads, errors.
    rewrite trace_export_failed, !omap_app. cbn [omap]. by rewrite app_nil_r.
  - intros Hall.
    destruct (concatenateAudioBuffers_succeeds first rest Hall)
      as (full & Hcat & Hf & Hr & Hc).
    destruct (audioBufferToWav full) as [wav|] eqn:Hwav;
      [|by rewrite audioBufferToWav_layout in Hwav].
    exists full, wav. rewrite Hcat. cbn [mbind option_bind]. rewrite Hwav.
    repeat split; try done; unfold downloads, errors.
    all: rewrite trace_export_done, !omap_app; cbn [omap]; by rewrite ?app_nil_r.
Qed.

Lemma length_channelOf (c ch : nat) (bs : list AudioBuffer) :
  uniform c bs → (ch < c)%nat → length (channelOf ch bs) = totalLength bs.
Proof.
  intros Hall Hch. unfold channelOf.
  induction Hall as [|b bs [Hb Hwf] Hall IH]; [done|].
  rewrite bind_cons, length_app, IH, totalLength_cons. f_equal.
  assert (Hsrc : is_Some (channelData b !! ch))
    by (apply lookup_lt_is_Some; unfold numberOfChannels in Hb; lia).
  destruct Hsrc as [src Hsrc]. rewrite Hsrc. simpl.
  by eapply Forall_lookup_1 in Hwf.
Qed.

Lemma bind_ext_in {A B} (f g : A → list B) (l : list A) :
  (∀ x, x ∈ l → f x = g x) → l ≫= f = l ≫= g.
Proof.
  induction l as [|x l IH]; intros Heq; [done|].
  rewrite !bind_cons, Heq, IH; [done| |left].
  intros y Hy. apply Heq. by right.
Qed.

(** The samples of the last buffer of a recording are the last frames of
    the concatenation. *)
Lemma pcmData_last (old : list AudioBuffer) (buf full : AudioBuffer) :
  uniform (numberOfChannels buf) (old ++ [buf]) →
  frames full = totalLength (old ++ [buf]) →
  numberOfChannels full = numberOfChannels buf →
  (∀ ch, (ch < numberOfChannels buf)%nat →
     channelData full !! ch = Some (channelOf ch (old ++ [buf]))) →
  ∃ front,
    pcmData full = front ++ pcmData buf ∧
    length front = (totalLength old * numberOfChannels buf * 2)%nat.
Proof.
  intros Hall Hframes Hchan Hdata.
  set (c := numberOfChannels buf) in *.
  apply Forall_app in Hall as [Hold Hbuf].
  exists (seq 0 (totalLength old) ≫= λ i, pcmFrame (channelData full) i (seq 0 c)).
  split.
  - unfold pcmData. rewrite Hframes, Hchan, totalLength_app, seq_app, bind_app.
    f_equal. rewrite totalLength_cons. change (totalLength []) with 0%nat.
    rewrite Nat.add_0_r.
    replace (seq (0 + totalLength old) (frames buf))
      with (Nat.add (totalLength old) <$> seq 0 (frames buf))
      by (rewrite fmap_add_seq; f_equal; lia).
    rewrite list_fmap_bind. fold c.
    apply bind_ext_in. intros j Hj%elem_of_seq.
    unfold pcmFrame. apply bind_ext_in. intros ch Hch%elem_of_seq.
    do 3 f_equal. unfold sampleAt.
    rewrite Hdata by lia. cbn [mbind option_bind].
    unfold channelOf. rewrite bind_app. fold (channelOf ch old).
    rewrite lookup_app_r by (rewrite (length_channelOf c) by (done || lia); lia).
    rewrite (length_channelOf c) by (done || lia).
    replace (totalLength old + j - totalLength old)%nat with j by lia.
    rewrite bind_cons. change ([] ≫= _) with (@nil Qc). rewrite app_nil_r.
    destruct (channelData buf !! ch); done.
  - clear. rewrite <- (length_seq (totalLength old) 0) at 2.
    induction (seq 0 (totalLength old)) as [|i rows IH]; [reflexivity|].
    rewrite bind_cons, length_app, IH, length_pcmFrame, length_seq. simpl. lia.
Qed.

(** ** The scheduler *)

Section Underrun.

(** A decoded buffer [buf] comes in at time [now], when the scheduler's
    horizon is set and already behind the clock. *)
Variables (e : Engine) (now : Qc) (buf : AudioBuffer).
Hypothesis horizon_set : nextStartTime e ≠ 0%Qc.
Hypothesis horizon_passed : (nextStartTime e < now)%Qc.

(** The underrun branch of [processAudioChunks], written out. *)
Lemma processAudioChunks_decoded_underrun :
  processAudioChunks_decoded now buf e
  = with_nextStartTime 0%Qc
      (setPlaybackState loading
         (if isRecording e
          then with_recordedBuffers (recordedBuffers e ++ [buf]) e
          else e)).
Proof.
  unfold processAudioChunks_decoded.
  destruct (isRecording e); cbn [nextStartTime with_recordedBuffers].
  all: destruct (decide (nextStartTime e = 0%Qc)) as [?|_]; [done|].
  all: cbn [nextStartTime with_recordedBuffers]; by rewrite decide_True by done.
Qed.

Lemma trace_underrun :
  trace (processAudioChunks_decoded now buf e)
  = trace e ++ [Dispatched (PlaybackStateChanged loading)].
Proof. rewrite processAudioChunks_decoded_underrun. by destruct (isRecording e). Qed.

Lemma scheduled_underrun :
  scheduled (processAudioChunks_decoded now buf e) = scheduled e.
Proof. unfold scheduled. rewrite trace_underrun, omap_app. apply app_nil_r. Qed.

(** C6. A decoded buffer that arrives when [nextStartTime] is set and
    already in the past resets [nextStartTime] to 0, moves the engine to
    [loading] and is not handed to [source.start]; no pre-roll timer is
    armed either. *)
Theorem underrun_resets_scheduler :
  let e' := processAudioChunks_decoded now buf e in
  nextStartTime e' = 0%Qc ∧
  playbackState e' = loading ∧
  scheduled e' = scheduled e ∧
  timers e' = timers e ∧
  trace e' = trace e ++ [Dispatched (PlaybackStateChanged loading)].
Proof.
  intros e'. unfold e'.
  split; [|split; [|split; [|split]]].
  - by rewrite processAudioChunks_decoded_underrun.
  - by rewrite processAudioChunks_decoded_underrun.
  - apply scheduled_underrun.
  - rewrite processAudioChunks_decoded_underrun. by destruct (isRecording e).
  - apply trace_underrun.
Qed.

(** C10. With recording on, the buffer that meets the underrun branch has
    already been appended to the recording; it is not scheduled, and the
    next export ends with its samples. *)
Theorem underrun_buffer_is_recorded :
  isRecording e = true →
  let e' := processAudioChunks_decoded now buf e in
  recordedBuffers e' = recordedBuffers e ++ [buf] ∧
  scheduled e' = scheduled e ∧
  isRecording e' = true ∧
  (uniform (numberOfChannels buf) (recordedBuffers e ++ [buf]) →
   ∃ wav front,
     downloads (stopRecordingAndDownload e') = downloads e ++ [wav] ∧
     drop 44 wav = front ++ pcmData buf ∧
     length front
     = (totalLength (recordedBuffers e) * numberOfChannels buf * 2)%nat).
Proof.
  intros Hrec e'.
  pose proof trace_underrun as Htrace. fold e' in Htrace.
  assert (Hbufs : recordedBuffers e' = recordedBuffers e ++ [buf]).
  { unfold e'. rewrite processAudioChunks_decoded_underrun. by rewrite Hrec. }
  assert (Hrec' : isRecording e' = true).
  { unfold e'. rewrite processAudioChunks_decoded_underrun. by rewrite Hrec. }
  split; [exact Hbufs|]. split; [apply scheduled_underrun|]. split; [exact Hrec'|].
  intros Hall.
  assert (∃ first rest, recordedBuffers e ++ [buf] = first :: rest) as (first & rest & Hne).
  { destruct (recordedBuffers e); simpl; eauto. }
  assert (Hc : numberOfChannels first = numberOfChannels buf).
  { rewrite Hne in Hall. by apply Forall_cons in Hall as [[? _] _]. }
  destruct (concatenateAudioBuffers_content first rest) as (full & Hcat & Hf & _ & Hchan & Hdata).
  { rewrite Hc, <- Hne. done. }
  rewrite <- Hne in Hf, Hdata. rewrite Hc in Hchan, Hdata.
  destruct (pcmData_last (recordedBuffers e) buf full Hall Hf Hchan Hdata)
    as (front & Hpcm & Hfront).
  exists (wavHeader (Z.of_nat (numberOfChannels full)) (sampleRate full)
            (Z.of_nat (frames full * numberOfChannels full * 2 + 44)) ++ pcmData full), front.
  split; [|split; [|done]].
  - rewrite (stopRecordingAndDownload_nonempty e' first rest) by congruence.
    rewrite Hcat. cbn [mbind option_bind]. rewrite audioBufferToWav_layout.
    unfold downloads. rewrite trace_export_done, Htrace, !omap_app.
    cbn [omap]. by rewrite !app_nil_r.
  - rewrite <- Hpcm.
    rewrite <- (length_wavHeader (Z.of_nat (numberOfChannels full)) (sampleRate full)
                 (Z.of_nat (frames full * numberOfChannels full * 2 + 44))) at 1.
    apply drop_app_length.
Qed.

End Underrun.

(** ** Chunk deliveries *)


Lemma takeFirst_last {A} (pick : Suspended → option A) (l : list Suspended)
    (k : Suspended) (a : A) :
  (∀ k', k' ∈ l → pick k' = None) → pick k = Some a →
  takeFirst pick (l ++ [k]) = Some (a, l).
Proof.
  intros Hnone Hk. induction l as [|k' l IH]; simpl.
  - by rewrite Hk.
  - rewrite (Hnone k') by left. rewrite IH; [done|].
    intros k'' Hk''. apply Hnone. by right.
Qed.


(** ** The delay effect *)

Lemma settledValue_schedule_ramp (name : ParamName) (v t : Qc) (e : Engine) :
  settledValue (params (schedule name (LinearRampToValueAtTime v t) e) name) = Some v.
Proof.
  unfold schedule, settledValue. cbn [params with_params].
  rewrite fn_lookup_insert. cbn [automation]. by rewrite last_snoc.
Qed.

Lemma params_schedule_ne (name other : ParamName) (ev : ParamEvent) (e : Engine) :
  name ≠ other → params (schedule name ev e) other = params e other.
Proof.
  intros Hne. unfold schedule. cbn [params with_params].
  by rewrite fn_lookup_insert_ne.
Qed.

(** C8, as the code has it. After every [setDelay(amount)] the feedback
    gain is ramped to 0.7 times the value the wet gain is ramped to. *)
Theorem setDelay_couples_feedback (e : Engine) (amount now : Qc) :
  let e' := setDelay amount now e in
  settledValue (params e' DelayWetGain) = Some amount ∧
  settledValue (params e' DelayFeedbackGain) = Some (amount * qfrac 7 10)%Qc.
Proof.
  unfold setDelay, rampTo. split.
  - rewrite params_schedule_ne by done. apply settledValue_schedule_ramp.
  - apply settledValue_schedule_ramp.
Qed.

(** C8 fails at construction: the feedback gain starts at 0.5 while the wet
    gain starts at 0. *)
Lemma constructor_feedback_not_coupled :
  settledValue (params constructor DelayWetGain) = Some 0%Qc ∧
  settledValue (params constructor DelayFeedbackGain) = Some (qfrac 1 2) ∧
  qfrac 1 2 ≠ (0 * qfrac 7 10)%Qc.
Proof.
  split; [done|]. split.
  - unfold settledValue. simpl. f_equal. by apply Qc_is_canon.
  - by intros [=].
Qed.

(** ** Active prompts *)

Lemma Qc_pos_iff_nonzero (w : Qc) : (0 ≤ w)%Qc → (0 < w)%Qc ↔ w ≠ 0%Qc.
Proof.
  intros Hw. split.
  - intros Hlt ->. by apply Qclt_not_le in Hlt.
  - intros Hne. apply Qcle_lt_or_eq in Hw as [?|?]; [done|]. congruence.
Qed.

(** On weights of the domain the getter computes the spec's ActivePrompts. *)
Lemma elem_of_activePrompts (e : Engine) (p : Prompt) :
  weightsInDomain (prompts e) →
  p ∈ activePrompts e ↔ p ∈ (prompts e).*2 ∧ ActivePrompt (filteredPrompts e) p.
Proof.
  intros Hdom. unfold activePrompts, ActivePrompt.
  rewrite list_elem_of_filter. split.
  - intros [[Hf Hw] Hin]. split; [done|]. split; [|done].
    apply Qc_pos_iff_nonzero; [|done]. by apply Hdom.
  - intros [Hin [Hw Hf]]. split; [|done]. split; [done|].
    apply Qc_pos_iff_nonzero; [|done]. by apply Hdom.
Qed.


(** ** The fallback mixer *)


Lemma Qcmin_unit_range (w : Qc) :
  (0 ≤ w)%Qc → (0 ≤ Qcmin w (qz 1))%Qc ∧ (Qcmin w (qz 1) ≤ qz 1)%Qc.
Proof.
  intros Hw. unfold Qcmin. destruct (decide (w ≤ qz 1)%Qc); [done|].
  split; [done|apply Qcle_refl].
Qed.

Lemma targetVolumeOf_range (active : list Prompt) (key : string) :
  (∀ p, p ∈ active → (0 ≤ weight p)%Qc) →
  (0 ≤ targetVolumeOf active key)%Qc ∧ (targetVolumeOf active key ≤ qz 1)%Qc.
Proof.
  intros Hpos. unfold targetVolumeOf.
  destruct (find _ active) as [p|] eqn:Hfind; [|done].
  apply Qcmin_unit_range, Hpos.
  apply find_some in Hfind as [Hin _]. by apply list_elem_of_In.
Qed.

Lemma mixFallback_in_domain (active : list Prompt)
    (entries : list (string * HTMLAudioElement)) :
  (∀ p, p ∈ active → (0 ≤ weight p)%Qc) →
  mixFallback active entries
  = ((λ '(key, a), (key, mkAudio (src a) (loop a) (targetVolumeOf active key)
                           (audioPaused a) (rewound a))) <$> entries,
     true).
Proof.
  intros Hpos. induction entries as [|[key player] rest IH]; [done|].
  cbn [mixFallback]. fold (targetVolumeOf active key).
  unfold setVolume. rewrite decide_True by by apply targetVolumeOf_range.
  by rewrite IH.
Qed.

(** C7. In fallback mode a delivery of prompts sets the volume of every
    local player: to [min(weight, 1)] of the active prompt whose text is
    the player's key, and to 0 when no active prompt has that text. It
    does nothing else. *)
Theorem fallback_volumes (e : Engine) (now : Qc) (ps : list (string * Prompt)) :
  isFallbackMode e = true → weightsInDomain ps →
  let e' := (deliverPrompts now ps e).1 in
  (deliverPrompts now ps e).2 = Returned ∧
  prompts e' = ps ∧ playbackState e' = playbackState e ∧ trace e' = trace e ∧
  ∀ (i : nat) (key : string) (player : HTMLAudioElement),
    fallbackPlayers e !! i = Some (key, player) →
    ∃ player',
      fallbackPlayers e' !! i = Some (key, player') ∧
      src player' = src player ∧ audioPaused player' = audioPaused player ∧
      (∀ p, p ∈ ps.*2 → ActivePrompt (filteredPrompts e) p → text p = key →
         (∀ q, q ∈ ps.*2 → ActivePrompt (filteredPrompts e) q → text q = key → q = p) →
         volume player' = Qcmin (weight p) (qz 1)) ∧
      ((∀ p, p ∈ ps.*2 → ActivePrompt (filteredPrompts e) p → text p ≠ key) →
         volume player' = 0%Qc).
Proof.
  intros Hfb Hdom e'. unfold e', deliverPrompts.
  cbn [isFallbackMode with_prompts]. rewrite Hfb.
  set (e1 := with_prompts ps e).
  assert (Hact : ∀ p, p ∈ activePrompts e1 ↔ p ∈ ps.*2 ∧ ActivePrompt (filteredPrompts e) p).
  { intros p. by apply (elem_of_activePrompts e1). }
  rewrite mixFallback_in_domain; cycle 1.
  { intros p [Hin _]%Hact. by apply Hdom. }
  cbn [fst snd]. repeat split; try done.
  intros i key player Hi.
  eexists. cbn [fallbackPlayers with_fallbackPlayers e1 with_prompts].
  rewrite list_lookup_fmap, Hi. cbn [fmap option_fmap option_map].
  split; [reflexivity|]. cbn [src audioPaused volume]. repeat split.
  - intros p Hin Hp Hkey Huniq. unfold targetVolumeOf.
    destruct (find _ (activePrompts e1)) as [q|] eqn:Hfind.
    + apply find_some in Hfind as [Hq Hqkey]. apply list_elem_of_In, Hact in Hq as [? ?].
      apply bool_decide_eq_true in Hqkey. by rewrite (Huniq q).
    + eapply find_none in Hfind; [|apply list_elem_of_In, Hact; done].
      apply bool_decide_eq_false in Hfind. done.
  - intros Hnone. unfold targetVolumeOf.
    destruct (find _ (activePrompts e1)) as [q|] eqn:Hfind; [|done].
    apply find_some in Hfind as [Hq Hqkey]. apply list_elem_of_In, Hact in Hq as [? ?].
    apply bool_decide_eq_true in Hqkey. by destruct (Hnone q).
Qed.

(** ** [play()] with nothing to play *)




(** In fallback mode the same delivery never looks at the number of active
    prompts: [play()] goes on to [playing] and no error is raised. *)
Lemma play_afterPlayers_fallback (now : Qc) (e : Engine) :
  isFallbackMode e = true → weightsInDomain (prompts e) →
  let e' := play_afterPlayers now true e in
  playbackState e' = playing ∧ errors e' = errors e.
Proof.
  intros Hfb Hdom e'. unfold e', play_afterPlayers, setWeightedPrompts, deliverPrompts.
  cbn [isFallbackMode with_prompts]. rewrite Hfb.
  rewrite mixFallback_in_domain; cycle 1.
  { intros p Hp. apply (elem_of_activePrompts (with_prompts (prompts e) e)) in Hp
      as [Hin _]; [|done]. by apply Hdom. }
  cbn [resume_afterDelivery]. split; [reflexivity|].
  unfold errors. cbn. by rewrite omap_app, app_nil_r.
Qed.

(** ** [stop()] and a connect attempt in flight *)

Lemma session_pause (now : Qc) (e : Engine) : session (pause now e) = session e.
Proof.
  unfold pause. destruct (isFallbackMode e); [reflexivity|].
  destruct (session e) as [[]|] eqn:Hs; exact Hs.
Qed.

Lemma session_play_liveTail (now : Qc) (e : Engine) :
  session (play_liveTail now e) = session e.
Proof. unfold play_liveTail. destruct (session e) as [[]|] eqn:Hs; exact Hs. Qed.

Lemma session_resume_afterDelivery (k : AfterDelivery) (now : Qc) (e : Engine) :
  session (resume_afterDelivery k now e) = session e.
Proof. destruct k; [reflexivity| |reflexivity]. apply session_play_liveTail. Qed.

Lemma session_deliverPrompts (now : Qc) (ps : list (string * Prompt)) (e : Engine) :
  session (deliverPrompts now ps e).1 = session e.
Proof.
  unfold deliverPrompts. cbn [isFallbackMode with_prompts].
  destruct (isFallbackMode e).
  - destruct (mixFallback _ _); reflexivity.
  - destruct (decide _); [cbn [fst]; rewrite session_pause; reflexivity|].
    cbn [session with_prompts]. destruct (session e) as [[]|] eqn:Hs; exact Hs.
Qed.

Lemma session_setWeightedPrompts (now : Qc) (gate : bool) (ps : list (string * Prompt))
    (k : AfterDelivery) (e : Engine) :
  session (setWeightedPrompts now gate ps k e) = session e.
Proof.
  unfold setWeightedPrompts. destruct gate; [|apply session_resume_afterDelivery].
  pose proof (session_deliverPrompts now ps e) as Hs.
  destruct (deliverPrompts now ps e) as [e' []]; simpl in Hs; [|done..].
  by rewrite session_resume_afterDelivery.
Qed.

Lemma session_play_afterSession (now : Qc) (gate : bool) (s : LiveMusicSession)
    (e : Engine) :
  session (play_afterSession now gate s e) = Some s.
Proof.
  unfold play_afterSession. cbn [isFallbackMode with_session].
  destruct (isFallbackMode e); [reflexivity|].
  by rewrite session_setWeightedPrompts.
Qed.

Lemma session_foldl_play_afterSession (now : Qc) (gate : bool) (s : LiveMusicSession)
    (waiting : list Suspended) (e : Engine) :
  waiting ≠ [] →
  session (foldl (λ e _, play_afterSession now gate s e) e waiting) = Some s.
Proof.
  destruct waiting as [|k waiting _] using rev_ind; [done|]. intros _.
  rewrite foldl_app. apply session_play_afterSession.
Qed.

(** C1, as the code has it. [stop()] moves the engine to [stopped], drops
    the session handle and the session promise, leaves fallback mode and
    resets the scheduler; chunks that arrive while the engine is stopped
    are dropped. It does not touch the suspended [play()]: when the connect
    attempt later resolves, that [play()] stores the late session as the
    engine's session. *)
Theorem stop_with_connect_in_flight
    (decodeAudioData : AudioChunk → option AudioBuffer)
    (e : Engine) (now : Qc) (t : Turn) (p id : nat) :
  (p < nextPromise e)%nat → settled e !! p = None →
  PlayAwaitsSession p ∈ suspended e →
  input t = ConnectSettled p (Some id) →
  let e1 := stop now e in
  playbackState e1 = stopped ∧ session e1 = None ∧ sessionPromise e1 = None ∧
  isFallbackMode e1 = false ∧ nextStartTime e1 = 0%Qc ∧
  suspended e1 = suspended e ∧
  (∀ chunks, processAudioChunks chunks e1 = e1) ∧
  session (step decodeAudioData t e1) = Some (LiveSession id).
Proof.
  intros Hp Hpending Hwait Ht e1.
  assert (Hfields : playbackState e1 = stopped ∧ session e1 = None ∧
            sessionPromise e1 = None ∧ isFallbackMode e1 = false ∧
            nextStartTime e1 = 0%Qc ∧ suspended e1 = suspended e ∧
            nextPromise e1 = nextPromise e ∧ settled e1 = settled e).
  { unfold e1, stop. destruct (isFallbackMode e).
    - repeat split; reflexivity.
    - destruct (session e) as [[]|]; repeat split; reflexivity. }
  clearbody e1.
  destruct Hfields as (Hstate & Hsess & Hprom & Hmode & Hnst & Hsusp & Hnext & Hsettled).
  split; [exact Hstate|]. split; [exact Hsess|]. split; [exact Hprom|].
  split; [exact Hmode|]. split; [exact Hnst|]. split; [exact Hsusp|].
  split.
  - intros chunks. unfold processAudioChunks. rewrite decide_True; [reflexivity|by right].
  - unfold step. rewrite Ht. rewrite decide_True by (rewrite Hnext, Hsettled; done).
    cbn [connect_settled].
    apply session_foldl_play_afterSession.
    apply (elem_of_not_nil (PlayAwaitsSession p)).
    apply list_elem_of_filter. split.
    + cbn [awaitsSession]. by apply bool_decide_eq_true.
    + cbn [suspended with_settled with_isFallbackMode]. by rewrite Hsusp.
Qed.











(** ** The sample conversion *)

Lemma clampSample_range (x : Qc) :
  (qz (-1) ≤ clampSample x)%Qc ∧ (clampSample x ≤ qz 1)%Qc.
Proof.
  unfold clampSample, Qcmax, Qcmin.
  destruct (decide (qz 1 ≤ x)%Qc) as [H1|H1];
    destruct (decide _) as [H2|H2].
  - split; [done|apply Qcle_refl].
  - split; [apply Qcle_refl|done].
  - split; [done|]. apply Qclt_le_weak. by apply Qcnot_le_lt.
  - split; [apply Qcle_refl|done].
Qed.

Lemma pcm16_cases (sample : Qc) :
  ((sample < qfrac (-1) 2)%Qc → pcm16 sample = toInt32 (sample * qz 32768)) ∧
  ((qfrac (-1) 2 ≤ sample)%Qc → pcm16 sample = toInt32 (sample * qz 32767)).
Proof.
  assert (Hiff : (qfrac 1 2 + sample < 0)%Qc ↔ (sample < qfrac (-1) 2)%Qc).
  { assert (Hz : (qfrac 1 2 + qfrac (-1) 2)%Qc = 0%Qc) by by apply Qc_is_canon.
    rewrite <- Hz at 1. rewrite <- Qcplus_lt_mono_l. done. }
  unfold pcm16. split.
  - intros Hlt. by rewrite decide_True by by apply Hiff.
  - intros Hge. rewrite decide_False; [done|].
    intros Hlt%Hiff. by apply Qclt_not_le in Hlt.
Qed.

Lemma toInt32_bounds (q : Qc) (a b : Z) :
  (qz a ≤ q)%Qc → (q ≤ qz b)%Qc → a ≤ toInt32 q ≤ b.
Proof.
  unfold Qcle, Qle, toInt32. destruct q as [[n d] Hq]. cbn.
  rewrite !Z.mul_1_r. intros Ha Hb.
  rewrite <- (Z.quot_mul a (Z.pos d)), <- (Z.quot_mul b (Z.pos d)) by done.
  split; apply Z.quot_le_mono; lia.
Qed.

(** The converted sample is a signed 16-bit value. *)
Lemma pcm16_range (x : Qc) : -32768 ≤ pcm16 (clampSample x) ≤ 32767.
Proof.
  destruct (clampSample_range x) as [Hlo Hhi].
  set (s := clampSample x) in *.
  destruct (pcm16_cases s) as [Hneg Hpos].
  destruct (decide (s < qfrac (-1) 2)%Qc) as [Hlt|Hge].
  - rewrite Hneg by done. apply toInt32_bounds.
    + replace (qz (-32768)) with (qz (-1) * qz 32768)%Qc by by apply Qc_is_canon.
      by apply Qcmult_le_compat_r.
    + apply Qcle_trans with (qfrac (-1) 2 * qz 32768)%Qc; [|done].
      apply Qcmult_le_compat_r; [|done]. by apply Qclt_le_weak.
  - apply Qcnot_lt_le in Hge. rewrite Hpos by done. apply toInt32_bounds.
    + apply Qcle_trans with (qz (-1) * qz 32767)%Qc; [done|].
      by apply Qcmult_le_compat_r.
    + replace (qz 32767) with (qz 1 * qz 32767)%Qc at 2 by by apply Qc_is_canon.
      by apply Qcmult_le_compat_r.
Qed.

Lemma drop_bind_blocks {A B} (f : A → list B) (n : nat) (l : list A) :
  (∀ x, length (f x) = n) →
  ∀ k, drop (k * n) (l ≫= f) = drop k l ≫= f.
Proof.
  intros Hn. induction l as [|x l IH]; intros k.
  - rewrite drop_nil. change ([] ≫= f) with (@nil B). by rewrite drop_nil.
  - destruct k as [|k]; [done|].
    rewrite bind_cons. cbn [drop Nat.mul].
    rewrite drop_app_ge by (rewrite Hn; lia).
    rewrite Hn. replace (n + k * n - n)%nat with (k * n)%nat by lia. apply IH.
Qed.

Lemma drop_to_sample (b : AudioBuffer) (i ch : nat) :
  (i < frames b)%nat → (ch < numberOfChannels b)%nat →
  ∃ rest,
    drop (2 * (i * numberOfChannels b + ch)) (pcmData b)
    = le16 (pcm16 (clampSample (sampleAt (channelData b) ch i))) ++ rest.
Proof.
  intros Hi Hch. set (c := numberOfChannels b) in *.
  replace (2 * (i * c + ch))%nat with (i * (2 * c) + ch * 2)%nat by lia.
  rewrite <- drop_drop. unfold pcmData. fold c.
  rewrite (drop_bind_blocks _ (2 * c))
    by (intros j; rewrite length_pcmFrame; apply f_equal, length_seq).
  rewrite drop_seq. cbn [Nat.add].
  destruct (frames b - i)%nat as [|m] eqn:Hm; [lia|].
  cbn [seq]. rewrite bind_cons, drop_app_le
    by (rewrite length_pcmFrame, length_seq; lia).
  unfold pcmFrame at 1.
  rewrite (drop_bind_blocks _ 2) by (intros j; apply length_le16).
  rewrite drop_seq. cbn [Nat.add].
  destruct (c - ch)%nat as [|m'] eqn:Hm'; [lia|].
  cbn [seq]. rewrite bind_cons, <- app_assoc. eauto.
Qed.

Lemma i16At_data (hdr samples rest : list Z) (offset : nat) (v : Z) :
  length hdr = 44%nat → drop offset samples = le16 v ++ rest →
  -32768 ≤ v ≤ 32767 →
  i16At (hdr ++ samples) (44 + offset) = v.
Proof.
  intros Hhdr Hdrop Hv. unfold i16At, u16At.
  rewrite <- drop_drop, drop_app_length', Hdrop by done.
  cbn [le16 app take].
  assert (Hu : (v mod 65536) mod 256 + 256 * ((v mod 65536 / 256) mod 256) = v mod 65536).
  { assert (0 ≤ v mod 65536 < 65536) by (apply Z.mod_pos_bound; lia).
    Z.div_mod_to_equations. lia. }
  rewrite take_0, Hu. case_decide; Z.div_mod_to_equations; lia.
Qed.

(** Sample by sample: the two bytes at the place of frame [i], channel
    [ch] read back as the converted sample. *)
Lemma audioBufferToWav_sample (b : AudioBuffer) (i ch : nat) :
  (i < frames b)%nat → (ch < numberOfChannels b)%nat →
  ∃ wav,
    audioBufferToWav b = Some wav ∧
    i16At wav (44 + 2 * (i * numberOfChannels b + ch))
    = pcm16 (clampSample (sampleAt (channelData b) ch i)).
Proof.
  intros Hi Hch. eexists. split; [apply audioBufferToWav_layout|].
  destruct (drop_to_sample b i ch Hi Hch) as [rest Hdrop].
  eapply i16At_data; [apply length_wavHeader | exact Hdrop | apply pcm16_range].
Qed.

(** C5 at the sample -0.5. The encoder writes -16383, the product by 32767
    truncated, where scaling a negative sample toward -32768 gives -16384:
    the sign test is made on [0.5 + sample], so the samples of [-0.5, 0)
    take the scale of the non-negative ones. *)
Theorem pcm16_of_minus_half :
  clampSample (qfrac (-1) 2) = qfrac (-1) 2 ∧
  pcm16 (clampSample (qfrac (-1) 2)) = -16383 ∧
  toInt32 (clampSample (qfrac (-1) 2) * qz 32768) = -16384 ∧
  (wav ← audioBufferToWav (monoFrame 48000 (qfrac (-1) 2)); Some (i16At wav 44))
  = Some (-16383).
Proof.
  split; [by apply Qc_is_canon|]. by vm_compute.
Qed.

(** ** Concrete runs against the specification *)

(** C1 fails. [stop()] is called while the connect attempt of [play()] is
    in flight; the attempt then resolves with session 7. The suspended
    [play()] makes it the engine's session, sends it the prompts and calls
    its [play()]; after the next [play()] a chunk delivered by session 7
    is scheduled, while the new connect attempt is still pending. *)
Lemma stale_session_is_activated :
  let late := run silentDecoder
                [at_ 2 CallStop; at_ 3 (ConnectSettled 0 (Some 7%nat))]
                (connecting [("prompt-5"%string, funk)]) in
  let later := run silentDecoder
                 [at_ 4 (DeliverySettled None); at_ 5 CallPlay;
                  at_ 6 (OnAudioChunk 7 [mkAudioChunk "AAAA"]); at_ 7 DecodeSettled]
                 late in
  playbackState late = stopped ∧
  session late = Some (LiveSession 7) ∧
  sessionCalls late = [(7%nat, SessionSetWeightedPrompts [funk])] ∧
  sessionCalls later
  = [(7%nat, SessionSetWeightedPrompts [funk]); (7%nat, SessionPlay)] ∧
  sessionPromise later = Some 1%nat ∧ settled later !! 1%nat = None ∧
  scheduled later = [(twoFrames, qz 9)].
Proof.
  repeat split; try by vm_compute.
  vm_compute. do 2 f_equal. by apply Qc_is_canon.
Qed.

(** C2 fails. A recording whose second buffer has another sample rate, or
    more channels than the first, is exported without an error; the file
    carries the first buffer's rate and channel count. *)
Lemma mismatched_buffers_are_exported :
  let rates := stopRecordingAndDownload
                 (recording [monoFrame 48000 0%Qc; monoFrame 44100 0%Qc]) in
  let channels := stopRecordingAndDownload
                    (recording [monoFrame 48000 0%Qc; twoFrames]) in
  let fields := λ wav, (u16At wav 22, u32At wav 24, u32At wav 40) in
  errors rates = [] ∧ fields <$> downloads rates = [(1, 48000, 4)] ∧
  errors channels = [] ∧ fields <$> downloads channels = [(1, 48000, 6)].
Proof. by vm_compute. Qed.


(** ** Instances on concrete engines *)

Lemma stop_with_connect_in_flight_witness :
  let e1 := stop (qz 2) (connecting [("prompt-5"%string, funk)]) in
  playbackState e1 = stopped ∧ session e1 = None ∧ sessionPromise e1 = None ∧
  isFallbackMode e1 = false ∧ nextStartTime e1 = 0%Qc ∧
  suspended e1 = suspended (connecting [("prompt-5"%string, funk)]) ∧
  (∀ chunks, processAudioChunks chunks e1 = e1) ∧
  session (step silentDecoder (at_ 3 (ConnectSettled 0 (Some 7%nat))) e1)
  = Some (LiveSession 7).
Proof.
  apply (stop_with_connect_in_flight silentDecoder
           (connecting [("prompt-5"%string, funk)]) (qz 2)
           (at_ 3 (ConnectSettled 0 (Some 7%nat))) 0 7).
  - vm_compute. lia.
  - vm_compute. reflexivity.
  - vm_compute. left.
  - reflexivity.
Defined.

Lemma stopRecordingAndDownload_mismatch_witness :
  let e := recording [twoFrames; monoFrame 48000 0%Qc] in
  let e' := stopRecordingAndDownload e in
  downloads e' = downloads e ∧
  errors e' = errors e ++ ["Could not process recorded audio."%string].
Proof.
  intros e e'.
  apply (stopRecordingAndDownload_mismatch e twoFrames [monoFrame 48000 0%Qc]).
  - reflexivity.
  - reflexivity.
  - left. vm_compute. lia.
Defined.


Lemma audioBufferToWav_header_witness :
  (∃ wav, audioBufferToWav twoFrames = Some wav ∧
          u32At wav 4 = Z.of_nat (length wav) - 8 ∧ u32At wav 40 = 8) ∧
  (∃ full wav,
     concatenateAudioBuffers [oneSecond; oneSecond; oneSecond] = Some full ∧
     audioBufferToWav full = Some wav ∧
     u32At wav 40 = 3 * 48000 * 2 * 2 ∧
     Z.of_nat (length (drop 44 wav)) = 3 * 48000 * 2 * 2).
Proof.
  split.
  - destruct (proj1 audioBufferToWav_header twoFrames)
      as (wav & Hwav & _ & _ & _ & Hriff & _ & _ & _ & _ & _ & _ & _ & _ & _ & _ & Hdata & _).
    + by vm_compute.
    + exists wav. split; [exact Hwav|]. split; [exact Hriff|]. exact Hdata.
  - apply (proj2 audioBufferToWav_header oneSecond oneSecond oneSecond).
    + repeat split; reflexivity.
    + repeat split; reflexivity.
    + repeat split; reflexivity.
Defined.

Lemma underrun_resets_scheduler_witness :
  let e := recording [] in
  let e' := processAudioChunks_decoded (qz 5) twoFrames e in
  nextStartTime e' = 0%Qc ∧
  playbackState e' = loading ∧
  scheduled e' = scheduled e ∧
  timers e' = timers e ∧
  trace e' = trace e ++ [Dispatched (PlaybackStateChanged loading)].
Proof.
  intros e.
  apply (underrun_resets_scheduler e (qz 5) twoFrames).
  - vm_compute. discriminate.
  - vm_compute. reflexivity.
Defined.

Lemma fallback_volumes_witness :
  let e' := (deliverPrompts (qz 3) [("prompt-5"%string, funk)] fellBack).1 in
  ∃ player',
    fallbackPlayers e' !! 3%nat = Some ("Funk"%string, player') ∧
    volume player' = Qcmin (weight funk) (qz 1).
Proof.
  intros e'.
  destruct (fallback_volumes fellBack (qz 3) [("prompt-5"%string, funk)])
    as (_ & _ & _ & _ & Hplayers).
  - vm_compute. reflexivity.
  - intros p Hp. vm_compute in Hp. apply list_elem_of_singleton in Hp as ->.
    split; vm_compute; discriminate.
  - destruct (Hplayers 3%nat "Funk"%string
                (mkAudio "assets/funk.wav" true 0%Qc false false))
      as (player' & Hlookup & _ & _ & Hactive & _).
    + vm_compute. reflexivity.
    + exists player'. split; [exact Hlookup|].
      apply Hactive.
      * vm_compute. left.
      * split; [vm_compute; reflexivity|]. vm_compute. set_solver.
      * reflexivity.
      * intros q Hq _ _. vm_compute in Hq.
        by apply list_elem_of_singleton in Hq.
Defined.


Lemma underrun_buffer_is_recorded_witness :
  let e := recording [twoFrames] in
  let e' := processAudioChunks_decoded (qz 5) twoFrames e in
  recordedBuffers e' = [twoFrames; twoFrames] ∧
  scheduled e' = scheduled e ∧
  ∃ wav front,
    downloads (stopRecordingAndDownload e') = downloads e ++ [wav] ∧
    drop 44 wav = front ++ pcmData twoFrames ∧
    length front = 8%nat.
Proof.
  intros e.
  destruct (underrun_buffer_is_recorded e (qz 5) twoFrames)
    as (Hrec & Hsched & _ & Hexport).
  - vm_compute. discriminate.
  - vm_compute. reflexivity.
  - reflexivity.
  - split; [exact Hrec|]. split; [exact Hsched|].
    apply Hexport. repeat constructor.
Defined.

(** ** Rational numbers *)

Lemma qz_le (x y : Z) : x ≤ y → (qz x ≤ qz y)%Qc.
Proof. intros H. unfold Qcle, Qle, qz, Qc_of_Z. cbn. lia. Qed.

Lemma qz_lt (x y : Z) : x < y → (qz x < qz y)%Qc.
Proof. intros H. unfold Qclt, Qlt, qz, Qc_of_Z. cbn. lia. Qed.

Lemma qz_mul (x y : Z) : (qz x * qz y)%Qc = qz (x * y).
Proof.
  apply Qc_is_canon. unfold qz, Qc_of_Z. cbn. rewrite !Qred_correct.
  unfold Qeq, Qmult. cbn. lia.
Qed.


Lemma Qcdiv_range (x y c : Qc) :
  (0 ≤ x)%Qc → (x ≤ c * y)%Qc → (0 < y)%Qc → (0 ≤ x / y)%Qc ∧ (x / y ≤ c)%Qc.
Proof.
  intros H0 Hxy Hy. unfold Qcle, Qclt in *. unfold Qcdiv, Qcmult, Qcinv in *.
  cbn in *. rewrite !Qred_correct in *. split.
  - apply Qle_shift_div_l; [done|]. by rewrite Qmult_0_l.
  - by apply Qle_shift_div_r.
Qed.



Lemma Qcle_plus_nonneg (t d : Qc) : (0 ≤ d)%Qc → (t ≤ t + d)%Qc.
Proof.
  intros Hd. rewrite <- (Qcplus_0_r t) at 1.
  apply Qcplus_le_compat; [apply Qcle_refl|done].
Qed.

Section History.
Context {T : Type}.
Implicit Types (h : HistoryManager.t T) (s : T).
Import HistoryManager.

Lemma history_wf_addState s h : wf h → wf (addState s h).
Proof.
  intros [[Hs Hi]|[Hi Hlen]]; right; unfold addState, slice0, maxSize in *.
  - rewrite Hs, Hi. simpl. lia.
  - repeat case_decide; cbn [historyStack currentIndex];
      rewrite ?length_drop, ?length_app, ?length_take in *; simpl in *; lia.
Qed.

Lemma history_wf_undo h : wf h → wf (undo h).2.
Proof.
  unfold undo, canUndo. case_bool_decide; [|done].
  intros [[Hs Hi]|[Hi Hlen]]; [lia|]. right. simpl. lia.
Qed.

Lemma history_wf_redo h : wf h → wf (redo h).2.
Proof.
  unfold redo, canRedo. case_bool_decide; [|done].
  intros [[Hs Hi]|[Hi Hlen]].
  - rewrite Hs, Hi in *. simpl in *. lia.
  - right. simpl. lia.
Qed.

(** X1. The history keeps its shape whatever it is asked: the index stays
    inside the stack (or is -1 on an empty one), the stack never exceeds
    100 states. *)
Theorem history_invariant (ops : list (Op T)) :
  wf (foldl apply empty ops).
Proof.
  assert (Hgen : ∀ h, wf h → wf (foldl apply h ops)).
  { induction ops as [|op ops IH]; intros h Hh; [done|].
    simpl. apply IH. destruct op; simpl.
    - by apply history_wf_addState.
    - by apply history_wf_undo.
    - by apply history_wf_redo. }
  apply Hgen. by left.
Qed.


Lemma at_index_lookup (l : list T) (i : Z) :
  0 ≤ i → at_index l i = l !! Z.to_nat i.
Proof. intros Hi. unfold at_index. by rewrite decide_False by lia. Qed.

Lemma at_index_is_Some (l : list T) (i : Z) :
  0 ≤ i < Z.of_nat (length l) → is_Some (at_index l i).
Proof.
  intros Hi. rewrite at_index_lookup by lia. apply lookup_lt_is_Some. lia.
Qed.

(** X2. Undo and redo are inverse to each other: after an undo, redo gives back
    the state that was left and the history is as before; and the other
    way round. Both answer with the state the history then points at. *)
Theorem history_undo_redo h :
  wf h →
  (canUndo h = true →
     ∃ prev cur,
       undo h = (Some prev, (undo h).2) ∧ current (undo h).2 = Some prev ∧
       current h = Some cur ∧ redo (undo h).2 = (Some cur, h)) ∧
  (canRedo h = true →
     ∃ next,
       redo h = (Some next, (redo h).2) ∧ current (redo h).2 = Some next ∧
       undo (redo h).2 = (current h, h)).
Proof.
  intros Hwf. destruct h as [stack idx]. unfold wf in Hwf. simpl in Hwf. split.
  - intros Hcan. unfold canUndo in Hcan. apply bool_decide_eq_true in Hcan.
    simpl in Hcan. destruct Hwf as [[_ ?]|[Hi Hlen]]; [lia|].
    destruct (at_index_is_Some stack (idx - 1)) as [prev Hprev]; [lia|].
    destruct (at_index_is_Some stack idx) as [cur Hcur]; [lia|].
    exists prev, cur. unfold undo, redo, canUndo, canRedo, current.
    cbn [historyStack currentIndex].
    rewrite bool_decide_eq_true_2 by lia. cbn [historyStack currentIndex snd].
    rewrite Hprev, Hcur. repeat split.
    rewrite bool_decide_eq_true_2 by lia. cbn [historyStack currentIndex].
    replace (idx - 1 + 1) with idx by lia. by rewrite Hcur.
  - intros Hcan. unfold canRedo in Hcan. apply bool_decide_eq_true in Hcan.
    simpl in Hcan.
    assert (Hi : -1 ≤ idx) by (destruct Hwf as [[_ ?]|[? _]]; lia).
    destruct (at_index_is_Some stack (idx + 1)) as [next Hnext]; [lia|].
    exists next. unfold undo, redo, canUndo, canRedo, current.
    cbn [historyStack currentIndex].
    rewrite bool_decide_eq_true_2 by lia. cbn [historyStack currentIndex snd].
    rewrite Hnext. repeat split.
    destruct Hwf as [[-> _]|[Hi' Hlen]]; [simpl in Hcan; lia|].
    rewrite bool_decide_eq_true_2 by lia. cbn [historyStack currentIndex].
    by replace (idx + 1 - 1) with idx by lia.
Qed.


(** X3. Adding a state makes it the current one and leaves nothing to redo: the
    states after the index are dropped, those up to it are kept, and the
    oldest one goes when the stack would exceed 100. The state that was
    current before is what undo then returns; a first state cannot be
    undone. *)
Theorem history_addState s h :
  wf h →
  let h' := addState s h in
  let kept := take (Z.to_nat (currentIndex h + 1)) (historyStack h) ++ [s] in
  current h' = Some s ∧
  canRedo h' = false ∧
  historyStack h' = (if decide (currentIndex h = 99) then drop 1 kept else kept) ∧
  (currentIndex h = -1 → canUndo h' = false) ∧
  (0 ≤ currentIndex h → canUndo h' = true ∧ (undo h').1 = current h).
Proof.
  intros Hwf h' kept.
  assert (Hstack : historyStack h'
                   = if decide (currentIndex h = 99) then drop 1 kept else kept).
  { unfold h', kept, addState, slice0, maxSize.
    destruct Hwf as [[Hs Hi]|[Hi Hlen]].
    - rewrite Hs, Hi. reflexivity.
    - unfold maxSize in Hlen. cbn [historyStack].
      assert (Htake : (if decide (currentIndex h < Z.of_nat (length (historyStack h)) - 1)
                       then (if decide (currentIndex h + 1 < 0)
                             then take (Z.to_nat (Z.max (Z.of_nat (length (historyStack h))
                                                    + (currentIndex h + 1)) 0)) (historyStack h)
                             else take (Z.to_nat (currentIndex h + 1)) (historyStack h))
                       else historyStack h)
                      = take (Z.to_nat (currentIndex h + 1)) (historyStack h)).
      { repeat case_decide; try lia; [done|]. by rewrite take_ge by lia. }
      rewrite Htake.
      assert (Hl : Z.of_nat (length (take (Z.to_nat (currentIndex h + 1)) (historyStack h) ++ [s]))
                   = currentIndex h + 2).
      { rewrite length_app, length_take. simpl. lia. }
      repeat case_decide; try lia; done. }
  assert (Hidx : currentIndex h' = Z.of_nat (length (historyStack h')) - 1).
  { unfold h', addState. reflexivity. }
  assert (Hkept : Z.of_nat (length kept) = currentIndex h + 2).
  { unfold kept. rewrite length_app, length_take. simpl.
    destruct Hwf as [[Hs Hi]|[Hi Hlen]]; [rewrite Hs, Hi; simpl|]; lia. }
  assert (Hbound : -1 ≤ currentIndex h ≤ 99).
  { destruct Hwf as [[Hs Hi]|[Hi Hlen]]; unfold maxSize in *; lia. }
  assert (Hlen' : Z.of_nat (length (historyStack h'))
                  = if decide (currentIndex h = 99) then 100 else currentIndex h + 2).
  { rewrite Hstack. case_decide; [rewrite length_drop|]; lia. }
  assert (Hlast : ∀ l : list T, l ≠ [] → at_index l (Z.of_nat (length l) - 1) = last l).
  { intros l Hl. rewrite at_index_lookup by (destruct l; [done|simpl; lia]).
    rewrite last_lookup. f_equal. lia. }
  split; [|split; [|split; [exact Hstack|split]]].
  - unfold current. rewrite Hidx, Hlast.
    + rewrite Hstack. unfold kept. case_decide.
      * rewrite drop_app_le; [apply last_snoc|]. rewrite length_take.
        destruct Hwf as [[Hs Hi]|[Hi Hlen]]; lia.
      * apply last_snoc.
    + intros Hnil. rewrite Hnil in Hlen'. simpl in Hlen'. case_decide; lia.
  - unfold canRedo. rewrite Hidx. apply bool_decide_eq_false_2. lia.
  - intros Hi. unfold canUndo. rewrite Hidx, Hlen'. apply bool_decide_eq_false_2.
    case_decide; lia.
  - intros Hi. assert (Hcan : canUndo h' = true).
    { unfold canUndo. rewrite Hidx, Hlen'. apply bool_decide_eq_true_2. case_decide; lia. }
    assert (Hin : currentIndex h < Z.of_nat (length (historyStack h)))
      by (destruct Hwf as [[? ?]|[? ?]]; lia).
    split; [exact Hcan|]. unfold undo. rewrite Hcan. cbn [fst historyStack currentIndex].
    unfold current. rewrite Hidx, Hlen', Hstack.
    rewrite !at_index_lookup by (try case_decide; lia).
    unfold kept. case_decide as H99.
    + rewrite lookup_drop, lookup_app_l by (rewrite length_take; lia).
      rewrite lookup_take_lt by lia. f_equal. lia.
    + rewrite lookup_app_l by (rewrite length_take; lia).
      rewrite lookup_take_lt by lia. f_equal. lia.
Qed.

(** X4. A new history fed [states] one after the other holds the last 100 of
    them, in order, and points at the last. *)
Theorem history_capacity (states : list T) :
  let h := foldl (λ h s, addState s h) empty states in
  historyStack h = drop (length states - 100) states ∧
  currentIndex h = Z.of_nat (length (historyStack h)) - 1 ∧
  (length (historyStack h) = length states `min` 100)%nat.
Proof.
  induction states as [|s states IH] using rev_ind; [done|].
  rewrite foldl_app. cbn [foldl]. cbv zeta in IH.
  set (h := foldl (λ h s, addState s h) empty states) in *.
  destruct IH as (Hstack & Hidx & Hlen).
  assert (Hadd : historyStack (addState s h)
                 = drop (length (states ++ [s]) - 100) (states ++ [s])).
  { unfold addState, maxSize.
    destruct (decide (currentIndex h < Z.of_nat (length (historyStack h)) - 1))
      as [?|_]; [lia|].
    cbn [historyStack]. rewrite length_app. cbn [length].
    rewrite Hstack, length_app, length_drop. cbn [length].
    case_decide.
    - rewrite drop_app_le by (rewrite length_drop; lia).
      rewrite drop_drop, drop_app_le by lia. f_equal. f_equal. lia.
    - replace (length states - 100)%nat with 0%nat by lia.
      replace (length states + 1 - 100)%nat with 0%nat by lia. done. }
  split; [exact Hadd|]. split; [reflexivity|].
  rewrite Hadd, length_drop, length_app. simpl. lia.
Qed.

End History.

Lemma history_undo_redo_witness :
  let h := HistoryManager.mk [1; 2; 3] 1 in
  ∃ prev cur,
    HistoryManager.undo h = (Some prev, (HistoryManager.undo h).2) ∧
    HistoryManager.current (HistoryManager.undo h).2 = Some prev ∧
    HistoryManager.current h = Some cur ∧
    HistoryManager.redo (HistoryManager.undo h).2 = (Some cur, h).
Proof.
  intros h. destruct (history_undo_redo h) as [Hundo _].
  - right. unfold HistoryManager.maxSize. cbn. lia.
  - apply Hundo. reflexivity.
Defined.

Lemma history_addState_witness :
  let h := HistoryManager.mk [1; 2; 3] 1 in
  let h' := HistoryManager.addState 7 h in
  HistoryManager.current h' = Some 7 ∧
  HistoryManager.canRedo h' = false ∧
  HistoryManager.historyStack h' = [1; 2; 7] ∧
  (HistoryManager.undo h').1 = Some 2.
Proof.
  intros h h'. destruct (history_addState 7 h) as (Hcur & Hredo & Hstack & _ & Hundo).
  - right. unfold HistoryManager.maxSize. cbn. lia.
  - split; [exact Hcur|]. split; [exact Hredo|]. split; [exact Hstack|].
    apply Hundo. cbn. lia.
Defined.

Section Debounced.
Context {A : Type}.
Variable delay : Z.
Import Debounce.
Implicit Types (d : Debounce.t A) (evs : list (Event A)).

Lemma callsOf_snoc_Call evs now (args : A) :
  callsOf (evs ++ [Call now args]) = callsOf evs ++ [(now, args)].
Proof. unfold callsOf. by rewrite omap_app. Qed.

Lemma callsOf_snoc_Fire evs now id :
  callsOf (evs ++ [Fire (A:=A) now id]) = callsOf evs.
Proof. unfold callsOf. rewrite omap_app. simpl. by rewrite app_nil_r. Qed.

Lemma lastCall_snoc_Call evs now (args : A) :
  lastCall (evs ++ [Call now args]) = Some (now, args).
Proof. unfold lastCall. rewrite callsOf_snoc_Call. apply last_snoc. Qed.

Lemma lastCall_snoc_Fire evs now id :
  lastCall (evs ++ [Fire (A:=A) now id]) = lastCall evs.
Proof. unfold lastCall. by rewrite callsOf_snoc_Fire. Qed.

Lemma settled_step evs d (ev : Event A) :
  settled delay evs d → settled delay (evs ++ [ev]) (step delay d ev).
Proof.
  intros (Hpos & Htimers & Hid). destruct ev as [now args|now id]; cbn [step].
  - unfold call. split; [simpl; lia|]. split; [|simpl; intros ? [= <-]; lia].
    right. exists (nextHandle d), now, args. cbn [timers timeoutId nextHandle].
    rewrite lastCall_snoc_Call. split; [|split; [done|split; [lia|done]]].
    destruct Htimers as [->|(id & t & a & -> & Hsome & Hlt & _)].
    + by destruct (timeoutId d).
    + rewrite Hsome. simpl. rewrite filter_cons_False by (simpl; congruence). done.
  - unfold settled, fire, due. rewrite lastCall_snoc_Fire.
    destruct Htimers as [Hnil|(id' & t & a & Heq & Hsome & Hlt & Hlast)].
    + rewrite Hnil. simpl. split; [done|]. split; [by left|done].
    + rewrite Heq. simpl. case_decide as Hid'; simpl in Hid'.
      * simpl. case_decide.
        -- split; [done|]. split; [|done]. left. simpl.
           rewrite filter_cons_False by (simpl; congruence). done.
        -- split; [done|]. split; [|done]. right. by exists id', t, a.
      * simpl. split; [done|]. split; [|done]. right. by exists id', t, a.
Qed.

Lemma debounce_settled evs : settled delay evs (run delay evs create).
Proof.
  induction evs as [|ev evs IH] using rev_ind.
  - split; [simpl; lia|]. split; [by left|done].
  - unfold run. rewrite foldl_app. by apply settled_step.
Qed.

(** X5. Whatever the calls and the timers that run, at most one timer of the
    debounced function is pending: the one set by the last call, due
    [delay] after it, with its arguments. *)
Theorem debounce_one_timer evs :
  let d := run delay evs create in
  timers d = [] ∨
  ∃ id now args,
    timers d = [(id, (now + delay, args))] ∧ timeoutId d = Some id ∧
    lastCall evs = Some (now, args).
Proof.
  destruct (debounce_settled evs) as (_ & [?|(id & now & args & ? & ? & _ & ?)] & _);
    [by left|right; by exists id, now, args].
Qed.


Lemma clearTimeout_nil (id : option nat) : clearTimeout (A:=A) id [] = [].
Proof. by destruct id. Qed.

Lemma invoked_call now (args : A) d : invoked (call delay now args d) = invoked d.
Proof. done. Qed.

(** X6. The wrapped function is only ever invoked by a timer, with the
    arguments of the last call made before, not earlier than [delay] after
    that call; and it is invoked at most once for each call. *)
Theorem debounce_invocations evs :
  let d := run delay evs create in
  Forall (λ '(now, args),
            ∃ before after id t,
              evs = before ++ Fire now id :: after ∧
              lastCall before = Some (t, args) ∧ t + delay ≤ now)
         (invoked d) ∧
  (length (invoked d) + length (timers d) ≤ length (callsOf evs))%nat.
Proof.
  induction evs as [|ev evs IH] using rev_ind; [by split|].
  cbv zeta in *. unfold run in *. rewrite foldl_app. cbn [foldl].
  pose proof (debounce_settled evs) as (Hpos & Htimers & Hid).
  unfold run in Htimers, Hid, Hpos.
  set (d := foldl (step delay) create evs) in *.
  destruct IH as [IHall IHlen].
  assert (Hweaken : Forall (λ '(now, args),
            ∃ before after id t,
              evs ++ [ev] = before ++ Fire now id :: after ∧
              lastCall before = Some (t, args) ∧ t + delay ≤ now) (invoked d)).
  { eapply Forall_impl; [exact IHall|]. intros [now args] (b & a & id & t & -> & ? & ?).
    exists b, (a ++ [ev]), id, t. by rewrite <- app_assoc. }
  destruct ev as [now args|now id]; cbn [step].
  - split; [exact Hweaken|]. unfold call. cbn [invoked timers].
    rewrite callsOf_snoc_Call, !length_app. cbn [length].
    destruct Htimers as [Hnil|(id & t & a & Heq & Hsome & _)].
    + rewrite Hnil in *. rewrite clearTimeout_nil. simpl in *. lia.
    + rewrite Heq, Hsome in *. unfold clearTimeout.
      rewrite filter_cons_False by (simpl; congruence). simpl in *. lia.
  - unfold fire, due. rewrite callsOf_snoc_Fire.
    destruct Htimers as [Hnil|(id' & t & a & Heq & Hsome & Hlt & Hlast)].
    + rewrite Hnil in *. simpl. split; [exact Hweaken|]. rewrite Hnil. simpl in *. lia.
    + rewrite Heq in *. simpl. case_decide as Hid'; simpl in Hid'; simpl.
      * case_decide.
        -- cbn [invoked timers]. split.
           ++ apply Forall_app. split; [exact Hweaken|]. apply Forall_singleton.
              exists evs, [], id, t. by subst.
           ++ rewrite filter_cons_False by (simpl; congruence).
              rewrite length_app. simpl in *. lia.
        -- split; [exact Hweaken|]. rewrite Heq. simpl in *. lia.
      * split; [exact Hweaken|]. rewrite Heq. simpl in *. lia.
Qed.

(** A burst: after one call or more, with no timer fired in between, one
    timer is pending, that of the last call; the wrapped function has not
    been invoked, and when the timer runs it is, once, with the last
    arguments. *)
Lemma fire_after_burst evs (burst : list (Z * A)) (t : Z) (args : A) (now : Z) :
  last burst = Some (t, args) → t + delay ≤ now →
  let d0 := run delay evs create in
  let d := run delay ((λ c, Call c.1 c.2) <$> burst) d0 in
  ∃ id,
    timeoutId d = Some id ∧ timers d = [(id, (t + delay, args))] ∧
    invoked d = invoked d0 ∧
    due now id d = Some args ∧
    invoked (fire now id d) = invoked d0 ++ [(now, args)] ∧
    timers (fire now id d) = [].
Proof.
  intros Hlast Hdue d0 d.
  assert (Hrun : d = run delay (evs ++ ((λ c, Call c.1 c.2) <$> burst)) create).
  { unfold d, d0, run. by rewrite foldl_app. }
  assert (Hinv : invoked d = invoked d0).
  { unfold d, run. generalize d0. clear.
    induction burst as [|c burst IH]; intros d0; [done|]. simpl. by rewrite IH. }
  pose proof (debounce_settled (evs ++ ((λ c, Call c.1 c.2) <$> burst)))
    as (_ & Htimers & _).
  rewrite <- Hrun in Htimers.
  assert (Hlc : lastCall (evs ++ ((λ c, Call c.1 c.2) <$> burst)) = Some (t, args)).
  { destruct burst as [|c burst _] using rev_ind; [done|].
    rewrite fmap_app, app_assoc. simpl. rewrite lastCall_snoc_Call.
    rewrite last_snoc in Hlast. by destruct c; simplify_eq. }
  assert (Hne : timers d ≠ []).
  { destruct burst as [|c burst _] using rev_ind; [done|].
    unfold d, run. rewrite fmap_app, foldl_app. simpl. unfold call. simpl.
    by destruct (clearTimeout _ _). }
  destruct Htimers as [?|(id & t' & a' & Heq & Hsome & _ & Hlast')]; [done|].
  rewrite Hlc in Hlast'. injection Hlast' as <- <-. clear Hrun Hlc.
  assert (Hd : due now id d = Some args).
  { unfold due. rewrite Heq. simpl. rewrite decide_True by done.
    by rewrite decide_True by done. }
  exists id. repeat split; try done.
  - unfold fire. rewrite Hd. simpl. by rewrite Hinv.
  - unfold fire. rewrite Hd. simpl. rewrite Heq.
    by rewrite filter_cons_False by (simpl; congruence).
Qed.

End Debounced.

(** ** The undo history of the page *)

Section PageHistory.
Import Page.

Lemma saveStateToHistory_step (s : Page.t) (ev : Event) :
  saveStateToHistory (step s ev)
  = Debounce.run saveDelay (toDebounce ev) (saveStateToHistory s).
Proof.
  destruct ev as [now ps|now id| | |ps]; try done.
  simpl. unfold Debounce.fire. by destruct (Debounce.due _ _ _).
Qed.

Lemma saveStateToHistory_run (evs : list Event) (s : Page.t) :
  saveStateToHistory (run evs s)
  = Debounce.run saveDelay (evs ≫= toDebounce) (saveStateToHistory s).
Proof.
  unfold run. revert s. induction evs as [|ev evs IH]; intros s; [done|].
  cbn [foldl mbind list_bind]. rewrite IH, saveStateToHistory_step.
  unfold Debounce.run. by rewrite foldl_app.
Qed.

Lemma historyManager_changes (burst : list (Z * Prompts)) (s : Page.t) :
  historyManager (run ((λ c, PromptsChanged c.1 c.2) <$> burst) s) = historyManager s.
Proof.
  unfold run. revert s. induction burst as [|c burst IH]; intros s; [done|].
  cbn [foldl fmap list_fmap]. by rewrite IH.
Qed.

Lemma run_ops (ops : list (HistoryManager.Op Prompts)) (s : Page.t) :
  run (ofOp <$> ops) s
  = mk (saveStateToHistory s) (foldl HistoryManager.apply (historyManager s) ops).
Proof.
  unfold run. revert s. induction ops as [|op ops IH]; intros s; [by destruct s|].
  cbn [foldl fmap list_fmap]. rewrite IH. by destruct op.
Qed.

(** X7. A burst of prompt changes saves one state, the last: while the changes
    come in the history is untouched; when the timer of the last change
    runs, half a second after it or later, that change's prompts are added
    to the history as it is then, after whatever undo, redo or preset load
    happened in between; and no save is left pending. *)
Theorem history_saved_once_per_burst (initialPrompts : Prompts) (evs : list Event)
    (burst : list (Z * Prompts)) (ops : list (HistoryManager.Op Prompts))
    (t : Z) (prompts : Prompts) (now : Z) :
  last burst = Some (t, prompts) → t + 500 ≤ now →
  let s0 := run evs (main initialPrompts) in
  let s1 := run ((λ c, PromptsChanged c.1 c.2) <$> burst) s0 in
  let s2 := run (ofOp <$> ops) s1 in
  historyManager s1 = historyManager s0 ∧
  historyManager s2 = foldl HistoryManager.apply (historyManager s0) ops ∧
  ∃ id,
    Debounce.timeoutId (saveStateToHistory s2) = Some id ∧
    let s3 := step s2 (SaveTimer now id) in
    historyManager s3 = HistoryManager.addState prompts (historyManager s2) ∧
    Debounce.timers (saveStateToHistory s3) = [] ∧
    ∀ now' id', step s3 (SaveTimer now' id') = s3.
Proof.
  intros Hlast Hnow s0 s1 s2.
  assert (H1 : historyManager s1 = historyManager s0) by apply historyManager_changes.
  assert (H2 : s2 = mk (saveStateToHistory s1)
                       (foldl HistoryManager.apply (historyManager s0) ops)).
  { unfold s2. by rewrite run_ops, H1. }
  split; [exact H1|]. split; [by rewrite H2|].
  assert (Hs0 : saveStateToHistory s0
                = Debounce.run saveDelay (evs ≫= toDebounce) Debounce.create).
  { unfold s0. by rewrite saveStateToHistory_run. }
  assert (Hs1 : saveStateToHistory s1
                = Debounce.run saveDelay ((λ c, Debounce.Call c.1 c.2) <$> burst)
                    (Debounce.run saveDelay (evs ≫= toDebounce) Debounce.create)).
  { unfold s1. rewrite saveStateToHistory_run, Hs0. f_equal.
    clear. induction burst as [|c burst IH]; [done|].
    by rewrite !fmap_cons, bind_cons, IH. }
  destruct (fire_after_burst saveDelay (evs ≫= toDebounce) burst t prompts now Hlast Hnow)
    as (id & Hid & Htimers & _ & Hdue & _ & Hfired).
  rewrite <- Hs1 in Hid, Htimers, Hdue, Hfired.
  exists id. rewrite H2. cbn [saveStateToHistory historyManager step].
  split; [exact Hid|]. rewrite Hdue. cbn [saveStateToHistory historyManager].
  split; [done|]. split; [exact Hfired|].
  intros now' id'. cbn [step saveStateToHistory].
  unfold Debounce.due at 1. by rewrite Hfired.
Qed.

End PageHistory.

Lemma history_saved_once_per_burst_witness :
  let first := [("prompt-5"%string, muted)] in
  let second := [("prompt-5"%string, funk)] in
  let s1 := Page.run [Page.PromptsChanged 0 first; Page.PromptsChanged 100 second]
              (Page.main []) in
  Page.historyManager s1 = Page.historyManager (Page.main []) ∧
  ∃ id,
    Debounce.timeoutId (Page.saveStateToHistory s1) = Some id ∧
    Page.historyManager (Page.step s1 (Page.SaveTimer 600 id))
    = HistoryManager.addState second (Page.historyManager s1).
Proof.
  intros first second s1.
  destruct (history_saved_once_per_burst [] [] [(0, first); (100, second)] []
              100 second 600) as (H1 & _ & id & Hid & Hsaved & _).
  - reflexivity.
  - lia.
  - split; [exact H1|]. exists id. split; [exact Hid|exact Hsaved].
Defined.

(** ** The level meter *)

Section Analyser.
Import AudioAnalyser.
Implicit Types (a : AudioAnalyser.t) (evs : list Event).

Lemma single_request a : single a → requests a = [] → rafId a = None → single (request a).
Proof.
  intros (Hpos & _) Hreq Hraf. split; [simpl; lia|]. right.
  exists (nextHandle a). simpl. rewrite Hreq. split; [done|]. split; [done|lia].
Qed.

Lemma single_step a ev : single a → single (step a ev).
Proof.
  intros Ha. pose proof Ha as (Hpos & [[Hraf Hreq]|(id & Hraf & Hreq & Hid)]).
  - assert (Hstart : single (start a)).
    { unfold start. rewrite Hraf. by apply single_request. }
    assert (Hstop : single (stop a)).
    { unfold stop. by rewrite Hraf. }
    destruct ev as [| |id data|state]; cbn [step]; try done.
    + unfold frame. rewrite Hreq. rewrite decide_False by set_solver. done.
    + unfold onPlaybackStateChanged. by case_decide.
  - assert (Hstart : single (start a)).
    { unfold start. by rewrite Hraf. }
    assert (Hstop : single (stop a)).
    { unfold stop. rewrite Hraf. rewrite decide_False by lia.
      split; [done|]. left. simpl. rewrite Hreq.
      by rewrite filter_cons_False by (simpl; congruence). }
    destruct ev as [| |id' data|state]; cbn [step]; try done.
    + unfold frame. rewrite Hreq. case_decide as Hin; [|done].
      apply list_elem_of_singleton in Hin as ->.
      rewrite filter_cons_False by (simpl; congruence). simpl.
      unfold loop. cbn [rafId requests nextHandle updates].
      split; [simpl; lia|]. right. exists (nextHandle a). simpl. split; [done|].
      split; [done|lia].
    + unfold onPlaybackStateChanged. by case_decide.
Qed.

Lemma single_run evs : single (run evs create).
Proof.
  induction evs as [|ev evs IH] using rev_ind.
  - split; [simpl; lia|]. by left.
  - unfold run. rewrite foldl_app. by apply single_step.
Qed.

(** X8. Whatever the order of [start()], [stop()] and animation frames, the
    analyser is either idle, with no frame requested, or has exactly one
    request pending, the one [rafId] holds: [start()] never starts a second
    loop and [stop()] leaves none behind. *)
Theorem analyser_single_loop evs :
  let a := run evs create in
  (rafId a = None ∧ requests a = []) ∨
  (∃ id, rafId a = Some id ∧ requests a = [id] ∧ id ≠ 0%nat).
Proof.
  destruct (single_run evs) as (_ & [?|(id & ? & ? & ?)]); [by left|].
  right. exists id. split; [done|]. split; [done|lia].
Qed.

Lemma statesOf_snoc evs ev :
  statesOf (evs ++ [ev])
  = statesOf evs ++ match ev with StateChanged s => [s] | _ => [] end.
Proof. unfold statesOf. rewrite omap_app. by destruct ev. Qed.

(** X9. Driven by the listener of [index.tsx] alone, the analyser has a frame
    requested exactly when the last playback state announced is [playing];
    before any announcement it is idle. *)
Theorem analyser_follows_playback evs :
  Forall (λ ev, ev ≠ Start ∧ ev ≠ Stop) evs →
  let a := run evs create in
  requests a ≠ [] ↔ last (statesOf evs) = Some playing.
Proof.
  induction evs as [|ev evs IH] using rev_ind; intros Hevs; [done|].
  apply Forall_app in Hevs as [Hevs Hev]. apply Forall_singleton in Hev as [Hs Hp].
  specialize (IH Hevs). cbv zeta in *. unfold run in *. rewrite foldl_app. cbn [foldl].
  pose proof (single_run evs) as Hsingle. unfold run in Hsingle.
  set (a := foldl step create evs) in *.
  pose proof (single_step a ev Hsingle) as Hnext.
  rewrite statesOf_snoc.
  destruct ev as [| |id data|state]; try done; cbn [step] in *.
  - rewrite app_nil_r, <- IH.
    destruct Hsingle as (_ & [[Hraf Hreq]|(id' & Hraf & Hreq & Hid)]).
    + unfold frame. rewrite Hreq. by rewrite decide_False by set_solver.
    + destruct Hnext as (_ & [[_ Hreq']|(id'' & _ & Hreq' & _)]).
      * unfold frame in Hreq' |- *. rewrite Hreq in Hreq' |- *.
        case_decide as Hin; [|by rewrite Hreq in Hreq'].
        exfalso. unfold loop, request in Hreq'. simpl in Hreq'.
        by destruct (filter _ _).
      * rewrite Hreq', Hreq. done.
  - rewrite last_snoc. unfold onPlaybackStateChanged in *.
    destruct Hsingle as (_ & [[Hraf Hreq]|(id' & Hraf & Hreq & Hid)]).
    + case_decide as Hst.
      * subst. unfold start. rewrite Hraf. unfold request. simpl.
        split; [done|]. intros _. by destruct (requests a).
      * unfold stop. rewrite Hraf, Hreq. split; [done|]. by intros [= ->].
    + case_decide as Hst.
      * subst. unfold start. rewrite Hraf, Hreq. done.
      * unfold stop. rewrite Hraf, decide_False by lia. simpl. rewrite Hreq.
        rewrite filter_cons_False by (simpl; congruence). simpl.
        split; [done|]. by intros [= ->].
Qed.

Lemma foldl_add_bounds (freqData : list Z) (acc : Z) :
  Forall (λ b, 0 ≤ b ≤ 255) freqData →
  acc ≤ foldl (λ x y, x + y) acc freqData ≤ acc + 255 * Z.of_nat (length freqData).
Proof.
  revert acc. induction freqData as [|b l IH]; intros acc Hall; [simpl; lia|].
  apply Forall_cons in Hall as [Hb Hl]. specialize (IH (acc + b) Hl).
  cbn [foldl length]. lia.
Qed.

(** X10. On the bytes of a non-empty frequency array, the level is a number
    between 0 and 1. *)
Theorem analyser_level_range (freqData : list Z) :
  freqData ≠ [] → Forall (λ b, 0 ≤ b ≤ 255) freqData →
  ∃ l, level freqData = Some l ∧ (0 ≤ l)%Qc ∧ (l ≤ qz 1)%Qc.
Proof.
  intros Hne Hall. unfold level.
  rewrite decide_False by (by destruct freqData).
  eexists. split; [done|].
  pose proof (foldl_add_bounds freqData 0 Hall) as Hsum.
  set (sum := foldl _ 0 freqData) in *.
  assert (Hlen : 0 < Z.of_nat (length freqData)) by (destruct freqData; [done|simpl; lia]).
  set (n := Z.of_nat (length freqData)) in *.
  destruct (Qcdiv_range (qz sum) (qz n) (qz 255)) as [Hlo Hhi].
  - change (qz 0 ≤ qz sum)%Qc. apply qz_le. lia.
  - rewrite qz_mul. apply qz_le. lia.
  - change (qz 0 < qz n)%Qc. by apply qz_lt.
  - apply Qcdiv_range; [done| |done].
    by replace (qz 1 * qz 255)%Qc with (qz 255) by by apply Qc_is_canon.
Qed.

End Analyser.

Lemma analyser_follows_playback_witness :
  let evs := [AudioAnalyser.StateChanged loading; AudioAnalyser.StateChanged playing;
              AudioAnalyser.Frame 1 [0; 255]; AudioAnalyser.StateChanged paused;
              AudioAnalyser.Frame 2 [0; 255]] in
  AudioAnalyser.requests (AudioAnalyser.run evs AudioAnalyser.create) ≠ [] ↔
  last (AudioAnalyser.statesOf evs) = Some playing.
Proof.
  intros evs. apply analyser_follows_playback.
  repeat (apply Forall_cons; split; [split; discriminate|]). apply Forall_nil_2.
Defined.

Lemma analyser_level_range_witness :
  ∃ l, AudioAnalyser.level [0; 255; 128] = Some l ∧ (0 ≤ l)%Qc ∧ (l ≤ qz 1)%Qc.
Proof.
  apply analyser_level_range; [discriminate|].
  repeat (apply Forall_cons; split; [lia|]). apply Forall_nil_2.
Defined.

(** ** What a method may do to the engine *)

Lemma extends_refl (now : Qc) (e : Engine) : extends now e e.
Proof. split; [done|]. split; [done|]. exists []. by rewrite app_nil_r. Qed.

Lemma extends_trans (now : Qc) (e1 e2 e3 : Engine) :
  extends now e1 e2 → extends now e2 e3 → extends now e1 e3.
Proof.
  intros (Hf1 & Hp1 & n1 & Ht1 & Hn1) (Hf2 & Hp2 & n2 & Ht2 & Hn2).
  split; [congruence|]. split; [intros n Hn; rewrite Hp2, Hp1; done|].
  exists (n1 ++ n2). rewrite Ht2, Ht1, app_assoc. split; [done|].
  apply Forall_app. split; [done|]. by rewrite <- Hf1.
Qed.

Lemma extends_same (now : Qc) (e e' : Engine) :
  filteredPrompts e' = filteredPrompts e → params e' = params e → trace e' = trace e →
  extends now e e'.
Proof.
  intros Hf Hp Ht. split; [done|]. split; [by rewrite Hp|].
  exists []. by rewrite app_nil_r.
Qed.

Lemma extends_emit (now : Qc) (x : Effect) (e : Engine) :
  okEffect (filteredPrompts e) now x → extends now e (emit x e).
Proof.
  intros Hx. split; [done|]. split; [done|]. exists [x]. split; [done|].
  by apply Forall_singleton.
Qed.

Lemma extends_dispatchEvent (now : Qc) (ev : EngineEvent) (e : Engine) :
  extends now e (dispatchEvent ev e).
Proof. by apply extends_emit. Qed.

Lemma extends_schedule (now : Qc) (ev : ParamEvent) (e : Engine) :
  extends now e (schedule OutputNodeGain ev e).
Proof.
  split; [done|]. split.
  - intros name Hname. by apply params_schedule_ne.
  - exists []. by rewrite app_nil_r.
Qed.

Lemma extends_sessionCall (now : Qc) (s : LiveMusicSession) (call : SessionCall)
    (e : Engine) :
  (∀ ps, call ≠ SessionSetWeightedPrompts ps) → extends now e (sessionCall s call e).
Proof.
  intros Hcall. destruct s as [id|]; [|apply extends_refl].
  apply extends_emit. by destruct call; [..|destruct (Hcall weightedPrompts)].
Qed.

Create HintDb ext discriminated.

#[local] Hint Resolve extends_refl extends_dispatchEvent extends_schedule : ext.
#[local] Hint Extern 1 (extends _ ?x (sessionCall _ _ ?x)) =>
  apply extends_sessionCall; intros; discriminate : ext.
#[local] Hint Extern 5 (extends _ ?x (_ ?x)) =>
  apply extends_same; reflexivity : ext.

(** Peels the calls of a method one by one. *)
Ltac ext :=
  lazymatch goal with
  | |- extends _ ?e ?e => apply extends_refl
  | |- extends _ ?e (if ?c then _ else _) => destruct c eqn:?; ext
  | |- extends _ ?e (match ?c with _ => _ end) => destruct c eqn:?; ext
  | |- extends ?now ?e (?f ?x) =>
      first [ solve [auto with ext]
            | apply (extends_trans now e x (f x)); [ext|solve [auto with ext]] ]
  end.

Lemma extends_setPlaybackState (now : Qc) (state : PlaybackState) (e : Engine) :
  extends now e (setPlaybackState state e).
Proof. unfold setPlaybackState. ext. Qed.
#[local] Hint Resolve extends_setPlaybackState : ext.

Lemma extends_mapPlayers (now : Qc) f (e : Engine) : extends now e (mapPlayers f e).
Proof. by apply extends_same. Qed.
#[local] Hint Resolve extends_mapPlayers : ext.

Lemma extends_pause (now t : Qc) (e : Engine) : extends now e (pause t e).
Proof. unfold pause. cbv zeta. ext. Qed.
#[local] Hint Resolve extends_pause : ext.

Lemma extends_stop (now t : Qc) (e : Engine) : extends now e (stop t e).
Proof. unfold stop. cbv zeta. ext. Qed.
#[local] Hint Resolve extends_stop : ext.

Lemma okEffect_activePrompts (now : Qc) (id : nat) (e : Engine) :
  length (activePrompts e) ≠ 0%nat →
  okEffect (filteredPrompts e) now
    (SessionCalled id (SessionSetWeightedPrompts (activePrompts e))).
Proof.
  intros Hlen. split; [by destruct (activePrompts e)|].
  apply Forall_forall. intros p Hp. unfold activePrompts in Hp.
  apply list_elem_of_filter in Hp as [[Hf Hw] _]. done.
Qed.

Lemma extends_deliverPrompts (now t : Qc) (ps : list (string * Prompt)) (e : Engine) :
  extends now e (deliverPrompts t ps e).1.
Proof.
  unfold deliverPrompts. cbv zeta.
  apply (extends_trans now e (with_prompts ps e)); [by apply extends_same|].
  set (e1 := with_prompts ps e).
  destruct (isFallbackMode e1).
  - destruct (mixFallback _ _) as [players ok]. cbn [fst]. by apply extends_same.
  - destruct (decide (length (activePrompts e1) = 0%nat)) as [Hz|Hnz]; cbn [fst].
    + ext.
    + destruct (session e1) as [[id|]|]; cbn [fst]; try apply extends_refl.
      apply extends_emit. by apply okEffect_activePrompts.
Qed.

Lemma extends_play_liveTail (now t : Qc) (e : Engine) : extends now e (play_liveTail t e).
Proof. unfold play_liveTail. ext. Qed.
#[local] Hint Resolve extends_play_liveTail : ext.

Lemma extends_resume_afterDelivery (now t : Qc) (k : AfterDelivery) (e : Engine) :
  extends now e (resume_afterDelivery k t e).
Proof. unfold resume_afterDelivery. ext. Qed.
#[local] Hint Resolve extends_resume_afterDelivery : ext.

Lemma extends_suspend (now : Qc) (k : Suspended) (e : Engine) :
  extends now e (suspend k e).
Proof. by apply extends_same. Qed.
#[local] Hint Resolve extends_suspend : ext.

Lemma extends_setWeightedPrompts (now t : Qc) (gate : bool)
    (ps : list (string * Prompt)) (k : AfterDelivery) (e : Engine) :
  extends now e (setWeightedPrompts t gate ps k e).
Proof.
  unfold setWeightedPrompts. destruct gate; [|ext].
  pose proof (extends_deliverPrompts now t ps e) as Hd.
  destruct (deliverPrompts t ps e) as [e1 []]; cbn [fst] in Hd; [|done|].
  - eapply extends_trans; [exact Hd|ext].
  - eapply extends_trans; [exact Hd|ext].
Qed.
#[local] Hint Resolve extends_setWeightedPrompts : ext.

Lemma extends_play_afterSession (now t : Qc) (gate : bool) (s : LiveMusicSession)
    (e : Engine) :
  extends now e (play_afterSession t gate s e).
Proof.
  unfold play_afterSession. cbv zeta.
  apply (extends_trans now e (with_session (Some s) e)); [by apply extends_same|].
  set (e1 := with_session (Some s) e). ext.
Qed.
#[local] Hint Resolve extends_play_afterSession : ext.

Lemma extends_play_afterPlayers (now t : Qc) (gate : bool) (e : Engine) :
  extends now e (play_afterPlayers t gate e).
Proof. unfold play_afterPlayers. ext. Qed.
#[local] Hint Resolve extends_play_afterPlayers : ext.

Lemma extends_play (now t : Qc) (gate : bool) (e : Engine) :
  extends now e (play t gate e).
Proof.
  unfold play. cbv zeta.
  set (e1 := connectAudioGraph (setPlaybackState loading e)).
  assert (H1 : extends now e e1) by (unfold e1, connectAudioGraph; ext).
  assert (H2 : extends now e1 (getSession e1).2).
  { unfold getSession. destruct (sessionPromise e1); cbn [snd]; ext. }
  destruct (getSession e1) as [p e2]. cbn [snd] in H2.
  eapply extends_trans; [exact H1|]. eapply extends_trans; [exact H2|]. ext.
Qed.
#[local] Hint Resolve extends_play : ext.

Lemma extends_playPause (now t : Qc) (gate : bool) (e : Engine) :
  extends now e (playPause t gate e).
Proof. unfold playPause. ext. Qed.

Lemma extends_processAudioChunks (now : Qc) (chunks : list AudioChunk) (e : Engine) :
  extends now e (processAudioChunks chunks e).
Proof. unfold processAudioChunks. ext. Qed.

Lemma extends_processAudioChunks_decoded (now : Qc) (buf : AudioBuffer) (e : Engine) :
  extends now e (processAudioChunks_decoded now buf e).
Proof.
  unfold processAudioChunks_decoded. cbv zeta.
  set (e1 := if isRecording e then _ else e).
  assert (H1 : extends now e e1) by (unfold e1; ext).
  set (e2 := if decide (nextStartTime e1 = 0%Qc) then _ else e1).
  assert (H2 : extends now e1 e2) by (unfold e2; ext).
  eapply extends_trans; [exact H1|]. eapply extends_trans; [exact H2|].
  destruct (decide (nextStartTime e2 < now)%Qc) as [Hlt|Hge]; [ext|].
  apply (extends_trans now e2 (emit (SourceStarted buf (nextStartTime e2)) e2)).
  - apply extends_emit. simpl. by apply Qcnot_lt_le.
  - by apply extends_same.
Qed.

Lemma extends_startRecording (now : Qc) (e : Engine) : extends now e (startRecording e).
Proof. unfold startRecording. cbv zeta. ext. Qed.

Lemma extends_stopRecordingAndDownload (now : Qc) (e : Engine) :
  extends now e (stopRecordingAndDownload e).
Proof.
  unfold stopRecordingAndDownload, downloadBlob. cbv zeta.
  destruct (negb (isRecording e)); [apply extends_refl|].
  set (e1 := dispatchEvent _ (with_isRecording false e)).
  assert (H1 : extends now e e1) by (unfold e1; ext).
  eapply extends_trans; [exact H1|].
  destruct (decide _); [ext|].
  destruct (_ ≫= _) as [wav|].
  - apply (extends_trans now e1 (emit (Downloaded "lutox-oscillia-creation.wav" wav) e1));
      [by apply extends_emit|by apply extends_same].
  - ext.
Qed.

Lemma extends_initializeFallbackPlayers (now : Qc) (e : Engine) :
  extends now e (initializeFallbackPlayers e).
Proof.
  unfold initializeFallbackPlayers. generalize FALLBACK_AUDIO_MAP. intros l.
  induction l as [|[k v] l IH] using rev_ind; [apply extends_refl|].
  rewrite foldl_app. cbn [foldl]. eapply extends_trans; [exact IH|].
  by apply extends_same.
Qed.
#[local] Hint Resolve extends_initializeFallbackPlayers : ext.

Lemma extends_connect_settled (now : Qc) (outcome : option nat) (e : Engine) :
  extends now e (connect_settled outcome e).2.
Proof. unfold connect_settled. destruct outcome; cbn [snd]; cbv zeta; ext. Qed.

Lemma extends_foldl_play_afterSession (now t : Qc) (gate : bool) (s : LiveMusicSession)
    (waiting : list Suspended) (e : Engine) :
  extends now e (foldl (λ e _, play_afterSession t gate s e) e waiting).
Proof.
  revert e. induction waiting as [|k waiting IH]; intros e; [apply extends_refl|].
  cbn [foldl]. eapply extends_trans; [|apply IH]. ext.
Qed.

Section Steps.
Variable decodeAudioData : AudioChunk → option AudioBuffer.

Lemma extends_step (t : Turn) (e : Engine) :
  ¬ isKnob (input t) → (∀ x, input t ≠ OnFilteredPrompt x) →
  extends (now t) e (step decodeAudioData t e).
Proof.
  intros Hknob Hfilt. unfold step.
  destruct (input t) as [| | | |ps| | |a|a|a|a|p outcome| |failure|from chunks| |x|m|];
    try (by destruct Hknob); try (by destruct (Hfilt x)).
  - auto with ext.
  - auto with ext.
  - auto with ext.
  - apply extends_playPause.
  - auto with ext.
  - apply extends_startRecording.
  - apply extends_stopRecordingAndDownload.
  - destruct (decide _); [|apply extends_refl].
    pose proof (extends_connect_settled (now t) outcome e) as Hc.
    destruct (connect_settled outcome e) as [s e1]. cbn [snd] in Hc. cbv zeta.
    eapply extends_trans; [exact Hc|].
    eapply extends_trans; [|apply extends_foldl_play_afterSession].
    apply (extends_trans _ _ (with_settled (<[p:=s]> (settled e1)) e1));
      by apply extends_same.
  - destruct (takeFirst _ _) as [[[] rest]|]; [|apply extends_refl].
    eapply extends_trans; [|apply extends_play_afterPlayers]. by apply extends_same.
  - destruct (takeFirst _ _) as [[k rest]|]; [|apply extends_refl]. cbv zeta.
    eapply extends_trans; [|apply extends_resume_afterDelivery].
    apply (extends_trans _ _ (with_suspended rest e)); [by apply extends_same|].
    destruct failure; ext.
  - apply extends_processAudioChunks.
  - destruct (takeFirst _ _) as [[chunk rest]|]; [|apply extends_refl]. cbv zeta.
    apply (extends_trans _ _ (with_suspended rest e)); [by apply extends_same|].
    destruct (decodeAudioData chunk); [|apply extends_refl].
    apply extends_processAudioChunks_decoded.
  - ext.
  - destruct (timers e); ext.
Qed.

Lemma step_knob (t : Turn) (e : Engine) :
  isKnob (input t) →
  filteredPrompts (step decodeAudioData t e) = filteredPrompts e ∧
  trace (step decodeAudioData t e) = trace e ∧
  ∀ name,
    params (step decodeAudioData t e) name
    = match find (λ nv, bool_decide (nv.1 = name)) (knobTargets (input t)) with
      | Some (_, v) =>
          mkParam (value (params e name))
            (automation (params e name)
               ++ [LinearRampToValueAtTime v (now t + qfrac 5 100)])
      | None => params e name
      end.
Proof.
  intros Hknob. unfold step, isKnob in *.
  destruct (input t); try done; (split; [done|]; split; [done|]); intros name;
    unfold setDistortion, setDelay, setReverb, setMasterVolume, rampTo, schedule;
    cbn [params with_params knobTargets find fst];
    repeat case_bool_decide; subst;
    rewrite ?fn_lookup_insert, ?fn_lookup_insert_ne by done; done.
Qed.

(** Every step only adds to the trace and to the filtered texts; what it
    adds to the trace is in order. *)
Lemma step_effects (t : Turn) (e : Engine) :
  filteredPrompts e ⊆ filteredPrompts (step decodeAudioData t e) ∧
  ∃ new, trace (step decodeAudioData t e) = trace e ++ new ∧
         Forall (okEffect (filteredPrompts e) (now t)) new.
Proof.
  destruct (decide (isKnob (input t))) as [Hknob|Hknob].
  { destruct (step_knob t e Hknob) as (-> & -> & _). split; [done|].
    exists []. by rewrite app_nil_r. }
  destruct (input t) as [| | | |ps| | |a|a|a|a|p outcome| |failure|from chunks| |x|m|] eqn:Hin.
  17: { unfold step. rewrite Hin. split; [set_solver|].
        exists [Dispatched (FilteredPromptEvent x)]. split; [done|].
        by apply Forall_singleton. }
  all: destruct (extends_step t e) as (-> & _ & Hnew);
    [by rewrite Hin|intros x'; by rewrite Hin|done].
Qed.

End Steps.

Section Runs.
Variable decodeAudioData : AudioChunk → option AudioBuffer.

Lemma okEffect_mono (F F' : gset string) (now : Qc) (x : Effect) :
  F ⊆ F' → okEffect F' now x → okEffect F now x.
Proof.
  intros HF. destruct x as [| |id [| | |ps]|]; try done.
  intros [Hne Hall]. split; [done|]. eapply Forall_impl; [exact Hall|].
  intros p [Hw Ht]. split; [done|]. set_solver.
Qed.

Lemma sentPrompts_app (e e' : Engine) (new : list Effect) (F : gset string) (now : Qc) :
  trace e' = trace e ++ new → Forall (okEffect F now) new →
  ∃ sent,
    sentPrompts e' = sentPrompts e ++ sent ∧
    Forall (λ ps, ps ≠ [] ∧ Forall (λ p, weight p ≠ 0%Qc ∧ text p ∉ F) ps) sent.
Proof.
  intros Ht Hnew. unfold sentPrompts. rewrite Ht, omap_app. eexists. split; [done|].
  clear Ht. induction Hnew as [|x new Hx Hnew IH]; [done|].
  destruct x as [| |id [| | |ps]|]; try exact IH. by apply Forall_cons.
Qed.

(** X11. Once a text is in the filtered set, no prompt with that text is handed
    to the backend again. From any state on and whatever happens, the
    filtered set only grows, and every list of prompts the engine sends
    holds at least one prompt, and only prompts with a weight other than 0
    whose text was not in the filtered set of that state. *)
Theorem never_sends_inactive_prompts (turns : list Turn) (e : Engine) :
  let e' := run decodeAudioData turns e in
  filteredPrompts e ⊆ filteredPrompts e' ∧
  ∃ sent,
    sentPrompts e' = sentPrompts e ++ sent ∧
    Forall (λ ps, ps ≠ [] ∧
                  Forall (λ p, weight p ≠ 0%Qc ∧ text p ∉ filteredPrompts e) ps) sent.
Proof.
  induction turns as [|t turns IH] using rev_ind.
  { split; [done|]. exists []. by rewrite app_nil_r. }
  cbv zeta in *. unfold run in *. rewrite foldl_app. cbn [foldl].
  set (e1 := foldl (λ e t, step decodeAudioData t e) e turns) in *.
  destruct IH as (Hsub & sent & Hsent & Hall).
  destruct (step_effects decodeAudioData t e1) as (Hsub' & new & Hnew & Hok).
  split; [set_solver|].
  destruct (sentPrompts_app e1 _ new (filteredPrompts e) (now t) Hnew) as (sent' & Hs' & Hall').
  { eapply Forall_impl; [exact Hok|]. intros x. by apply okEffect_mono. }
  exists (sent ++ sent'). rewrite Hs', Hsent, app_assoc. split; [done|].
  by apply Forall_app.
Qed.

(** X12. No step of the engine starts a source in the past: the buffers a step
    hands to [source.start] start at the time of the step or later. *)
Theorem never_starts_in_the_past (t : Turn) (e : Engine) :
  ∃ new,
    scheduled (step decodeAudioData t e) = scheduled e ++ new ∧
    Forall (λ bw, (now t ≤ bw.2)%Qc) new.
Proof.
  destruct (step_effects decodeAudioData t e) as (_ & new & Hnew & Hok).
  unfold scheduled. rewrite Hnew, omap_app. eexists. split; [done|].
  clear Hnew. induction Hok as [|x new' Hx Hok IH]; [done|].
  destruct x as [|b w| |]; try exact IH. by apply Forall_cons.
Qed.

Lemma targetsOf_snoc (name : ParamName) (turns : list Turn) (t : Turn) :
  targetsOf name (turns ++ [t])
  = targetsOf name turns
    ++ match find (λ nv, bool_decide (nv.1 = name)) (knobTargets (input t)) with
       | Some (_, v) => [v]
       | None => []
       end.
Proof.
  unfold targetsOf. rewrite omap_app. f_equal. simpl.
  by destruct (find _ _) as [[]|].
Qed.

(** X13. The effect parameters follow their setters and nothing else: whatever
    happens to the engine, a parameter other than the output gain rests at
    the value the last setter call aimed it at, and where it was when no
    setter was called. [setDelay] aims the feedback gain at 0.7 times its
    amount. *)
Theorem effect_parameters_follow_setters (name : ParamName) (turns : list Turn)
    (e : Engine) :
  name ≠ OutputNodeGain →
  settledValue (params (run decodeAudioData turns e) name)
  = match last (targetsOf name turns) with
    | Some v => Some v
    | None => settledValue (params e name)
    end.
Proof.
  intros Hname. induction turns as [|t turns IH] using rev_ind; [done|].
  unfold run in *. rewrite foldl_app. cbn [foldl].
  set (e1 := foldl (λ e t, step decodeAudioData t e) e turns) in *.
  rewrite targetsOf_snoc.
  destruct (decide (isKnob (input t))) as [Hknob|Hknob].
  - destruct (step_knob decodeAudioData t e1 Hknob) as (_ & _ & Hp). rewrite Hp.
    destruct (find _ _) as [[n v]|].
    + rewrite last_snoc. unfold settledValue. cbn [automation]. by rewrite last_snoc.
    + by rewrite app_nil_r.
  - assert (Hnone : knobTargets (input t) = []).
    { unfold isKnob in Hknob. by destruct (knobTargets (input t)); [|destruct Hknob]. }
    rewrite Hnone. cbn [find]. rewrite app_nil_r, <- IH. f_equal.
    destruct (input t) as [| | | | | | | | | | | | | | | |x| |] eqn:Hin.
    17: { unfold step. by rewrite Hin. }
    all: destruct (extends_step decodeAudioData t e1) as (_ & Hp & _);
      [by rewrite Hin|intros x'; by rewrite Hin|by apply Hp].
Qed.

End Runs.

Lemma effect_parameters_follow_setters_witness :
  let turns := [at_ 1 (CallSetDelay (qfrac 1 2)); at_ 2 CallPlay;
                at_ 3 (CallSetReverb (qfrac 1 4)); at_ 4 CallStop] in
  settledValue (params (run silentDecoder turns constructor) DelayFeedbackGain)
  = Some (qfrac 1 2 * qfrac 7 10)%Qc.
Proof.
  intros turns.
  exact (effect_parameters_follow_setters silentDecoder DelayFeedbackGain turns
           constructor ltac:(discriminate)).
Defined.

(** ** Streams of decoded buffers *)



(** The first buffer after a reset of the horizon. *)
Lemma processAudioChunks_decoded_first (now : Qc) (buf : AudioBuffer) (e : Engine) :
  nextStartTime e = 0%Qc → (0 ≤ now)%Qc →
  processAudioChunks_decoded now buf e
  = with_nextStartTime (now + bufferTime + duration buf)%Qc
      (emit (SourceStarted buf (now + bufferTime)%Qc)
         (with_timers (S (timers e))
            (with_nextStartTime (now + bufferTime)%Qc
               (if isRecording e
                then with_recordedBuffers (recordedBuffers e ++ [buf]) e
                else e)))).
Proof.
  intros Hz Hnow. unfold processAudioChunks_decoded. cbv zeta.
  set (e1 := if isRecording e then _ else e).
  assert (H1 : nextStartTime e1 = 0%Qc) by (unfold e1; by destruct (isRecording e)).
  assert (Ht : timers e1 = timers e) by (unfold e1; by destruct (isRecording e)).
  rewrite (decide_True (P := nextStartTime e1 = 0%Qc)) by done.
  rewrite decide_False.
  - clearbody e1. cbn [nextStartTime emit with_trace with_timers with_nextStartTime].
    by rewrite Ht.
  - cbn [nextStartTime with_timers with_nextStartTime]. apply Qcle_not_lt.
    by apply Qcle_plus_nonneg.
Qed.



(** ** Recording a stream *)

Lemma processAudioChunks_decoded_recorder (now : Qc) (buf : AudioBuffer) (e : Engine) :
  let e' := processAudioChunks_decoded now buf e in
  isRecording e' = isRecording e ∧
  recordedBuffers e'
  = (if isRecording e then recordedBuffers e ++ [buf] else recordedBuffers e) ∧
  downloads e' = downloads e ∧ errors e' = errors e.
Proof.
  unfold processAudioChunks_decoded, downloads, errors, setPlaybackState, dispatchEvent,
    emit. cbv zeta.
  destruct (isRecording e) eqn:Hrec; repeat case_decide;
    cbn [isRecording recordedBuffers trace with_recordedBuffers with_timers
         with_nextStartTime with_trace with_playbackState];
    rewrite ?omap_app, ?Hrec; cbn [omap list_omap]; rewrite ?app_nil_r; done.
Qed.

Lemma feed_recorder (arrivals : list (Qc * AudioBuffer)) (e : Engine) :
  let e' := feed arrivals e in
  isRecording e' = isRecording e ∧
  recordedBuffers e'
  = (if isRecording e then recordedBuffers e ++ arrivals.*2 else recordedBuffers e) ∧
  downloads e' = downloads e ∧ errors e' = errors e.
Proof.
  revert e. induction arrivals as [|[now b] arrivals IH]; intros e.
  { cbn. rewrite app_nil_r. by destruct (isRecording e). }
  cbn [feed foldl fst snd]. fold (feed arrivals (processAudioChunks_decoded now b e)).
  destruct (processAudioChunks_decoded_recorder now b e) as (Hr & Hb & Hd & He).
  destruct (IH (processAudioChunks_decoded now b e)) as (Hr' & Hb' & Hd' & He').
  cbv zeta. rewrite Hr', Hb', Hd', He', Hr, Hb, Hd, He.
  repeat split. destruct (isRecording e); [|done].
  by rewrite fmap_cons, <- app_assoc.
Qed.

(** X15. A recording, from start to file. Started while the engine is playing or
    loading outside fallback mode, the recorder keeps every decoded buffer
    that comes in, underrun or not, in order; stopping it emits one file,
    the encoding of the buffers end to end, and no error. What an earlier
    recording had left is not in the file. *)
Theorem recording_round_trip (arrivals : list (Qc * AudioBuffer))
    (first : AudioBuffer) (rest : list AudioBuffer) (e : Engine) :
  isFallbackMode e = false →
  playbackState e = playing ∨ playbackState e = loading →
  arrivals.*2 = first :: rest →
  uniform (numberOfChannels first) (first :: rest) →
  let e' := stopRecordingAndDownload (feed arrivals (startRecording e)) in
  ∃ full wav,
    concatenateAudioBuffers (first :: rest) = Some full ∧
    frames full = totalLength (first :: rest) ∧
    (∀ ch, (ch < numberOfChannels first)%nat →
       channelData full !! ch = Some (channelOf ch (first :: rest))) ∧
    audioBufferToWav full = Some wav ∧
    drop 44 wav = pcmData full ∧
    downloads e' = downloads e ++ [wav] ∧
    errors e' = errors e ∧
    isRecording e' = false ∧ recordedBuffers e' = [].
Proof.
  intros Hmode Hstate Hbufs Huni.
  assert (Hstart : startRecording e
                   = dispatchEvent (RecordingStateChanged true)
                       (with_isRecording true (with_recordedBuffers [] e))).
  { unfold startRecording. rewrite Hmode.
    rewrite decide_False; [done|]. intros [? ?]. by destruct Hstate. }
  set (e0 := startRecording e) in *.
  assert (Hr0 : isRecording e0 = true) by by rewrite Hstart.
  assert (Hb0 : recordedBuffers e0 = []) by by rewrite Hstart.
  assert (Hd0 : downloads e0 = downloads e).
  { rewrite Hstart. unfold downloads, dispatchEvent, emit.
    cbn [trace with_trace with_isRecording with_recordedBuffers].
    rewrite omap_app. cbn. by rewrite app_nil_r. }
  assert (He0 : errors e0 = errors e).
  { rewrite Hstart. unfold errors, dispatchEvent, emit.
    cbn [trace with_trace with_isRecording with_recordedBuffers].
    rewrite omap_app. cbn. by rewrite app_nil_r. }
  clearbody e0.
  destruct (feed_recorder arrivals e0) as (Hr1 & Hb1 & Hd1 & He1).
  rewrite Hr0, Hb0, Hbufs in Hb1. cbn [app] in Hb1. rewrite Hr0 in Hr1.
  set (e1 := feed arrivals e0) in *. clearbody e1.
  destruct (concatenateAudioBuffers_content first rest Huni)
    as (full & Hcat & Hframes & _ & _ & Hdata).
  pose proof (audioBufferToWav_layout full) as Hwav.
  eexists full, _. split; [exact Hcat|]. split; [exact Hframes|].
  split; [exact Hdata|]. split; [exact Hwav|].
  split. { apply drop_app_length'. by rewrite length_wavHeader. }
  cbv zeta. rewrite (stopRecordingAndDownload_nonempty e1 first rest Hr1 Hb1).
  rewrite Hcat. cbn [mbind option_bind]. rewrite Hwav.
  unfold downloads, errors. rewrite trace_export_done, !omap_app. cbn.
  rewrite !app_nil_r.
  fold (downloads e1). fold (errors e1). rewrite Hd1, He1, Hd0, He0. done.
Qed.

(** X16. Stopping a recording that holds no buffer reports that nothing was
    recorded and emits no file; and stopping twice is stopping once: the
    second call does nothing. *)
Theorem recording_stop_edge_cases (e : Engine) :
  stopRecordingAndDownload (stopRecordingAndDownload e) = stopRecordingAndDownload e ∧
  (isRecording e = false → stopRecordingAndDownload e = e) ∧
  (isRecording e = true → recordedBuffers e = [] →
     let e' := stopRecordingAndDownload e in
     errors e' = errors e ++ ["Nothing was recorded."%string] ∧
     downloads e' = downloads e ∧ isRecording e' = false).
Proof.
  assert (Hoff : ∀ e0, isRecording e0 = false → stopRecordingAndDownload e0 = e0).
  { intros e0 H0. unfold stopRecordingAndDownload. by rewrite H0. }
  split; [|split; [apply Hoff|]].
  - apply Hoff. unfold stopRecordingAndDownload, downloadBlob.
    destruct (isRecording e) eqn:Hrec; [|done]. cbn [negb]. cbv zeta.
    destruct (decide _); [done|]. by destruct (_ ≫= _).
  - intros Hrec Hnil. unfold stopRecordingAndDownload. rewrite Hrec. cbn [negb].
    cbv zeta. rewrite decide_True by (simpl; by rewrite Hnil).
    unfold errors, downloads, dispatchEvent, emit.
    cbn [trace with_trace with_isRecording isRecording].
    rewrite !omap_app. cbn. by rewrite !app_nil_r.
Qed.


Lemma recording_round_trip_witness :
  let e := with_playbackState playing constructor in
  let arrivals := [(qz 1, twoFrames); (qz 9, twoFrames)] in
  let e' := stopRecordingAndDownload (feed arrivals (startRecording e)) in
  ∃ full wav,
    concatenateAudioBuffers [twoFrames; twoFrames] = Some full ∧
    audioBufferToWav full = Some wav ∧
    downloads e' = downloads e ++ [wav] ∧ errors e' = errors e.
Proof.
  intros e arrivals e'.
  destruct (recording_round_trip arrivals twoFrames [twoFrames] e)
    as (full & wav & Hcat & _ & _ & Hwav & _ & Hd & He & _).
  - reflexivity.
  - left. reflexivity.
  - reflexivity.
  - repeat (apply Forall_cons; split;
            [split; [reflexivity|repeat constructor]|]).
    apply Forall_nil_2.
  - exists full, wav. split; [exact Hcat|]. split; [exact Hwav|]. split; [exact Hd|exact He].
Defined.

(** ** Connections *)

Lemma keeps_refl {A} (view : Engine → A) (e : Engine) : keeps view e e.
Proof. done. Qed.

Lemma keeps_trans {A} (view : Engine → A) (e1 e2 e3 : Engine) :
  keeps view e1 e2 → keeps view e2 e3 → keeps view e1 e3.
Proof. unfold keeps. congruence. Qed.

Create HintDb keep discriminated.

#[local] Hint Resolve keeps_refl : keep.
#[local] Hint Extern 1 (keeps _ ?x (sessionCall ?s _ ?x)) =>
  destruct s; reflexivity : keep.
#[local] Hint Extern 5 (keeps _ ?x (_ ?x)) => reflexivity : keep.

(** Peels the calls of a method one by one. *)
Ltac keep :=
  lazymatch goal with
  | |- keeps _ ?e ?e => apply keeps_refl
  | |- keeps _ ?e (if ?c then _ else _) => destruct c eqn:?; keep
  | |- keeps _ ?e (match ?c with _ => _ end) => destruct c eqn:?; keep
  | |- keeps ?view ?e (?f ?x) =>
      first [ solve [auto with keep]
            | apply (keeps_trans view e x (f x)); [keep|solve [auto with keep]] ]
  end.

Lemma connections_pause (t : Qc) (e : Engine) : keeps connections e (pause t e).
Proof. unfold pause. cbv zeta. keep. Qed.
#[local] Hint Resolve connections_pause : keep.

Lemma connections_deliverPrompts (t : Qc) (ps : list (string * Prompt)) (e : Engine) :
  keeps connections e (deliverPrompts t ps e).1.
Proof.
  unfold deliverPrompts. cbv zeta.
  apply (keeps_trans _ e (with_prompts ps e)); [done|].
  set (e1 := with_prompts ps e).
  destruct (isFallbackMode e1).
  - by destruct (mixFallback _ _) as [players ok].
  - destruct (decide _); cbn [fst]; [keep|].
    by destruct (session e1) as [[id|]|].
Qed.

Lemma connections_play_liveTail (t : Qc) (e : Engine) :
  keeps connections e (play_liveTail t e).
Proof. unfold play_liveTail. keep. Qed.
#[local] Hint Resolve connections_play_liveTail : keep.

Lemma connections_resume_afterDelivery (t : Qc) (k : AfterDelivery) (e : Engine) :
  keeps connections e (resume_afterDelivery k t e).
Proof. unfold resume_afterDelivery. keep. Qed.
#[local] Hint Resolve connections_resume_afterDelivery : keep.

Lemma connections_setWeightedPrompts (t : Qc) (gate : bool)
    (ps : list (string * Prompt)) (k : AfterDelivery) (e : Engine) :
  keeps connections e (setWeightedPrompts t gate ps k e).
Proof.
  unfold setWeightedPrompts. destruct gate; [|keep].
  pose proof (connections_deliverPrompts t ps e) as Hd.
  destruct (deliverPrompts t ps e) as [e1 []]; cbn [fst] in Hd; [|done|].
  - eapply keeps_trans; [exact Hd|keep].
  - eapply keeps_trans; [exact Hd|keep].
Qed.
#[local] Hint Resolve connections_setWeightedPrompts : keep.

Lemma connections_play_afterSession (t : Qc) (gate : bool) (s : LiveMusicSession)
    (e : Engine) :
  keeps connections e (play_afterSession t gate s e).
Proof.
  unfold play_afterSession. cbv zeta.
  apply (keeps_trans _ e (with_session (Some s) e)); [done|].
  set (e1 := with_session (Some s) e). keep.
Qed.

(** X17. [pause()] keeps the connection and [stop()] drops it. A [play()] after
    [pause()] goes on with the connect promise in hand and makes no new
    attempt; a [play()] after [stop()] starts a new attempt and waits for
    it in state [loading], with no session. *)
Theorem pause_keeps_connection_stop_drops_it (t1 t2 : Qc) (gate : bool)
    (p : nat) (e : Engine) :
  sessionPromise e = Some p →
  (let e' := play t2 gate (pause t1 e) in
   sessionPromise e' = Some p ∧ nextPromise e' = nextPromise e ∧
   settled e' = settled e) ∧
  (settled e !! nextPromise e = None →
   let e' := play t2 gate (stop t1 e) in
   sessionPromise e' = Some (nextPromise e) ∧ nextPromise e' = S (nextPromise e) ∧
   suspended e' = suspended e ++ [PlayAwaitsSession (nextPromise e)] ∧
   playbackState e' = loading ∧ session e' = None).
Proof.
  intros Hp. split.
  - pose proof (connections_pause t1 e) as H1.
    set (e1 := pause t1 e) in *. clearbody e1.
    assert (Hp1 : sessionPromise e1 = Some p).
    { unfold keeps, connections in H1. congruence. }
    assert (H2 : keeps connections e1 (play t2 gate e1)).
    { unfold play, getSession. cbv zeta.
      cbn [sessionPromise connectAudioGraph setPlaybackState dispatchEvent emit
           with_isAudioGraphConnected with_trace with_playbackState].
      rewrite Hp1.
      destruct (_ !! p) as [s|]; [|done].
      eapply keeps_trans; [|apply connections_play_afterSession]. done. }
    unfold keeps, connections in *. cbv zeta. split; [congruence|]. split; congruence.
  - intros Hfresh. cbv zeta. unfold play, getSession, stop. cbv zeta.
    destruct (isFallbackMode e) eqn:Hmode.
    + cbn [sessionPromise connectAudioGraph setPlaybackState dispatchEvent emit schedule
           mapPlayers with_isAudioGraphConnected with_trace with_playbackState
           with_isFallbackMode with_sessionPromise with_session with_nextStartTime
           with_params with_fallbackPlayers with_nextPromise nextPromise settled].
      rewrite Hfresh. done.
    + destruct (session e) as [[id|]|] eqn:Hs;
        cbn [sessionPromise connectAudioGraph setPlaybackState dispatchEvent emit schedule
             sessionCall with_isAudioGraphConnected with_trace with_playbackState
             with_isFallbackMode with_sessionPromise with_session with_nextStartTime
             with_params with_nextPromise nextPromise settled];
        rewrite Hfresh; done.
Qed.

(** ** A decode that settles late *)

Section LateDecode.
Variable decodeAudioData : AudioChunk → option AudioBuffer.

Lemma step_chunk (t : Turn) (from : nat) (c : AudioChunk) (others : list AudioChunk)
    (e : Engine) :
  input t = OnAudioChunk from (c :: others) →
  playbackState e = playing ∨ playbackState e = loading →
  step decodeAudioData t e = suspend (ChunkAwaitsDecode c) e.
Proof.
  intros Hin Hstate. unfold step. rewrite Hin. unfold processAudioChunks.
  rewrite decide_False; [done|]. intros [H|H]; rewrite H in Hstate; by destruct Hstate.
Qed.

Lemma step_decode (t : Turn) (c : AudioChunk) (buf : AudioBuffer) (e : Engine)
    (waiting : list Suspended) :
  input t = DecodeSettled →
  suspended e = waiting ++ [ChunkAwaitsDecode c] →
  (∀ k c', k ∈ waiting → k ≠ ChunkAwaitsDecode c') →
  decodeAudioData c = Some buf →
  step decodeAudioData t e
  = processAudioChunks_decoded (now t) buf (with_suspended waiting e).
Proof.
  intros Hin Hsus Hnone Hdec. unfold step. rewrite Hin, Hsus.
  rewrite (takeFirst_last _ waiting (ChunkAwaitsDecode c) c); [by rewrite Hdec| |done].
  intros k Hk. destruct k as [| | |c']; try done. by destruct (Hnone _ c' Hk).
Qed.

(** X18. [pause()] and [stop()] do not call off a decode that is under way. A
    chunk taken in while the engine plays, and decoded after the user has
    paused or stopped, is scheduled all the same, two seconds ahead, and
    arms the pre-roll timer; when that timer runs, the engine announces
    [playing]. *)
Theorem decode_settles_after_pause (t1 t2 t3 t4 : Turn) (from : nat) (c : AudioChunk)
    (others : list AudioChunk) (buf : AudioBuffer) (e : Engine) :
  input t1 = OnAudioChunk from (c :: others) →
  input t2 = CallPause ∨ input t2 = CallStop →
  input t3 = DecodeSettled → input t4 = TimerFired →
  playbackState e = playing ∨ playbackState e = loading →
  (∀ k c', k ∈ suspended e → k ≠ ChunkAwaitsDecode c') →
  decodeAudioData c = Some buf → (0 ≤ now t3)%Qc →
  let e2 := run decodeAudioData [t1; t2] e in
  let e3 := step decodeAudioData t3 e2 in
  let e4 := step decodeAudioData t4 e3 in
  (playbackState e2 = paused ∨ playbackState e2 = stopped) ∧
  playbackState e3 = playbackState e2 ∧
  scheduled e3 = scheduled e ++ [(buf, (now t3 + bufferTime)%Qc)] ∧
  timers e3 = S (timers e) ∧
  playbackState e4 = playing.
Proof.
  intros H1 H2 H3 H4 Hstate Hnone Hdec Hnow. cbn [run foldl].
  rewrite (step_chunk t1 from c others e H1 Hstate).
  set (e1 := suspend (ChunkAwaitsDecode c) e).
  assert (He2 : ∃ e2, step decodeAudioData t2 e1 = e2 ∧
                      (playbackState e2 = paused ∨ playbackState e2 = stopped) ∧
                      nextStartTime e2 = 0%Qc ∧
                      suspended e2 = suspended e ++ [ChunkAwaitsDecode c] ∧
                      scheduled e2 = scheduled e ∧ timers e2 = timers e).
  { eexists. split; [done|]. unfold step, scheduled.
    destruct H2 as [-> | ->]; unfold pause, stop; cbv zeta;
      destruct (isFallbackMode e1) eqn:Hm;
      try destruct (session e1) as [[id|]|] eqn:Hs;
      cbn [playbackState nextStartTime suspended trace timers
           setPlaybackState dispatchEvent emit schedule mapPlayers sessionCall
           with_trace with_playbackState with_isFallbackMode with_sessionPromise
           with_session with_nextStartTime with_params with_fallbackPlayers];
      rewrite ?omap_app; cbn [omap list_omap]; rewrite ?app_nil_r;
      (split; [by (left + right)|done]). }
  destruct He2 as (e2 & -> & Hs2 & Hn2 & Hsus2 & Hsch2 & Ht2). clearbody e1.
  cbv zeta. split; [exact Hs2|].
  rewrite (step_decode t3 c buf e2 (suspended e) H3 Hsus2 Hnone Hdec).
  rewrite processAudioChunks_decoded_first by done.
  set (e3 := with_nextStartTime _ _).
  assert (Hp3 : playbackState e3 = playbackState e2).
  { unfold e3. by destruct (isRecording (with_suspended (suspended e) e2)). }
  assert (Ht3 : timers e3 = S (timers e)) by (unfold e3; by rewrite <- Ht2).
  assert (Hs3 : scheduled e3 = scheduled e ++ [(buf, (now t3 + bufferTime)%Qc)]).
  { unfold e3, scheduled. cbn [trace with_nextStartTime emit with_trace with_timers].
    rewrite omap_app. fold (scheduled e).
    destruct (isRecording (with_suspended (suspended e) e2));
      cbn [trace with_recordedBuffers with_suspended]; by rewrite <- Hsch2. }
  clearbody e3. split; [exact Hp3|]. split; [exact Hs3|]. split; [exact Ht3|].
  unfold step. by rewrite H4, Ht3.
Qed.

End LateDecode.

Lemma pause_keeps_connection_stop_drops_it_witness :
  let e := connecting [("prompt-5"%string, funk)] in
  let e' := play (qz 3) true (pause (qz 2) e) in
  sessionPromise e' = Some 0%nat ∧ nextPromise e' = nextPromise e ∧
  settled e' = settled e.
Proof.
  intros e e'.
  destruct (pause_keeps_connection_stop_drops_it (qz 2) (qz 3) true 0%nat e) as [Hkeep _].
  - reflexivity.
  - exact Hkeep.
Defined.

Lemma decode_settles_after_pause_witness :
  let e := with_playbackState playing constructor in
  let e2 := run silentDecoder
              [at_ 1 (OnAudioChunk 7 [mkAudioChunk "AAAA"]); at_ 2 CallPause] e in
  let e3 := step silentDecoder (at_ 3 DecodeSettled) e2 in
  let e4 := step silentDecoder (at_ 5 TimerFired) e3 in
  (playbackState e2 = paused ∨ playbackState e2 = stopped) ∧
  playbackState e3 = playbackState e2 ∧
  scheduled e3 = scheduled e ++ [(twoFrames, (qz 3 + bufferTime)%Qc)] ∧
  timers e3 = S (timers e) ∧
  playbackState e4 = playing.
Proof.
  intros e.
  apply (decode_settles_after_pause silentDecoder
           (at_ 1 (OnAudioChunk 7 [mkAudioChunk "AAAA"])) (at_ 2 CallPause)
           (at_ 3 DecodeSettled) (at_ 5 TimerFired) 7%nat (mkAudioChunk "AAAA") []
           twoFrames e).
  - reflexivity.
  - left. reflexivity.
  - reflexivity.
  - reflexivity.
  - left. reflexivity.
  - intros k c' Hk. by apply elem_of_nil in Hk.
  - reflexivity.
  - discriminate.
Defined.

(** ** The players of the fallback mode *)

Lemma okTo_refl (e : Engine) : okTo e e.
Proof. by intros H. Qed.

Lemma okTo_trans (e1 e2 e3 : Engine) : okTo e1 e2 → okTo e2 e3 → okTo e1 e3.
Proof. unfold okTo. auto. Qed.

Lemma okTo_mapPlayers (f : HTMLAudioElement → HTMLAudioElement) (e : Engine) :
  (∀ a, src (f a) = src a ∧ loop (f a) = loop a ∧ volume (f a) = volume a) →
  okTo e (mapPlayers f e).
Proof.
  intros Hf [Hnil|Hall]; [left|right]; unfold mapPlayers;
    cbn [fallbackPlayers with_fallbackPlayers].
  - by rewrite Hnil.
  - apply Forall2_fmap_r. eapply Forall2_impl; [exact Hall|].
    intros entry [k a] (? & ? & ? & ? & ?). destruct (Hf a) as (Hs & Hl & Hv).
    unfold playerFor in *. simpl in *. by rewrite Hs, Hl, Hv.
Qed.

Lemma mixFallback_playerFor (active : list Prompt)
    (entries : list (string * string)) (players : list (string * HTMLAudioElement)) :
  Forall2 playerFor entries players →
  Forall2 playerFor entries (mixFallback active players).1.
Proof.
  induction 1 as [|entry [k a] entries players Hp Hall IH]; [done|].
  cbn [mixFallback]. unfold setVolume. case_decide as Hv; cbn [fst].
  - destruct (mixFallback active players) as [rest ok]. cbn [fst] in *.
    apply Forall2_cons. split; [|done].
    destruct Hp as (? & ? & ? & _). destruct Hv as [? ?]. by repeat split.
  - by apply Forall2_cons.
Qed.

Lemma fallbackPlayers_initializeFallbackPlayers (e : Engine) :
  fallbackPlayers (initializeFallbackPlayers e)
  = foldl (λ m '(promptText, audioUrl),
             mapSet promptText (mkAudio audioUrl true 0%Qc true false) m)
          (fallbackPlayers e) FALLBACK_AUDIO_MAP.
Proof.
  unfold initializeFallbackPlayers. generalize FALLBACK_AUDIO_MAP. intros l.
  induction l as [|[k v] l IH] using rev_ind; [done|].
  rewrite !foldl_app. cbn [foldl fallbackPlayers with_fallbackPlayers]. by rewrite IH.
Qed.

Lemma playersOk_fresh :
  Forall2 playerFor FALLBACK_AUDIO_MAP
    ((λ '(promptText, audioUrl), (promptText, mkAudio audioUrl true 0%Qc true false))
       <$> FALLBACK_AUDIO_MAP).
Proof. repeat (apply Forall2_cons; split; [by repeat split|]). apply Forall2_nil_2. Qed.

Lemma okTo_initializeFallbackPlayers (e : Engine) : okTo e (initializeFallbackPlayers e).
Proof.
  intros Hok. right. rewrite fallbackPlayers_initializeFallbackPlayers.
  destruct Hok as [->|Hall]; [exact playersOk_fresh|].
  assert (Hkeys : (fallbackPlayers e).*1 = FALLBACK_AUDIO_MAP.*1).
  { clear -Hall. induction Hall as [|entry p es ps (Hk & _) _ IH]; [done|].
    rewrite !fmap_cons. by f_equal. }
  clear Hall. destruct (fallbackPlayers e) as [|[k1 a1] [|[k2 a2] [|[k3 a3] [|[k4 a4]
    [|[k5 a5] [|[k6 a6] [|]]]]]]]; try done.
  injection Hkeys as -> -> -> -> -> ->. exact playersOk_fresh.
Qed.

Create HintDb pok discriminated.

#[local] Hint Resolve okTo_refl okTo_initializeFallbackPlayers : pok.
#[local] Hint Extern 1 (okTo ?x (mapPlayers _ ?x)) =>
  apply okTo_mapPlayers; intros []; done : pok.
#[local] Hint Extern 1 (okTo ?x (sessionCall ?s _ ?x)) =>
  destruct s; exact (okTo_refl _) : pok.
#[local] Hint Extern 5 (okTo ?x (_ ?x)) => exact (okTo_refl _) : pok.

(** Peels the calls of a method one by one. *)
Ltac pok :=
  lazymatch goal with
  | |- okTo ?e ?e => apply okTo_refl
  | |- okTo ?e (if ?c then _ else _) => destruct c eqn:?; pok
  | |- okTo ?e (match ?c with _ => _ end) => destruct c eqn:?; pok
  | |- okTo ?e (?f ?x) =>
      first [ solve [auto with pok]
            | apply (okTo_trans e x (f x)); [pok|solve [auto with pok]] ]
  end.

Lemma okTo_pause (t : Qc) (e : Engine) : okTo e (pause t e).
Proof. unfold pause. cbv zeta. pok. Qed.
#[local] Hint Resolve okTo_pause : pok.

Lemma okTo_stop (t : Qc) (e : Engine) : okTo e (stop t e).
Proof. unfold stop. cbv zeta. pok. Qed.
#[local] Hint Resolve okTo_stop : pok.

Lemma okTo_deliverPrompts (t : Qc) (ps : list (string * Prompt)) (e : Engine) :
  okTo e (deliverPrompts t ps e).1.
Proof.
  unfold deliverPrompts. cbv zeta.
  apply (okTo_trans e (with_prompts ps e)); [exact (okTo_refl _)|].
  set (e1 := with_prompts ps e).
  destruct (isFallbackMode e1).
  - pose proof (mixFallback_playerFor (activePrompts e1) FALLBACK_AUDIO_MAP
                  (fallbackPlayers e1)) as Hmix.
    intros [Hnil|Hall].
    + rewrite Hnil. by left.
    + specialize (Hmix Hall). destruct (mixFallback _ _) as [players ok]. by right.
  - destruct (decide _); cbn [fst]; [pok|].
    destruct (session e1) as [[id|]|]; exact (okTo_refl _).
Qed.

Lemma okTo_play_liveTail (t : Qc) (e : Engine) : okTo e (play_liveTail t e).
Proof. unfold play_liveTail. pok. Qed.
#[local] Hint Resolve okTo_play_liveTail : pok.

Lemma okTo_resume_afterDelivery (t : Qc) (k : AfterDelivery) (e : Engine) :
  okTo e (resume_afterDelivery k t e).
Proof. unfold resume_afterDelivery. pok. Qed.
#[local] Hint Resolve okTo_resume_afterDelivery : pok.

Lemma okTo_setWeightedPrompts (t : Qc) (gate : bool)
    (ps : list (string * Prompt)) (k : AfterDelivery) (e : Engine) :
  okTo e (setWeightedPrompts t gate ps k e).
Proof.
  unfold setWeightedPrompts. destruct gate; [|pok].
  pose proof (okTo_deliverPrompts t ps e) as Hd.
  destruct (deliverPrompts t ps e) as [e1 []]; cbn [fst] in Hd; [|done|].
  - eapply okTo_trans; [exact Hd|pok].
  - eapply okTo_trans; [exact Hd|pok].
Qed.
#[local] Hint Resolve okTo_setWeightedPrompts : pok.

Lemma okTo_play_afterSession (t : Qc) (gate : bool) (s : LiveMusicSession) (e : Engine) :
  okTo e (play_afterSession t gate s e).
Proof.
  unfold play_afterSession. cbv zeta.
  apply (okTo_trans e (with_session (Some s) e)); [exact (okTo_refl _)|].
  set (e1 := with_session (Some s) e). pok.
Qed.
#[local] Hint Resolve okTo_play_afterSession : pok.

Lemma okTo_play (t : Qc) (gate : bool) (e : Engine) : okTo e (play t gate e).
Proof.
  unfold play. cbv zeta.
  set (e1 := connectAudioGraph (setPlaybackState loading e)).
  assert (H1 : okTo e e1) by exact (okTo_refl _).
  assert (H2 : okTo e1 (getSession e1).2).
  { unfold getSession. destruct (sessionPromise e1); exact (okTo_refl _). }
  destruct (getSession e1) as [p e2]. cbn [snd] in H2.
  eapply okTo_trans; [exact H1|]. eapply okTo_trans; [exact H2|]. pok.
Qed.
#[local] Hint Resolve okTo_play : pok.

Lemma okTo_foldl_play_afterSession (t : Qc) (gate : bool) (s : LiveMusicSession)
    (waiting : list Suspended) (e : Engine) :
  okTo e (foldl (λ e _, play_afterSession t gate s e) e waiting).
Proof.
  revert e. induction waiting as [|k waiting IH]; intros e; [apply okTo_refl|].
  cbn [foldl]. eapply okTo_trans; [|apply IH]. pok.
Qed.

Section Players.
Variable decodeAudioData : AudioChunk → option AudioBuffer.

Lemma okTo_step (t : Turn) (e : Engine) : okTo e (step decodeAudioData t e).
Proof.
  unfold step.
  destruct (input t) as [| | | |ps| | |a|a|a|a|p outcome| |failure|from chunks| |x|m|].
  - auto with pok.
  - auto with pok.
  - auto with pok.
  - unfold playPause. pok.
  - auto with pok.
  - unfold startRecording. cbv zeta. pok.
  - unfold stopRecordingAndDownload, downloadBlob. cbv zeta.
    destruct (negb _); [apply okTo_refl|]. destruct (decide _); [exact (okTo_refl _)|].
    destruct (_ ≫= _); exact (okTo_refl _).
  - exact (okTo_refl _).
  - exact (okTo_refl _).
  - exact (okTo_refl _).
  - exact (okTo_refl _).
  - destruct (decide _); [|apply okTo_refl].
    assert (Hc : okTo e (connect_settled outcome e).2).
    { unfold connect_settled. destruct outcome; cbn [snd]; cbv zeta; pok. }
    destruct (connect_settled outcome e) as [s e1]. cbn [snd] in Hc. cbv zeta.
    eapply okTo_trans; [exact Hc|].
    eapply okTo_trans; [|apply okTo_foldl_play_afterSession]. exact (okTo_refl _).
  - destruct (takeFirst _ _) as [[[] rest]|]; [|apply okTo_refl].
    unfold play_afterPlayers.
    eapply okTo_trans; [|apply okTo_setWeightedPrompts]. exact (okTo_refl _).
  - destruct (takeFirst _ _) as [[k rest]|]; [|apply okTo_refl]. cbv zeta.
    eapply okTo_trans; [|apply okTo_resume_afterDelivery].
    apply (okTo_trans _ (with_suspended rest e)); [exact (okTo_refl _)|].
    destruct failure; pok.
  - unfold processAudioChunks. pok.
  - destruct (takeFirst _ _) as [[chunk rest]|]; [|apply okTo_refl]. cbv zeta.
    destruct (decodeAudioData chunk); [|exact (okTo_refl _)].
    unfold processAudioChunks_decoded. cbv zeta.
    destruct (isRecording _); repeat case_decide; exact (okTo_refl _).
  - exact (okTo_refl _).
  - pok.
  - destruct (timers e); exact (okTo_refl _).
Qed.

(** X19. Whatever happens to the engine, it has no fallback player or exactly
    one for each sample of [FALLBACK_AUDIO_MAP], in the order of the map:
    filed under the prompt text, looping over the sample's file, at a
    volume between 0 and 1. Falling back again makes no second set. *)
Theorem fallback_players_invariant (turns : list Turn) :
  let e := run decodeAudioData turns constructor in
  fallbackPlayers e = [] ∨ Forall2 playerFor FALLBACK_AUDIO_MAP (fallbackPlayers e).
Proof.
  assert (Hgen : ∀ e, playersOk e → playersOk (run decodeAudioData turns e)).
  { induction turns as [|t turns IH]; intros e He; [done|].
    cbn [run foldl]. apply IH. by apply okTo_step. }
  apply Hgen. by left.
Qed.

End Players.

(** ** The output gain in fallback mode *)

Lemma takeFirst_is_Some {A} (pick : Suspended → option A) (l : list Suspended)
    (k : Suspended) :
  k ∈ l → is_Some (pick k) → is_Some (takeFirst pick l).
Proof.
  intros Hin Hk. induction l as [|k' l IH]; [by apply elem_of_nil in Hin|].
  cbn [takeFirst]. destruct (pick k') eqn:Hk'; [done|].
  apply elem_of_cons in Hin as [->|Hin]; [rewrite Hk' in Hk; by destruct Hk|].
  destruct (IH Hin) as [[a rest] ->]. done.
Qed.

Lemma play_afterPlayers_fallback_gain (now : Qc) (gate : bool) (e : Engine) :
  isFallbackMode e = true → weightsInDomain (prompts e) →
  let e' := play_afterPlayers now gate e in
  playbackState e' = playing ∧ params e' = params e.
Proof.
  intros Hmode Hdom. unfold play_afterPlayers, setWeightedPrompts, deliverPrompts.
  cbv zeta. destruct gate; [|done].
  cbn [isFallbackMode with_prompts]. rewrite Hmode.
  rewrite mixFallback_in_domain; [done|].
  intros p Hp. unfold activePrompts in Hp. apply list_elem_of_filter in Hp as [_ Hp].
  by apply Hdom.
Qed.

Section FallbackGain.
Variable decodeAudioData : AudioChunk → option AudioBuffer.

(** X20. In fallback mode nothing raises the output gain again. [pause()] ramps
    it to 0; the [play()] that follows starts the local players and, once
    they have started, announces [playing], but the gain the players go
    through still rests at 0. Only the live branch of [play()] ramps the
    gain back to 1. *)
Theorem fallback_resume_leaves_output_gain_at_zero (t1 t2 : Qc) (open : bool)
    (t3 : Turn) (p : nat) (s : LiveMusicSession) (e : Engine) :
  isFallbackMode e = true →
  sessionPromise e = Some p → settled e !! p = Some s →
  weightsInDomain (prompts e) →
  input t3 = PlayersStarted →
  let e1 := pause t1 e in
  let e2 := play t2 open e1 in
  let e3 := step decodeAudioData t3 e2 in
  settledValue (params e1 OutputNodeGain) = Some 0%Qc ∧
  playbackState e2 = loading ∧
  Forall (λ kp, audioPaused kp.2 = false) (fallbackPlayers e2) ∧
  playbackState e3 = playing ∧
  settledValue (params e3 OutputNodeGain) = Some 0%Qc.
Proof.
  intros Hmode Hp Hs Hdom Hin e1.
  assert (Hg1 : settledValue (params e1 OutputNodeGain) = Some 0%Qc).
  { unfold e1, pause. cbv zeta. cbn [params with_nextStartTime].
    apply settledValue_schedule_ramp. }
  assert (Hm1 : isFallbackMode e1 = true).
  { unfold e1, pause. cbv zeta. by rewrite Hmode. }
  assert (Hp1 : sessionPromise e1 = Some p).
  { pose proof (connections_pause t1 e) as H. unfold keeps, connections in H.
    fold e1 in H. congruence. }
  assert (Hs1 : settled e1 !! p = Some s).
  { pose proof (connections_pause t1 e) as H. unfold keeps, connections in H.
    fold e1 in H. congruence. }
  assert (Hd1 : prompts e1 = prompts e).
  { unfold e1, pause. cbv zeta. by rewrite Hmode. }
  clearbody e1. intros e2 e3.
  assert (He2 : e2 = suspend PlayAwaitsPlayers
                       (mapPlayers playerPlay
                          (with_session (Some s)
                             (connectAudioGraph (setPlaybackState loading e1))))).
  { unfold e2, play, getSession. cbv zeta.
    cbn [sessionPromise connectAudioGraph setPlaybackState dispatchEvent emit
         with_isAudioGraphConnected with_trace with_playbackState settled].
    rewrite Hp1.
    cbn [sessionPromise connectAudioGraph setPlaybackState dispatchEvent emit
         with_isAudioGraphConnected with_trace with_playbackState settled].
    rewrite Hs1. unfold play_afterSession. cbv zeta.
    cbn [isFallbackMode with_session with_isAudioGraphConnected with_trace
         with_playbackState].
    change (isFallbackMode (connectAudioGraph (setPlaybackState loading e1)))
      with (isFallbackMode e1).
    by rewrite Hm1. }
  clearbody e2. subst e2. split; [exact Hg1|]. split; [done|]. split.
  { cbn [fallbackPlayers suspend with_suspended mapPlayers with_fallbackPlayers].
    apply Forall_fmap, Forall_forall. by intros [k a] _. }
  set (e2 := suspend _ _) in *.
  assert (Htake : is_Some (takeFirst (λ k, match k with
                                           | PlayAwaitsPlayers => Some ()
                                           | _ => None
                                           end) (suspended e2))).
  { apply (takeFirst_is_Some _ _ PlayAwaitsPlayers); [|done].
    unfold e2, suspend. cbn [suspended with_suspended]. apply elem_of_app. right.
    by apply list_elem_of_singleton. }
  destruct Htake as [[[] rest] Htake].
  assert (He3 : e3 = play_afterPlayers (now t3) (gate t3) (with_suspended rest e2)).
  { unfold e3, step. by rewrite Hin, Htake. }
  destruct (play_afterPlayers_fallback_gain (now t3) (gate t3) (with_suspended rest e2))
    as [Hplaying Hparams].
  - unfold e2. cbn. exact Hm1.
  - unfold e2. cbn. by rewrite Hd1.
  - rewrite He3. split; [exact Hplaying|]. cbv zeta in Hparams. rewrite Hparams.
    unfold e2. cbn [params suspend with_suspended mapPlayers with_fallbackPlayers
                    with_session connectAudioGraph with_isAudioGraphConnected
                    setPlaybackState dispatchEvent emit with_trace with_playbackState].
    exact Hg1.
Qed.

End FallbackGain.

Lemma fallback_resume_leaves_output_gain_at_zero_witness :
  let e := run silentDecoder [at_ 3 PlayersStarted] fellBack in
  let e1 := pause (qz 4) e in
  let e2 := play (qz 5) true e1 in
  let e3 := step silentDecoder (at_ 6 PlayersStarted) e2 in
  settledValue (params e1 OutputNodeGain) = Some 0%Qc ∧
  playbackState e2 = loading ∧
  Forall (λ kp, audioPaused kp.2 = false) (fallbackPlayers e2) ∧
  playbackState e3 = playing ∧
  settledValue (params e3 OutputNodeGain) = Some 0%Qc.
Proof.
  intros e.
  apply (fallback_resume_leaves_output_gain_at_zero silentDecoder (qz 4) (qz 5) true
           (at_ 6 PlayersStarted) 0%nat MockSession e).
  - reflexivity.
  - reflexivity.
  - reflexivity.
  - intros q Hq. by apply elem_of_nil in Hq.
  - reflexivity.
Defined.

(** ** [play()] on a live connection *)

Section LivePlay.
Variable decodeAudioData : AudioChunk → option AudioBuffer.

Lemma play_connects (now : Qc) (open : bool) (e : Engine) :
  sessionPromise e = None → settled e !! nextPromise e = None →
  play now open e
  = suspend (PlayAwaitsSession (nextPromise e))
      (with_nextPromise (S (nextPromise e))
         (with_sessionPromise (Some (nextPromise e))
            (connectAudioGraph (setPlaybackState loading e)))).
Proof.
  intros Hp Hs. unfold play, getSession. cbv zeta.
  cbn [sessionPromise connectAudioGraph setPlaybackState dispatchEvent emit
       with_isAudioGraphConnected with_trace with_playbackState].
  rewrite Hp.
  cbn [settled nextPromise connectAudioGraph setPlaybackState dispatchEvent emit
       with_isAudioGraphConnected with_trace with_playbackState with_nextPromise
       with_sessionPromise].
  by rewrite Hs.
Qed.

(** [play()] resumed by the session of a connect attempt that succeeded. *)
Lemma connect_resumes_play (t : Turn) (p id : nat) (e : Engine) :
  input t = ConnectSettled p (Some id) → gate t = true →
  (p < nextPromise e)%nat → settled e !! p = None →
  suspended e = [PlayAwaitsSession p] → activePrompts e ≠ [] →
  step decodeAudioData t e
  = suspend (DeliveryAwaitsSession PlayLiveTail)
      (emit (SessionCalled id (SessionSetWeightedPrompts (activePrompts e)))
         (with_prompts (prompts e)
            (with_session (Some (LiveSession id))
               (with_suspended []
                  (with_settled (<[p := LiveSession id]> (settled e))
                     (with_isFallbackMode false e)))))).
Proof.
  intros Hin Hgate Hlt Hs Hsus Hact. unfold step. rewrite Hin, Hgate.
  rewrite decide_True by done.
  unfold connect_settled. cbv zeta.
  cbn [suspended settled with_settled with_isFallbackMode].
  rewrite Hsus.
  rewrite (filter_cons_True (λ k, awaitsSession p k = true))
    by (cbn; by apply bool_decide_eq_true_2).
  rewrite (filter_cons_False (λ k, awaitsSession p k ≠ true))
    by (cbn; intros Hne; apply Hne; by apply bool_decide_eq_true_2).
  rewrite !filter_nil. cbn [foldl].
  unfold play_afterSession. cbv zeta.
  cbn [isFallbackMode with_session with_suspended with_settled with_isFallbackMode
       prompts].
  unfold setWeightedPrompts, deliverPrompts. cbv zeta.
  cbn [isFallbackMode with_prompts with_session with_suspended with_settled
       with_isFallbackMode session].
  set (e' := with_prompts _ _).
  assert (Hact' : activePrompts e' = activePrompts e) by done.
  rewrite Hact'. rewrite decide_False by (by destruct (activePrompts e)).
  done.
Qed.

Lemma play_liveTail_live (now : Qc) (id : nat) (e : Engine) :
  session e = Some (LiveSession id) →
  let e' := play_liveTail now e in
  trace e' = trace e ++ [SessionCalled id SessionPlay] ∧
  playbackState e' = playbackState e ∧
  settledValue (params e' OutputNodeGain) = Some (qz 1).
Proof.
  intros Hs e'. unfold e', play_liveTail. rewrite Hs. cbv zeta.
  split; [done|]. split; [done|]. apply settledValue_schedule_ramp.
Qed.

Lemma pause_live (now : Qc) (id : nat) (e : Engine) :
  session e = Some (LiveSession id) → isFallbackMode e = false →
  let e' := pause now e in
  trace e' = trace e ++ [SessionCalled id SessionPause]
             ++ [Dispatched (PlaybackStateChanged paused)] ∧
  session e' = Some (LiveSession id) ∧ playbackState e' = paused.
Proof.
  intros Hs Hmode e'. unfold e', pause. rewrite Hmode, Hs. cbv zeta.
  split; [|split; [exact Hs|done]].
  unfold schedule, setPlaybackState, dispatchEvent, sessionCall, emit.
  cbn [trace with_trace with_params with_nextStartTime with_playbackState].
  by rewrite <- app_assoc.
Qed.

(** [play()] resumed when the delivery of its prompts has settled. *)
Lemma delivery_resumes_play (t : Turn) (id : nat) (failure : option string)
    (e : Engine) :
  input t = DeliverySettled failure →
  suspended e = [DeliveryAwaitsSession PlayLiveTail] →
  session e = Some (LiveSession id) → isFallbackMode e = false →
  let e' := step decodeAudioData t e in
  sessionCalls e'
  = sessionCalls e
    ++ match failure with Some _ => [(id, SessionPause)] | None => [] end
    ++ [(id, SessionPlay)] ∧
  errors e' = errors e ++ match failure with Some m => [m] | None => [] end ∧
  playbackState e'
  = match failure with Some _ => paused | None => playbackState e end ∧
  settledValue (params e' OutputNodeGain) = Some (qz 1).
Proof.
  intros Hin Hsus Hs Hmode e'.
  assert (He' : e' = play_liveTail (now t)
                       (match failure with
                        | Some message =>
                            pause (now t)
                              (dispatchEvent (ErrorEvent message) (with_suspended [] e))
                        | None => with_suspended [] e
                        end)).
  { unfold e', step. rewrite Hin, Hsus. reflexivity. }
  clearbody e'. set (e0 := with_suspended [] e) in *.
  assert (Hs0 : session e0 = Some (LiveSession id)) by exact Hs.
  assert (Hm0 : isFallbackMode e0 = false) by exact Hmode.
  assert (Ht0 : trace e0 = trace e) by reflexivity.
  assert (Hp0 : playbackState e0 = playbackState e) by reflexivity.
  clearbody e0.
  destruct failure as [message|].
  - set (ed := dispatchEvent (ErrorEvent message) e0) in *.
    assert (Hsd : session ed = Some (LiveSession id)) by exact Hs0.
    assert (Hmd : isFallbackMode ed = false) by exact Hm0.
    assert (Htd : trace ed = trace e0 ++ [Dispatched (ErrorEvent message)])
      by reflexivity.
    clearbody ed.
    destruct (pause_live (now t) id ed Hsd Hmd) as (Htp & Hsp & Hpp).
    set (ep := pause (now t) ed) in *. clearbody ep.
    destruct (play_liveTail_live (now t) id ep Hsp) as (Htl & Hpl & Hgl).
    rewrite <- He' in Htl, Hpl, Hgl. clear He'.
    split; [|split; [|split]].
    + unfold sessionCalls. rewrite Htl, Htp, Htd, Ht0, !omap_app. cbn.
      by rewrite !app_nil_r, <- !app_assoc.
    + unfold errors. rewrite Htl, Htp, Htd, Ht0, !omap_app. cbn.
      by rewrite !app_nil_r.
    + by rewrite Hpl.
    + exact Hgl.
  - destruct (play_liveTail_live (now t) id e0 Hs0) as (Htl & Hpl & Hgl).
    rewrite <- He' in Htl, Hpl, Hgl. clear He'.
    split; [|split; [|split]].
    + unfold sessionCalls. by rewrite Htl, Ht0, omap_app.
    + unfold errors. rewrite Htl, Ht0, omap_app. cbn. by rewrite !app_nil_r.
    + by rewrite Hpl.
    + exact Hgl.
Qed.

(** X21. The live path of [play()], from the call to the end. On an idle engine
    with an active prompt, [play()] makes a connect attempt; when it
    succeeds, the active prompts are sent to the session; when the delivery
    settles, [session.play()] is called and the output gain is ramped to 1.
    The state stays [loading]: [playing] comes with the first chunk's
    timer. A delivery that fails is reported and pauses the engine, and
    [play()] goes on all the same: the session is told to play and the gain
    is ramped to 1 in state [paused]. *)
Theorem play_live_path (t1 t2 t3 : Turn) (id : nat) (failure : option string)
    (e : Engine) :
  input t1 = CallPlay →
  input t2 = ConnectSettled (nextPromise e) (Some id) → gate t2 = true →
  input t3 = DeliverySettled failure →
  sessionPromise e = None → settled e !! nextPromise e = None →
  suspended e = [] → activePrompts e ≠ [] →
  let e1 := step decodeAudioData t1 e in
  let e2 := step decodeAudioData t2 e1 in
  let e3 := step decodeAudioData t3 e2 in
  playbackState e1 = loading ∧ session e1 = session e ∧
  sessionCalls e1 = sessionCalls e ∧
  session e2 = Some (LiveSession id) ∧ isFallbackMode e2 = false ∧
  playbackState e2 = loading ∧
  sessionCalls e2
  = sessionCalls e ++ [(id, SessionSetWeightedPrompts (activePrompts e))] ∧
  sessionCalls e3
  = sessionCalls e2
    ++ match failure with Some _ => [(id, SessionPause)] | None => [] end
    ++ [(id, SessionPlay)] ∧
  errors e3 = errors e ++ match failure with Some m => [m] | None => [] end ∧
  playbackState e3 = match failure with Some _ => paused | None => loading end ∧
  settledValue (params e3 OutputNodeGain) = Some (qz 1).
Proof.
  intros H1 H2 Hgate H3 Hp Hs Hsus Hact e1.
  set (p := nextPromise e) in *.
  assert (He1 : e1 = suspend (PlayAwaitsSession p)
                       (with_nextPromise (S p)
                          (with_sessionPromise (Some p)
                             (connectAudioGraph (setPlaybackState loading e))))).
  { unfold e1, step. rewrite H1. by apply play_connects. }
  assert (Hn1 : nextPromise e1 = S p) by (by rewrite He1).
  assert (Hs1 : settled e1 !! p = None) by (by rewrite He1).
  assert (Hsus1 : suspended e1 = [PlayAwaitsSession p]).
  { rewrite He1. unfold suspend. cbn [suspended with_suspended]. 
    change (suspended (with_nextPromise _ _)) with (suspended e). by rewrite Hsus. }
  assert (Hact1 : activePrompts e1 = activePrompts e) by (by rewrite He1).
  assert (Hp1 : playbackState e1 = loading) by (by rewrite He1).
  assert (Hses1 : session e1 = session e) by (by rewrite He1).
  assert (Ht1 : trace e1
                = trace e ++ [Dispatched (PlaybackStateChanged loading)]).
  { by rewrite He1. }
  clearbody e1. clear He1. intros e2.
  assert (He2 : e2 = suspend (DeliveryAwaitsSession PlayLiveTail)
      (emit (SessionCalled id (SessionSetWeightedPrompts (activePrompts e1)))
         (with_prompts (prompts e1)
            (with_session (Some (LiveSession id))
               (with_suspended []
                  (with_settled (<[p := LiveSession id]> (settled e1))
                     (with_isFallbackMode false e1))))))).
  { apply connect_resumes_play; try done.
    - rewrite Hn1. lia.
    - by rewrite Hact1. }
  assert (Hsus2 : suspended e2 = [DeliveryAwaitsSession PlayLiveTail])
    by (by rewrite He2).
  assert (Hses2 : session e2 = Some (LiveSession id)) by (by rewrite He2).
  assert (Hm2 : isFallbackMode e2 = false) by (by rewrite He2).
  assert (Hp2 : playbackState e2 = playbackState e1) by (by rewrite He2).
  assert (Ht2 : trace e2
                = trace e1
                  ++ [SessionCalled id (SessionSetWeightedPrompts (activePrompts e1))]).
  { by rewrite He2. }
  clearbody e2. clear He2. intros e3.
  destruct (delivery_resumes_play t3 id failure e2 H3 Hsus2 Hses2 Hm2)
    as (Hc3 & Herr3 & Hp3 & Hg3).
  fold e3 in Hc3, Herr3, Hp3, Hg3. clearbody e3.
  assert (Hc1 : sessionCalls e1 = sessionCalls e).
  { unfold sessionCalls. rewrite Ht1, omap_app. cbn. by rewrite app_nil_r. }
  assert (Herr1 : errors e1 = errors e).
  { unfold errors. rewrite Ht1, omap_app. cbn. by rewrite app_nil_r. }
  assert (Hc2 : sessionCalls e2
                = sessionCalls e ++ [(id, SessionSetWeightedPrompts (activePrompts e))]).
  { rewrite <- Hc1, <- Hact1. unfold sessionCalls. by rewrite Ht2, omap_app. }
  assert (Herr2 : errors e2 = errors e).
  { rewrite <- Herr1. unfold errors. rewrite Ht2, omap_app. cbn. by rewrite app_nil_r. }
  split; [exact Hp1|]. split; [exact Hses1|]. split; [exact Hc1|].
  split; [exact Hses2|]. split; [exact Hm2|]. split; [by rewrite Hp2|].
  split; [exact Hc2|]. split; [exact Hc3|]. split; [by rewrite Herr3, Herr2|].
  split; [|exact Hg3].
  rewrite Hp3. destruct failure; [done|]. by rewrite Hp2.
Qed.

End LivePlay.

Lemma play_live_path_witness :
  let e := with_prompts [("prompt-5"%string, funk)] constructor in
  let e1 := step silentDecoder (at_ 1 CallPlay) e in
  let e2 := step silentDecoder (at_ 2 (ConnectSettled 0 (Some 7%nat))) e1 in
  let e3 := step silentDecoder (at_ 3 (DeliverySettled (Some "closed"%string))) e2 in
  sessionCalls e3
  = [(7%nat, SessionSetWeightedPrompts [funk]); (7%nat, SessionPause);
     (7%nat, SessionPlay)] ∧
  errors e3 = ["closed"%string] ∧
  playbackState e3 = paused ∧
  settledValue (params e3 OutputNodeGain) = Some (qz 1).
Proof.
  intros e.
  destruct (play_live_path silentDecoder (at_ 1 CallPlay)
              (at_ 2 (ConnectSettled 0 (Some 7%nat)))
              (at_ 3 (DeliverySettled (Some "closed"%string))) 7%nat
              (Some "closed"%string) e)
    as (_ & _ & _ & _ & _ & _ & Hc2 & Hc3 & Herr & Hstate & Hgain);
    try reflexivity.
  - discriminate.
  - cbv zeta in Hc3. rewrite Hc2 in Hc3.
    split; [exact Hc3|]. split; [exact Herr|]. split; [exact Hstate|exact Hgain].
Defined.

(** ** The effect knob *)

Lemma clamp_range (v : Qc) : (0 ≤ FxKnob.clamp v)%Qc ∧ (FxKnob.clamp v ≤ qz 1)%Qc.
Proof.
  unfold FxKnob.clamp, Qcmax, Qcmin.
  destruct (decide (qz 1 ≤ v)%Qc) as [H1|H1];
    destruct (decide _) as [H2|H2].
  - split; [done|apply Qcle_refl].
  - split; [apply Qcle_refl|done].
  - split; [done|]. apply Qclt_le_weak. by apply Qcnot_le_lt.
  - split; [apply Qcle_refl|done].
Qed.

(** X22. Whatever the knob held and whatever the gesture, the value it reports
    lies between 0 and 1. Handed to [setDelay], as the page does for the
    delay knob, it lets the wet gain rest at that value and the feedback
    gain at 0.7 times it, which is at most 0.7: the feedback loop of the
    delay never reaches a gain of 1. *)
Theorem knob_keeps_delay_feedback_below_one (g : FxKnob.Gesture) (k : FxKnob.t)
    (now : Qc) (e : Engine) :
  let amount := FxKnob.value (FxKnob.handle g k) in
  let e' := setDelay amount now e in
  (0 ≤ amount)%Qc ∧ (amount ≤ qz 1)%Qc ∧
  settledValue (params e' DelayWetGain) = Some amount ∧
  ∃ feedback,
    settledValue (params e' DelayFeedbackGain) = Some feedback ∧
    (0 ≤ feedback)%Qc ∧ (feedback ≤ qfrac 7 10)%Qc.
Proof.
  intros amount e'.
  assert (Hrange : (0 ≤ amount)%Qc ∧ (amount ≤ qz 1)%Qc).
  { unfold amount. destruct g; apply clamp_range. }
  destruct Hrange as [Hlo Hhi]. split; [done|]. split; [done|].
  assert (Hwet : settledValue (params e' DelayWetGain) = Some amount).
  { unfold e', setDelay, rampTo. cbv zeta.
    rewrite params_schedule_ne by done. apply settledValue_schedule_ramp. }
  split; [exact Hwet|]. exists (amount * qfrac 7 10)%Qc.
  split; [apply settledValue_schedule_ramp|]. split.
  - replace 0%Qc with (0 * qfrac 7 10)%Qc by by apply Qc_is_canon.
    by apply Qcmult_le_compat_r.
  - replace (qfrac 7 10) with (qz 1 * qfrac 7 10)%Qc at 2 by by apply Qc_is_canon.
    by apply Qcmult_le_compat_r.
Qed.

(** ** Weights from a MIDI controller *)

Lemma elem_of_mapSet {V} (k : string) (v : V) (m : list (string * V)) (x : string * V) :
  x ∈ mapSet k v m → x = (k, v) ∨ x ∈ m.
Proof.
  induction m as [|[k' v'] m IH]; cbn [mapSet].
  - intros ->%list_elem_of_singleton. by left.
  - case_decide; intros [->|Hin]%elem_of_cons; try (by left).
    + right. by right.
    + right. by left.
    + destruct (IH Hin) as [->|?]; [by left|]. right. by right.
Qed.

(** X23. A control change of a MIDI controller carries a value from 0 to 127.
    The weight the prompt's controller computes from it lies between 0 and
    2, and the prompt it dispatches, once filed into the map by
    [handlePromptChanged], leaves the map inside the weight domain of the
    data model. Learn mode changes the controller number and not the
    weight; a control change for another controller changes nothing. *)
Theorem midi_weights_stay_in_domain (channel number : Z) (value : Qc)
    (c : PromptController.t) (prompts : list (string * Prompt)) :
  (0 ≤ value)%Qc → (value ≤ qz 127)%Qc →
  (0 ≤ weight (PromptController.prompt c))%Qc →
  (weight (PromptController.prompt c) ≤ qz 2)%Qc →
  weightsInDomain prompts →
  match PromptController.ccMessage channel number value c with
  | (c', Some p) =>
      p = PromptController.prompt c' ∧
      promptId p = promptId (PromptController.prompt c) ∧
      text p = text (PromptController.prompt c) ∧
      (PromptController.isInLearnMode c = true →
         weight p = weight (PromptController.prompt c) ∧ cc p = number) ∧
      (PromptController.isInLearnMode c = false →
         weight p = (value / qz 127 * qz 2)%Qc ∧ cc p = number) ∧
      weightsInDomain (PromptController.handlePromptChanged p prompts)
  | (c', None) =>
      c' = c ∧ PromptController.isInLearnMode c = false ∧
      number ≠ cc (PromptController.prompt c)
  end.
Proof.
  intros Hlo Hhi Hwlo Hwhi Hdom. unfold PromptController.ccMessage.
  assert (Hnew : ∀ p, (0 ≤ weight p)%Qc → (weight p ≤ qz 2)%Qc →
                      weightsInDomain (PromptController.handlePromptChanged p prompts)).
  { intros p H1 H2 q Hq. apply list_elem_of_fmap in Hq as ([k q'] & -> & Hin).
    apply elem_of_mapSet in Hin as [[= _ ->]|Hin]; [done|].
    apply Hdom. apply list_elem_of_fmap. by exists (k, q'). }
  destruct (PromptController.isInLearnMode c) eqn:Hlearn.
  - cbv zeta. cbn. do 5 (split; [done|]). by apply Hnew.
  - case_decide as Hcc; [|done]. cbv zeta. cbn.
    assert (Hw : (0 ≤ value / qz 127 * qz 2)%Qc ∧ (value / qz 127 * qz 2 ≤ qz 2)%Qc).
    { destruct (Qcdiv_range value (qz 127) (qz 1)) as [H1 H2]; [done| |done|].
      { by replace (qz 1 * qz 127)%Qc with (qz 127) by by apply Qc_is_canon. }
      split.
      - replace 0%Qc with (0 * qz 2)%Qc by by apply Qc_is_canon.
        by apply Qcmult_le_compat_r.
      - replace (qz 2) with (qz 1 * qz 2)%Qc at 2 by by apply Qc_is_canon.
        by apply Qcmult_le_compat_r. }
    do 5 (split; [done|]). apply Hnew; apply Hw.
Qed.

(** ** Suggestions *)

Lemma mapSet_present {V} (k : string) (v v' : V) (pre post : list (string * V)) :
  k ∉ pre.*1 → mapSet k v' (pre ++ (k, v) :: post) = pre ++ (k, v') :: post.
Proof.
  induction pre as [|[k0 v0] pre IH]; intros Hk; cbn [mapSet app].
  - by rewrite decide_True.
  - rewrite fmap_cons in Hk. apply not_elem_of_cons in Hk as [Hne Hk].
    rewrite decide_False by done. by rewrite IH.
Qed.

Lemma find_split {A} (P : A → bool) (l : list A) (x : A) :
  find P l = Some x →
  ∃ pre post, l = pre ++ x :: post ∧ P x = true ∧ Forall (λ y, P y = false) pre.
Proof.
  induction l as [|y l IH]; [done|]. cbn [find].
  destruct (P y) eqn:Hy.
  - intros [= ->]. by exists [], l.
  - intros (pre & post & -> & Hx & Hpre)%IH. exists (y :: pre), post.
    split; [done|]. split; [done|]. by apply Forall_cons.
Qed.

Lemma find_none {A} (P : A → bool) (l : list A) :
  find P l = None → Forall (λ y, P y = false) l.
Proof.
  induction l as [|y l IH]; [done|]. cbn [find].
  destruct (P y) eqn:Hy; [done|]. intros H. apply Forall_cons. auto.
Qed.

(** X24. Choosing a suggestion writes it over the text of the first prompt of
    the map that has weight 0 and changes nothing else: the prompts before
    and after it are as they were, in place, and the prompt keeps its id,
    its weight of 0, its controller number and its colour, so that the
    active prompts of an engine given the new map are those of the old
    one. When every prompt has a weight, the map is left alone and the
    page shows a message. *)
Theorem suggestion_fills_first_empty_prompt (suggestion : string)
    (prompts : list (string * Prompt)) :
  keyedById prompts →
  match suggestionSelected suggestion prompts with
  | inl prompts' =>
      ∃ pre p post,
        prompts = pre ++ (promptId p, p) :: post ∧
        prompts' = pre ++ (promptId p, with_text suggestion p) :: post ∧
        weight p = 0%Qc ∧ Forall (λ kp, weight kp.2 ≠ 0%Qc) pre ∧
        ∀ e, activePrompts (with_prompts prompts' e)
             = activePrompts (with_prompts prompts e)
  | inr message =>
      Forall (λ kp, weight kp.2 ≠ 0%Qc) prompts
  end.
Proof.
  intros [Hkeys Hnodup]. unfold suggestionSelected, emptyPrompt.
  destruct (find _ _) as [p|] eqn:Hfind.
  - apply find_split in Hfind as (pre2 & post2 & Hsplit & Hp & Hpre).
    apply bool_decide_eq_true in Hp.
    apply fmap_app_inv in Hsplit as (pre & rest & -> & Hrest & ->).
    destruct rest as [|[k p'] post]; [done|]. rewrite fmap_cons in Hrest.
    injection Hrest as Hpp Hpost. cbn [snd] in Hpp. subst p' post2.
    apply Forall_app in Hkeys as [_ Hkeys]. apply Forall_cons in Hkeys as [Hk _].
    cbn [fst snd] in Hk. subst k.
    assert (Hset : mapSet (promptId p) (with_text suggestion p)
                     (pre ++ (promptId p, p) :: post)
                   = pre ++ (promptId p, with_text suggestion p) :: post).
    { apply mapSet_present.
      rewrite fmap_app, fmap_cons in Hnodup. apply NoDup_app in Hnodup as (_ & Hdis & _).
      intros Hin. apply (Hdis _ Hin). by left. }
    exists pre, p, post. split; [done|]. split; [exact Hset|].
    split; [done|]. split.
    + apply Forall_fmap in Hpre. eapply Forall_impl; [exact Hpre|].
      intros [k q] Hq. cbn in *. by apply bool_decide_eq_false in Hq.
    + intros e. cbv zeta. cbn [promptId with_text]. rewrite Hset.
      unfold activePrompts. cbn [prompts filteredPrompts with_prompts].
      rewrite !fmap_app, !fmap_cons, !filter_app. cbn [snd]. f_equal.
      rewrite !filter_cons_False; [done| |]; intros [_ Hw]; by apply Hw.
  - apply find_none in Hfind. apply Forall_fmap in Hfind.
    eapply Forall_impl; [exact Hfind|].
    intros [k q] Hq. cbn in *. by apply bool_decide_eq_false in Hq.
Qed.

Lemma midi_weights_stay_in_domain_witness :
  let c := PromptController.mk funk 0 false in
  let p := PromptController.with_weight (qz 64 / qz 127 * qz 2)%Qc funk in
  PromptController.ccMessage 0 5 (qz 64) c = (PromptController.mk p 0 false, Some p) ∧
  weightsInDomain
    (PromptController.handlePromptChanged p [("prompt-5"%string, funk)]).
Proof.
  intros c p. split; [reflexivity|].
  assert (Hdom : weightsInDomain [("prompt-5"%string, funk)]).
  { intros q Hq. apply list_elem_of_singleton in Hq. subst q. split; discriminate. }
  pose proof (midi_weights_stay_in_domain 0 5 (qz 64) c [("prompt-5"%string, funk)]
                ltac:(discriminate) ltac:(discriminate) ltac:(discriminate)
                ltac:(discriminate) Hdom) as H.
  exact (proj2 (proj2 (proj2 (proj2 (proj2 H))))).
Defined.

Lemma suggestion_fills_first_empty_prompt_witness :
  let prompts := [("prompt-4"%string, mkPrompt "prompt-4" "Shoegaze" (qz 1) 4 "#ffdd28");
                  ("prompt-5"%string, muted)] in
  match suggestionSelected "Dream Pop" prompts with
  | inl prompts' =>
      ∃ pre p post,
        prompts = pre ++ (promptId p, p) :: post ∧
        prompts' = pre ++ (promptId p, with_text "Dream Pop" p) :: post ∧
        weight p = 0%Qc ∧ Forall (λ kp, weight kp.2 ≠ 0%Qc) pre ∧
        ∀ e, activePrompts (with_prompts prompts' e)
             = activePrompts (with_prompts prompts e)
  | inr message => Forall (λ kp, weight kp.2 ≠ 0%Qc) prompts
  end.
Proof.
  intros prompts. apply (suggestion_fills_first_empty_prompt "Dream Pop" prompts).
  split.
  - repeat (apply Forall_cons; split; [reflexivity|]). apply Forall_nil_2.
  - apply NoDup_cons. split; [|apply NoDup_singleton].
    intros Hin. apply list_elem_of_singleton in Hin. discriminate.
Defined.

(** ** Presets *)

Section Maps.
Context {V : Type}.
Implicit Types (m : list (string * V)) (k : string) (v : V).

Lemma mapSet_absent k v m : k ∉ m.*1 → mapSet k v m = m ++ [(k, v)].
Proof.
  induction m as [|[k0 v0] m IH]; intros Hk; cbn [mapSet app]; [done|].
  rewrite fmap_cons in Hk. apply not_elem_of_cons in Hk as [Hne Hk].
  rewrite decide_False by done. by rewrite IH.
Qed.

Lemma mapSet_keys k v m :
  (mapSet k v m).*1 = if bool_decide (k ∈ m.*1) then m.*1 else m.*1 ++ [k].
Proof.
  induction m as [|[k0 v0] m IH]; cbn [mapSet]; [done|].
  destruct (decide (k0 = k)) as [->|Hk].
  - rewrite !fmap_cons. cbn [fst]. rewrite bool_decide_eq_true_2; [done|by left].
  - rewrite !fmap_cons, IH. cbn [fst].
    destruct (bool_decide (k ∈ m.*1)) eqn:Hin.
    + apply bool_decide_eq_true in Hin. rewrite bool_decide_eq_true_2; [done|by right].
    + apply bool_decide_eq_false in Hin. rewrite bool_decide_eq_false_2; [done|].
      intros [?|?]%elem_of_cons; [by apply Hk|done].
Qed.

Lemma mapSet_NoDup k v m : NoDup m.*1 → NoDup (mapSet k v m).*1.
Proof.
  intros Hm. rewrite mapSet_keys. case_bool_decide as Hin; [done|].
  apply NoDup_app. split; [done|]. split; [|apply NoDup_singleton].
  intros x Hx ->%list_elem_of_singleton. done.
Qed.

Lemma mapGet_mapSet k v m : mapGet k (mapSet k v m) = Some v.
Proof.
  unfold mapGet. induction m as [|[k0 v0] m IH]; cbn [mapSet find fst].
  - by rewrite bool_decide_eq_true_2.
  - destruct (decide (k0 = k)) as [->|Hk]; cbn [find fst].
    + by rewrite bool_decide_eq_true_2.
    + by rewrite bool_decide_eq_false_2.
Qed.

Lemma mapGet_mapSet_ne k k' v m : k' ≠ k → mapGet k' (mapSet k v m) = mapGet k' m.
Proof.
  intros Hne. unfold mapGet. induction m as [|[k0 v0] m IH]; cbn [mapSet find fst].
  - by rewrite bool_decide_eq_false_2.
  - destruct (decide (k0 = k)) as [->|Hk]; cbn [find fst].
    + by rewrite !bool_decide_eq_false_2 by done.
    + case_bool_decide; [done|exact IH].
Qed.

Lemma mapGet_None k m : mapGet k m = None ↔ k ∉ m.*1.
Proof.
  unfold mapGet. induction m as [|[k0 v0] m IH]; cbn [find fst].
  - split; [intros _; apply not_elem_of_nil|done].
  - rewrite fmap_cons, not_elem_of_cons. cbn [fst]. case_bool_decide as Hk.
    + subst. split; [done|]. by intros [? _].
    + rewrite IH. split; [by split|by intros [_ ?]].
Qed.

Lemma mapGet_mapDelete k m : mapGet k (mapDelete k m) = None.
Proof.
  apply mapGet_None. unfold mapDelete. intros Hin.
  apply list_elem_of_fmap in Hin as ([k' v'] & -> & Hin).
  by apply list_elem_of_filter in Hin as [Hne _].
Qed.

Lemma mapGet_mapDelete_ne k k' m : k' ≠ k → mapGet k' (mapDelete k m) = mapGet k' m.
Proof.
  intros Hne. unfold mapGet, mapDelete. induction m as [|[k0 v0] m IH]; [done|].
  destruct (decide (k0 = k)) as [->|Hk].
  - rewrite filter_cons_False by (cbn; auto). cbn [find fst].
    by rewrite bool_decide_eq_false_2 by done.
  - rewrite filter_cons_True by done. cbn [find fst].
    case_bool_decide; [done|exact IH].
Qed.

Lemma mapOf_from (entries acc : list (string * V)) :
  NoDup (acc ++ entries).*1 →
  foldl (λ m kv, mapSet kv.1 kv.2 m) acc entries = acc ++ entries.
Proof.
  revert acc. induction entries as [|[k v] entries IH]; intros acc Hnd.
  - by rewrite app_nil_r.
  - cbn [foldl fst snd]. rewrite mapSet_absent.
    + rewrite IH; rewrite <- app_assoc; done.
    + rewrite fmap_app, fmap_cons in Hnd. apply NoDup_app in Hnd as (_ & Hdis & _).
      intros Hin. apply (Hdis _ Hin). by left.
Qed.

Lemma mapOf_NoDup (entries : list (string * V)) : NoDup entries.*1 → mapOf entries = entries.
Proof. intros Hnd. unfold mapOf. by rewrite mapOf_from. Qed.

Lemma NoDup_mapOf (entries : list (string * V)) : NoDup (mapOf entries).*1.
Proof.
  unfold mapOf. assert (Hgen : ∀ acc, NoDup acc.*1 →
    NoDup (foldl (λ m kv, mapSet kv.1 kv.2 m) acc entries).*1).
  { induction entries as [|[k v] entries IH]; intros acc Hacc; [done|].
    cbn [foldl]. apply IH. by apply mapSet_NoDup. }
  apply Hgen. constructor.
Qed.

End Maps.

Section Presets.
Import PresetManager.

Lemma NoDup_getPresets (s : Stored) : NoDup (getPresets s).*1.
Proof. destruct s; cbn [getPresets]; [constructor|apply NoDup_mapOf|constructor]. Qed.

Lemma getPresets_written (presets : Presets) :
  NoDup presets.*1 → getPresets (Entries presets) = presets.
Proof. apply mapOf_NoDup. Qed.

Lemma entries_keyedById (prompts : list (string * Prompt)) :
  Forall (λ kp, kp.1 = promptId kp.2) prompts →
  (λ p, (promptId p, p)) <$> prompts.*2 = prompts.
Proof.
  induction 1 as [|[k p] l Hk _ IH]; [done|].
  rewrite !fmap_cons. cbn [fst snd] in *. by rewrite IH, Hk.
Qed.

#[local] Instance before_total : Total before.
Proof. intros a b. apply String.leb_total. Qed.

(** X25. Saving a preset and loading it gives back the prompts that were saved,
    in the order of the map; rebuilt into a map by the page, they are the
    map that was saved. The other presets are as they were, and the names
    the manager lists are those it listed plus the new one, each once, in
    order. *)
Theorem preset_save_then_load (name : string) (prompts : list (string * Prompt))
    (s : Stored) :
  name ≠ ""%string →
  ∃ s',
    savePreset false name prompts s = Ok s' ∧
    loadPreset name s' = Some prompts.*2 ∧
    (keyedById prompts → loadedPrompts prompts.*2 = prompts) ∧
    (∀ other, other ≠ name → loadPreset other s' = loadPreset other s) ∧
    (∀ n, n ∈ listPresets s' ↔ n = name ∨ n ∈ listPresets s) ∧
    NoDup (listPresets s') ∧ Sorted before (listPresets s').
Proof.
  intros Hname. unfold savePreset, setPresets. rewrite decide_False by done. cbv zeta.
  eexists. split; [done|].
  pose proof (NoDup_getPresets s) as Hnd.
  assert (Hget : getPresets (Entries (mapSet name prompts.*2 (getPresets s)))
                 = mapSet name prompts.*2 (getPresets s)).
  { apply getPresets_written. by apply mapSet_NoDup. }
  unfold loadPreset, listPresets. rewrite Hget.
  split; [apply mapGet_mapSet|]. split.
  { intros [Hkeys Hnodup]. unfold loadedPrompts.
    rewrite entries_keyedById by done. by apply mapOf_NoDup. }
  split; [intros other Hne; by apply mapGet_mapSet_ne|].
  split; [|split].
  - intros n. rewrite !merge_sort_Permutation, mapSet_keys.
    case_bool_decide as Hin.
    + split; [by right|]. by intros [->|?].
    + rewrite elem_of_app, list_elem_of_singleton. tauto.
  - rewrite merge_sort_Permutation. by apply mapSet_NoDup.
  - apply Sorted_merge_sort, _.
Qed.

(** X26. Deleting a preset that exists takes it away and leaves the others;
    deleting one that does not exist throws, as saving under the empty name
    does, and a write the storage refuses. A storage that holds nothing, or
    something that cannot be read, is an empty collection. *)
Theorem preset_delete_and_errors (name : string) (prompts : list (string * Prompt))
    (s : Stored) :
  (loadPreset name s ≠ None →
     ∃ s', deletePreset false name s = Ok s' ∧
           loadPreset name s' = None ∧
           ∀ other, other ≠ name → loadPreset other s' = loadPreset other s) ∧
  (loadPreset name s = None → ∃ message, deletePreset false name s = Throws message) ∧
  savePreset false "" prompts s = Throws "Preset name cannot be empty." ∧
  (name ≠ ""%string →
     savePreset true name prompts s
     = Throws "Could not save to local storage. It might be full.") ∧
  (s = Absent ∨ s = Unreadable → listPresets s = [] ∧ loadPreset name s = None).
Proof.
  pose proof (NoDup_getPresets s) as Hnd.
  split; [|split; [|split; [|split]]].
  - intros Hsome. unfold deletePreset, setPresets. cbv zeta.
    rewrite bool_decide_eq_true_2.
    2: { destruct (decide (name ∈ (getPresets s).*1)) as [|Hn]; [done|].
         by apply mapGet_None in Hn. }
    eexists. split; [done|]. unfold loadPreset.
    rewrite getPresets_written.
    + split; [apply mapGet_mapDelete|]. intros other Hne. by apply mapGet_mapDelete_ne.
    + unfold mapDelete. clear Hsome. induction (getPresets s) as [|[k v] m IH]; [constructor|].
      rewrite fmap_cons in Hnd. apply NoDup_cons in Hnd as [Hk Hm].
      destruct (decide (k = name)) as [->|Hne].
      * rewrite filter_cons_False by (cbn; auto). by apply IH.
      * rewrite filter_cons_True by done. rewrite fmap_cons. apply NoDup_cons.
        split; [|by apply IH]. intros Hin. apply Hk.
        apply list_elem_of_fmap in Hin as (kv & -> & Hin).
        apply list_elem_of_filter in Hin as [_ Hin].
        apply list_elem_of_fmap. by exists kv.
  - intros Hnone. apply mapGet_None in Hnone. unfold deletePreset. cbv zeta.
    rewrite bool_decide_eq_false_2 by done. by eexists.
  - done.
  - intros Hname. unfold savePreset. by rewrite decide_False by done.
  - by intros [-> | ->].
Qed.

End Presets.

Lemma preset_save_then_load_witness :
  let prompts := [("prompt-5"%string, funk)] in
  ∃ s',
    PresetManager.savePreset false "Evening" prompts PresetManager.Unreadable
    = PresetManager.Ok s' ∧
    PresetManager.loadPreset "Evening" s' = Some [funk] ∧
    PresetManager.loadedPrompts [funk] = prompts.
Proof.
  intros prompts.
  destruct (preset_save_then_load "Evening" prompts PresetManager.Unreadable)
    as (s' & Hsave & Hload & Hmap & _).
  - discriminate.
  - exists s'. split; [exact Hsave|]. split; [exact Hload|]. apply Hmap. split.
    + apply Forall_singleton. reflexivity.
    + apply NoDup_singleton.
Defined.

(** ** The recorder's two functions, end to end *)

(** X27. Concatenation throws in two cases and no other: on an empty list, and
    when a buffer after the first has fewer channels than the first. *)
Theorem concatenation_fails_exactly_when (buffers : list AudioBuffer) :
  concatenateAudioBuffers buffers = None ↔
  buffers = [] ∨
  ∃ first rest,
    buffers = first :: rest ∧
    Exists (λ b, numberOfChannels b < numberOfChannels first)%nat rest.
Proof.
  destruct buffers as [|first rest].
  { split; [by left|done]. }
  destruct (decide (Exists (λ b, numberOfChannels b < numberOfChannels first)%nat rest))
    as [Hex|Hnex].
  - split; [intros _; right; by exists first, rest|].
    intros _. by apply concatenateAudioBuffers_fails.
  - split.
    + intros Hnone. destruct (concatenateAudioBuffers_succeeds first rest) as (full & Hf & _).
      * apply not_Exists_Forall in Hnex; [|intros b; apply _].
        eapply Forall_impl; [exact Hnex|]. intros b Hb. cbn in Hb. lia.
      * congruence.
    + intros [?|(f & r & [= <- <-] & Hex)]; done.
Qed.

(** X28. The concatenation of a single buffer is that buffer. *)
Theorem concatenation_of_one (b : AudioBuffer) :
  Forall (λ ch : list Qc, length ch = frames b) (channelData b) →
  concatenateAudioBuffers [b] = Some b.
Proof.
  intros Hwf.
  destruct (concatenateAudioBuffers_content b []) as (full & Hcat & Hfr & Hrate & Hch & Hdata).
  { apply Forall_singleton. by split. }
  rewrite Hcat. f_equal. destruct full as [r f chs], b as [r' f' chs'].
  cbn [frames sampleRate channelData numberOfChannels] in *.
  unfold totalLength in Hfr. cbn in Hfr. subst r f. f_equal.
  apply list_eq. intros ch. destruct (decide (ch < length chs')%nat) as [Hlt|Hge].
  - rewrite (Hdata ch Hlt). unfold channelOf. cbn [mbind list_bind channelData].
    rewrite app_nil_r. destruct (lookup_lt_is_Some_2 chs' ch Hlt) as [x Hx].
    by rewrite Hx.
  - rewrite !lookup_ge_None_2; [done|lia|unfold numberOfChannels in Hch; cbn in Hch; lia].
Qed.

(** X29. The data section of the file, read back. The encoder never fails; its
    output is 44 bytes of header followed by two bytes a sample, frame by
    frame and channel by channel inside a frame; and the signed 16-bit
    number read at the place of a sample is the conversion of that sample,
    clamped to [-1, 1]. *)
Theorem wav_samples_read_back (b : AudioBuffer) (i ch : nat) :
  (i < frames b)%nat → (ch < numberOfChannels b)%nat →
  ∃ wav,
    audioBufferToWav b = Some wav ∧
    length wav = (44 + 2 * (frames b * numberOfChannels b))%nat ∧
    Forall (λ x, 0 ≤ x < 256) wav ∧
    i16At wav (44 + 2 * (i * numberOfChannels b + ch))
    = pcm16 (clampSample (sampleAt (channelData b) ch i)) ∧
    -32768 ≤ i16At wav (44 + 2 * (i * numberOfChannels b + ch)) ≤ 32767.
Proof.
  intros Hi Hch. destruct (audioBufferToWav_sample b i ch Hi Hch) as (wav & Hwav & Hs).
  exists wav. split; [exact Hwav|].
  pose proof (audioBufferToWav_layout b) as Hlay.
  assert (Heq : wav = wavHeader (Z.of_nat (numberOfChannels b)) (sampleRate b)
                        (Z.of_nat (frames b * numberOfChannels b * 2 + 44)) ++ pcmData b)
    by congruence.
  clear Hlay. split; [|split; [|split]].
  - rewrite Heq, length_app, length_wavHeader, length_pcmData. lia.
  - rewrite Heq. apply Forall_app. split;
      [apply Forall_byte_wavHeader|apply Forall_byte_pcmData].
  - exact Hs.
  - rewrite Hs. apply pcm16_range.
Qed.

Lemma toInt32_floor_nonneg (q : Qc) : (0 ≤ q)%Qc → (qz (toInt32 q) ≤ q)%Qc.
Proof.
  change (0 ≤ q)%Qc with (qz 0 ≤ q)%Qc.
  unfold Qcle, Qle, toInt32, qz, Qc_of_Z. destruct q as [[n d] Hq]. cbn.
  rewrite !Z.mul_1_r. intros Hn.
  rewrite Z.quot_div_nonneg by lia. rewrite Z.mul_comm. apply Z.mul_div_le. lia.
Qed.

Lemma toInt32_ceil_nonpos (q : Qc) : (q ≤ 0)%Qc → (q ≤ qz (toInt32 q))%Qc.
Proof.
  change (q ≤ 0)%Qc with (q ≤ qz 0)%Qc.
  unfold Qcle, Qle, toInt32, qz, Qc_of_Z. destruct q as [[n d] Hq]. cbn.
  rewrite !Z.mul_1_r. intros Hn.
  assert (Hq' : n = Z.pos d * Z.quot n (Z.pos d) + Z.rem n (Z.pos d))
    by (apply Z.quot_rem'; lia).
  assert (Hr : Z.rem n (Z.pos d) ≤ 0) by (apply Z.rem_nonpos; lia).
  lia.
Qed.

Lemma toInt32_ge (q : Qc) (a : Z) : (qz a ≤ q)%Qc → a ≤ toInt32 q.
Proof.
  unfold Qcle, Qle, toInt32. destruct q as [[n d] Hq]. cbn.
  rewrite !Z.mul_1_r. intros Ha.
  rewrite <- (Z.quot_mul a (Z.pos d)) by done. apply Z.quot_le_mono; lia.
Qed.

Lemma toInt32_le (q : Qc) (b : Z) : (q ≤ qz b)%Qc → toInt32 q ≤ b.
Proof.
  unfold Qcle, Qle, toInt32. destruct q as [[n d] Hq]. cbn.
  rewrite !Z.mul_1_r. intros Hb.
  rewrite <- (Z.quot_mul b (Z.pos d)) by done. apply Z.quot_le_mono; lia.
Qed.

Lemma toInt32_mono (q q' : Qc) : (q ≤ q')%Qc → toInt32 q ≤ toInt32 q'.
Proof.
  intros Hle. destruct (decide (0 ≤ q)%Qc) as [Hq|Hq].
  - apply toInt32_ge. eapply Qcle_trans; [by apply toInt32_floor_nonneg|done].
  - apply Qcnot_le_lt, Qclt_le_weak in Hq.
    destruct (decide (q' ≤ 0)%Qc) as [Hq'|Hq'].
    + apply toInt32_le. eapply Qcle_trans; [exact Hle|]. by apply toInt32_ceil_nonpos.
    + apply Qcnot_le_lt, Qclt_le_weak in Hq'.
      transitivity 0; [by apply toInt32_le|by apply toInt32_ge].
Qed.

Lemma Qcmin_mono (c x y : Qc) : (x ≤ y)%Qc → (Qcmin c x ≤ Qcmin c y)%Qc.
Proof.
  intros Hxy. unfold Qcmin.
  destruct (decide (c ≤ x)%Qc) as [Hx|Hx]; destruct (decide (c ≤ y)%Qc) as [Hy|Hy].
  - apply Qcle_refl.
  - destruct Hy. by eapply Qcle_trans.
  - by apply Qclt_le_weak, Qcnot_le_lt.
  - done.
Qed.

Lemma Qcmax_mono (c x y : Qc) : (x ≤ y)%Qc → (Qcmax c x ≤ Qcmax c y)%Qc.
Proof.
  intros Hxy. unfold Qcmax.
  destruct (decide (c ≤ x)%Qc) as [Hx|Hx]; destruct (decide (c ≤ y)%Qc) as [Hy|Hy].
  - done.
  - destruct Hy. by eapply Qcle_trans.
  - done.
  - apply Qcle_refl.
Qed.

Lemma clampSample_mono (x y : Qc) : (x ≤ y)%Qc → (clampSample x ≤ clampSample y)%Qc.
Proof. intros Hxy. unfold clampSample. by apply Qcmax_mono, Qcmin_mono. Qed.

(** X30. The sample conversion keeps the order: of two samples, the larger one
    never gets the smaller number. With the range of the result this says
    that no sample, however far out of [-1, 1], wraps around. *)
Theorem sample_conversion_is_monotone (x y : Qc) :
  (x ≤ y)%Qc → pcm16 (clampSample x) ≤ pcm16 (clampSample y).
Proof.
  intros Hxy%clampSample_mono.
  destruct (clampSample_range x) as [Hx _]. destruct (clampSample_range y) as [_ Hy].
  set (s := clampSample x) in *. set (s' := clampSample y) in *.
  destruct (pcm16_cases s) as [Hs1 Hs2]. destruct (pcm16_cases s') as [Hs1' Hs2'].
  destruct (decide (s < qfrac (-1) 2)%Qc) as [Hlt|Hge];
    destruct (decide (s' < qfrac (-1) 2)%Qc) as [Hlt'|Hge'].
  - rewrite Hs1, Hs1' by done. apply toInt32_mono. by apply Qcmult_le_compat_r.
  - apply Qcnot_lt_le in Hge'. rewrite Hs1, Hs2' by done.
    transitivity (-16384).
    + apply (toInt32_bounds _ (-32768) (-16384)).
      * replace (qz (-32768)) with (qz (-1) * qz 32768)%Qc by by apply Qc_is_canon.
        by apply Qcmult_le_compat_r.
      * replace (qz (-16384)) with (qfrac (-1) 2 * qz 32768)%Qc by by apply Qc_is_canon.
        apply Qcmult_le_compat_r; [by apply Qclt_le_weak|done].
    + apply (toInt32_bounds _ (-16384) 32767).
      * apply Qcle_trans with (qfrac (-1) 2 * qz 32767)%Qc; [done|].
        by apply Qcmult_le_compat_r.
      * replace (qz 32767) with (qz 1 * qz 32767)%Qc at 2 by by apply Qc_is_canon.
        by apply Qcmult_le_compat_r.
  - exfalso. apply Qcnot_lt_le in Hge. apply (Qclt_not_le _ _ Hlt').
    by eapply Qcle_trans.
  - apply Qcnot_lt_le in Hge, Hge'. rewrite Hs2, Hs2' by done.
    apply toInt32_mono. by apply Qcmult_le_compat_r.
Qed.

Lemma concatenation_of_one_witness : concatenateAudioBuffers [twoFrames] = Some twoFrames.
Proof.
  apply concatenation_of_one.
  repeat (apply Forall_cons; split; [reflexivity|]). apply Forall_nil_2.
Defined.

Lemma wav_samples_read_back_witness :
  ∃ wav,
    audioBufferToWav twoFrames = Some wav ∧
    length wav = 52%nat ∧
    Forall (λ x, 0 ≤ x < 256) wav ∧
    i16At wav 50 = pcm16 (clampSample (sampleAt (channelData twoFrames) 1 1)) ∧
    -32768 ≤ i16At wav 50 ≤ 32767.
Proof.
  apply (wav_samples_read_back twoFrames 1 1); cbn; lia.
Defined.

Lemma sample_conversion_is_monotone_witness :
  pcm16 (clampSample (qfrac (-3) 4)) ≤ pcm16 (clampSample (qfrac (-1) 2)).
Proof. apply sample_conversion_is_monotone. discriminate. Defined.
